(** * Singly-linked list starters of Advanced-FitchFork

    Shallow embedding of
    - [src/backend/api/assets/starters/cpp-linkedlist/memo/LinkedList.cpp]
      (class [LinkedList]),
    - [src/backend/api/assets/starters/c-linkedlist/memo/linked_list.c]
      (the [ll_*] functions),
    - the two harnesses [main/main.cpp] and [main/main.c]: their [main]
      functions, and their task functions with the text they write to the
      standard output.

    Memory model: a node heap [gmap ptr Node]; a C/C++ pointer to a node is
    [option ptr] ([None] is [nullptr]/[NULL]).  [new Node(v)] / [malloc]
    picks an address not in use; [delete] / [free] removes it.  Reading or
    writing through a null or freed pointer is undefined behaviour and is
    recorded as a [fault].  [std::size_t] counters are taken as [nat]: a
    list never holds 2^64 nodes, so the increment never wraps. *)

From Stdlib Require Import ZArith String Ascii DecimalString.
From stdpp Require Import base gmap list.

Open Scope nat_scope.

(* ------------------------------------------------------------------ *)
(** ** State and fault monad *)

Definition ptr := positive.

(** Undefined behaviour or a loop that does not terminate. *)
Inductive fault :=
| NullDeref                 (* read or write through nullptr / NULL *)
| BadPointer (p : ptr)      (* use of a pointer that is not allocated *)
| NoTermination.            (* a pointer-chasing loop that never reaches null *)

Definition M (S A : Type) : Type := S -> (A * S) + fault.

Definition ret {S A} (a : A) : M S A := fun s => inl (a, s).
Definition bind {S A B} (m : M S A) (k : A -> M S B) : M S B :=
  fun s => match m s with inl (a, s') => k a s' | inr e => inr e end.
Definition throw {S A} (e : fault) : M S A := fun _ => inr e.
Definition get {S} : M S S := fun s => inl (s, s).

Notation "x <- m ;; k" := (bind m (fun x => k))
  (at level 100, m at next level, right associativity).
Notation "m ;;; k" := (bind m (fun _ => k))
  (at level 100, right associativity).

(* ------------------------------------------------------------------ *)
(** ** Nodes and the node heap *)

(** [struct Node { int value; Node *next; }] *)
Record Node := mkNode { value : Z; next : option ptr }.

Abbreviation heap := (gmap ptr Node).

(** [*p]: null and unallocated pointers fault. *)
Definition deref (p : option ptr) : M heap Node :=
  fun h => match p with
           | None => inr NullDeref
           | Some q => match h !! q with
                       | Some nd => inl (nd, h)
                       | None => inr (BadPointer q)
                       end
           end.

(** [p->next = nx] *)
Definition set_next (p : option ptr) (nx : option ptr) : M heap unit :=
  fun h => match p with
           | None => inr NullDeref
           | Some q => match h !! q with
                       | Some nd => inl (tt, <[q := mkNode (value nd) nx]> h)
                       | None => inr (BadPointer q)
                       end
           end.

(** [new Node(v)] (its constructor sets [next = nullptr]) and
    [malloc(sizeof(Node))]: an address not in use. *)
Definition alloc (v : Z) : M heap ptr :=
  fun h => let q := fresh (dom h) in inl (q, <[q := mkNode v None]> h).

(** [delete p] / [free(p)]: a no-op on null, a fault on an address that
    is not allocated (double free). *)
Definition free (p : option ptr) : M heap unit :=
  fun h => match p with
           | None => inl (tt, h)
           | Some q => match h !! q with
                       | Some _ => inl (tt, delete q h)
                       | None => inr (BadPointer q)
                       end
           end.

(* ------------------------------------------------------------------ *)
(** ** class LinkedList (LinkedList.cpp) *)

(** [Node *head_; Node *tail_; std::size_t size_;] *)
Record LL := mkLL { head_ : option ptr; tail_ : option ptr; size_ : nat }.

(** [LinkedList::LinkedList() : head_(nullptr), tail_(nullptr), size_(0)];
    also [ll_init]. *)
Definition init : LL := mkLL None None 0.

(** [LinkedList::empty] and [ll_empty]: [size_ == 0]. *)
Definition ll_empty (l : LL) : bool := Nat.eqb (size_ l) 0.
(** [LinkedList::size] and [ll_size]: [size_]. *)
Definition ll_size (l : LL) : nat := size_ l.

(** Loops that chase [next] pointers get [S (size h)] rounds of fuel:
    a null-terminated chain in [h] visits at most [size h] distinct
    nodes, so running out of fuel means the chain is cyclic and the C++
    loop does not terminate. *)

(** The loop of [LinkedList::clear]:
    [for (auto *n = head_; n;) { auto *next = n->next; delete n; n = next; }] *)
Fixpoint clear_loop (fuel : nat) (n : option ptr) : M heap unit :=
  match n with
  | None => ret tt
  | Some _ =>
      match fuel with
      | O => throw NoTermination
      | S f => nd <- deref n;; free n;;; clear_loop f (next nd)
      end
  end.

(** [LinkedList::clear]: after the loop, [head_ = tail_ = nullptr; size_ = 0]. *)
Definition clear (l : LL) : M heap LL :=
  h <- get;; clear_loop (S (size h)) (head_ l);;; ret init.

(** [LinkedList::push_front] *)
Definition push_front (l : LL) (v : Z) : M heap LL :=
  n <- alloc v;;
  set_next (Some n) (head_ l);;;
  let tail := match tail_ l with None => Some n | Some t => Some t end in
  ret (mkLL (Some n) tail (S (size_ l))).

(** [LinkedList::push_back] *)
Definition push_back (l : LL) (v : Z) : M heap LL :=
  n <- alloc v;;
  match tail_ l with
  | Some t => set_next (Some t) (Some n);;; ret (mkLL (head_ l) (Some n) (S (size_ l)))
  | None => ret (mkLL (Some n) (Some n) (S (size_ l)))
  end.

(** [bool LinkedList::pop_front(int &out)]: the result [Some v] stands for
    "returned true and wrote [v] to [out]", [None] for "returned false,
    [out] untouched". *)
Definition pop_front (l : LL) : M heap (option Z * LL) :=
  match head_ l with
  | None => ret (None, l)
  | Some n =>
      nd <- deref (Some n);;
      let head := next nd in
      let tail := match head with None => None | Some _ => tail_ l end in
      free (Some n);;;
      ret (Some (value nd), mkLL head tail (size_ l - 1))
  end.

(** [int &LinkedList::front() { return head_->value; }] *)
Definition front (l : LL) : M heap Z := nd <- deref (head_ l);; ret (value nd).

(** [int &LinkedList::back() { return tail_->value; }] *)
Definition back (l : LL) : M heap Z := nd <- deref (tail_ l);; ret (value nd).

(** [prev = prev->next] repeated [k] times. *)
Fixpoint walk (p : option ptr) (k : nat) : M heap (option ptr) :=
  match k with
  | O => ret p
  | S k' => nd <- deref p;; walk (next nd) k'
  end.

(** [bool LinkedList::insert(std::size_t index, int value)]; the loop
    [for (i = 0; i + 1 < index; ++i) prev = prev->next;] runs [index - 1]
    times. *)
Definition insert (l : LL) (index : nat) (v : Z) : M heap (bool * LL) :=
  if decide (size_ l < index) then ret (false, l)
  else if decide (index = 0) then l' <- push_front l v;; ret (true, l')
  else if decide (index = size_ l) then l' <- push_back l v;; ret (true, l')
  else
    prev <- walk (head_ l) (index - 1);;
    n <- alloc v;;
    pnd <- deref prev;;
    set_next (Some n) (next pnd);;;
    set_next prev (Some n);;;
    ret (true, mkLL (head_ l) (tail_ l) (S (size_ l))).

(** [bool LinkedList::erase(std::size_t index)] *)
Definition erase (l : LL) (index : nat) : M heap (bool * LL) :=
  if decide (size_ l <= index) then ret (false, l)
  else if decide (index = 0) then
    r <- pop_front l;;
    ret (match fst r with Some _ => true | None => false end, snd r)
  else
    prev <- walk (head_ l) (index - 1);;
    pnd <- deref prev;;
    let victim := next pnd in
    vnd <- deref victim;;
    set_next prev (next vnd);;;
    let tail := if decide (victim = tail_ l) then prev else tail_ l in
    free victim;;;
    ret (true, mkLL (head_ l) tail (size_ l - 1)).

(** [std::vector<int> LinkedList::toVector() const]:
    [for (auto *n = head_; n; n = n->next) out.push_back(n->value);] *)
Fixpoint to_vector_loop (fuel : nat) (n : option ptr) : M heap (list Z) :=
  match n with
  | None => ret []
  | Some _ =>
      match fuel with
      | O => throw NoTermination
      | S f => nd <- deref n;; rest <- to_vector_loop f (next nd);; ret (value nd :: rest)
      end
  end.

Definition to_vector (l : LL) : M heap (list Z) :=
  h <- get;; to_vector_loop (S (size h)) (head_ l).

(** [LinkedList::copyFrom]:
    [for (auto *n = other.head_; n; n = n->next) push_back(n->value);]
    ([n->value] is read before the call, [n->next] after it). *)
Fixpoint copy_loop (fuel : nat) (n : option ptr) (this : LL) : M heap LL :=
  match n with
  | None => ret this
  | Some _ =>
      match fuel with
      | O => throw NoTermination
      | S f =>
          nd <- deref n;;
          this' <- push_back this (value nd);;
          nd' <- deref n;;
          copy_loop f (next nd') this'
      end
  end.

(** Copy constructor [LinkedList(const LinkedList &other) : LinkedList()
    { copyFrom(other); }]; [ll_copy] has the same body. *)
Definition duplicate (other : LL) : M heap LL :=
  h <- get;; copy_loop (S (size h)) (head_ other) init.

(** Move constructor [LinkedList(LinkedList &&other)]: the new object takes
    [other]'s three fields, then [other] is reset.  Returns the new object
    and the moved-from [other]; [ll_move_from] has the same effect. *)
Definition transfer_from (other : LL) : LL * LL :=
  (mkLL (head_ other) (tail_ other) (size_ other), init).

(** A public mutating call on one list object, for running sequences of
    operations. *)
Inductive op :=
| OpPushFront (v : Z)
| OpPushBack (v : Z)
| OpPopFront
| OpInsert (index : nat) (v : Z)
| OpErase (index : nat)
| OpClear.

Definition exec_op (o : op) (l : LL) : M heap LL :=
  match o with
  | OpPushFront v => push_front l v
  | OpPushBack v => push_back l v
  | OpPopFront => r <- pop_front l;; ret (snd r)
  | OpInsert i v => r <- insert l i v;; ret (snd r)
  | OpErase i => r <- erase l i;; ret (snd r)
  | OpClear => clear l
  end.

Fixpoint run (ops : list op) (l : LL) : M heap LL :=
  match ops with
  | [] => ret l
  | o :: os => l' <- exec_op o l;; run os l'
  end.

(* ------------------------------------------------------------------ *)
(** ** The C interface (linked_list.c) and objects at addresses *)

(** Memory seen by the C functions and by the harness: the node heap, the
    caller's [int] variables (targets of [int* out]), and [LinkedList]
    objects by address. *)
Record Mem := mkMem { nodes : heap; ints : gmap ptr Z; lists : gmap ptr LL }.

Definition on_nodes {A} (m : M heap A) : M Mem A :=
  fun s => match m (nodes s) with
           | inl (a, h') => inl (a, mkMem h' (ints s) (lists s))
           | inr e => inr e
           end.

(** [*out = v] *)
Definition write_int (p : ptr) (v : Z) : M Mem unit :=
  fun s => match ints s !! p with
           | Some _ => inl (tt, mkMem (nodes s) (<[p := v]> (ints s)) (lists s))
           | None => inr (BadPointer p)
           end.

(** [*l] for a [LinkedList* l] *)
Definition load_list (p : ptr) : M Mem LL :=
  fun s => match lists s !! p with
           | Some l => inl (l, s)
           | None => inr (BadPointer p)
           end.

(** [*l = v] *)
Definition store_list (p : ptr) (l : LL) : M Mem unit :=
  fun s => match lists s !! p with
           | Some _ => inl (tt, mkMem (nodes s) (ints s) (<[p := l]> (lists s)))
           | None => inr (BadPointer p)
           end.

(** [int ll_pop_front(LinkedList* l, int* out)] (the list passed by value,
    returned updated):
    [if(!l->head) return 0; Node* n=l->head; l->head=n->next;
     if(!l->head) l->tail=NULL; if(out) *out=n->value; free(n); l->size--;
     return 1;] *)
Definition ll_pop_front (l : LL) (out : option ptr) : M Mem (Z * LL) :=
  match head_ l with
  | None => ret (0%Z, l)
  | Some n =>
      nd <- on_nodes (deref (Some n));;
      let head := next nd in
      let tail := match head with None => None | Some _ => tail_ l end in
      match out with Some o => write_int o (value nd) | None => ret tt end;;;
      on_nodes (free (Some n));;;
      ret (1%Z, mkLL head tail (size_ l - 1))
  end.

(** [int ll_front(const LinkedList* l, int* out)]:
    [if(!l->head) return 0; if(out) *out=l->head->value; return 1;] *)
Definition ll_front (l : LL) (out : option ptr) : M Mem Z :=
  match head_ l with
  | None => ret 0%Z
  | Some _ =>
      match out with
      | Some o => nd <- on_nodes (deref (head_ l));; write_int o (value nd);;; ret 1%Z
      | None => ret 1%Z
      end
  end.

(** [int ll_back(const LinkedList* l, int* out)]:
    [if(!l->tail) return 0; if(out) *out=l->tail->value; return 1;] *)
Definition ll_back (l : LL) (out : option ptr) : M Mem Z :=
  match tail_ l with
  | None => ret 0%Z
  | Some _ =>
      match out with
      | Some o => nd <- on_nodes (deref (tail_ l));; write_int o (value nd);;; ret 1%Z
      | None => ret 1%Z
      end
  end.

(** [void ll_clear(LinkedList* l)]: the same loop and reset as
    [LinkedList::clear]. *)
Definition ll_clear (l : LL) : M heap LL := clear l.

(** [LinkedList &LinkedList::operator=(LinkedList &&other)] with [this] and
    [&other] as object addresses. *)
Definition move_assign (this other : ptr) : M Mem unit :=
  if decide (this = other) then ret tt
  else
    l <- load_list this;;
    l' <- on_nodes (clear l);;
    store_list this l';;;
    o <- load_list other;;
    store_list this (mkLL (head_ o) (tail_ o) (size_ o));;;
    store_list other init.

(** [void ll_move_assign_from(LinkedList* dst, LinkedList* src)]:
    [ll_clear(dst); *dst=*src; ll_init(src);] *)
Definition ll_move_assign_from (dst src : ptr) : M Mem unit :=
  d <- load_list dst;;
  d' <- on_nodes (ll_clear d);;
  store_list dst d';;;
  s <- load_list src;;
  store_list dst s;;;
  store_list src init.

(** The values of the list object at address [p] ([toVector]). *)
Definition values_at (p : ptr) : M Mem (list Z) :=
  l <- load_list p;; on_nodes (to_vector l).

(* ------------------------------------------------------------------ *)
(** ** Harness entry points (main.cpp, main.c) *)

Inductive task := Task1 | Task2 | Task3.

(** [int main(int argc, char **argv)] of cpp-linkedlist/main/main.cpp.
    [argv] as a list ([argc] is its length, [argv[0]] the program name);
    the result is the task groups run, in order, and the exit status. *)
Definition cpp_main (argv : list string) : list task * Z :=
  match argv with
  | _ :: which :: _ =>
      if String.eqb which "task1" then ([Task1], 0%Z)
      else if String.eqb which "task2" then ([Task2], 0%Z)
      else if String.eqb which "task3" then ([Task3], 0%Z)
      else ([], 2%Z)
  | _ => ([Task1; Task2; Task3], 0%Z)
  end.

(** [int main(int argc, char **argv)] of c-linkedlist/main/main.c:
    [which] is [argv[1]] when [argc >= 2] and the empty C string otherwise; then three [strcmp]
    tests and the fall-through that runs every task. *)
Definition c_main (argv : list string) : list task * Z :=
  let which := match argv with _ :: w :: _ => w | _ => EmptyString end in
  if String.eqb which "task1" then ([Task1], 0%Z)
  else if String.eqb which "task2" then ([Task2], 0%Z)
  else if String.eqb which "task3" then ([Task3], 0%Z)
  else ([Task1; Task2; Task3], 0%Z).

(* ------------------------------------------------------------------ *)
(** ** Executions of the spec's scenarios *)

Definition result_value {S A} (m : M S A) (s : S) : option A :=
  match m s with inl (a, _) => Some a | inr _ => None end.

(* ------------------------------------------------------------------ *)
(** ** Representation of a list in the node heap *)

(** [seg h p ps xs r]: following [next] from [p] visits the allocated
    nodes [ps], holding the values [xs], and arrives at [r]. *)
Inductive seg (h : heap) : option ptr -> list ptr -> list Z -> option ptr -> Prop :=
| seg_nil p : seg h p [] [] p
| seg_cons q nd ps xs r :
    h !! q = Some nd -> seg h (next nd) ps xs r ->
    seg h (Some q) (q :: ps) (value nd :: xs) r.

(** The list object [l] owns the distinct nodes [ps], null-terminated from
    [head_], [tail_] at the last one, and [size_] counts them. *)
Definition Rep (h : heap) (l : LL) (ps : list ptr) (xs : list Z) : Prop :=
  seg h (head_ l) ps xs None /\ NoDup ps /\ tail_ l = last ps /\ size_ l = length ps.

(** [h'] agrees with [h] on every allocated node outside [ps]. *)
Definition footprint (h h' : heap) (ps : list ptr) : Prop :=
  forall q, q ∉ ps -> is_Some (h !! q) -> h' !! q = h !! q.

(** The nodes [ps'] were in [ps] or were not allocated in [h]. *)
Definition grows_from (h : heap) (ps ps' : list ptr) : Prop :=
  forall q, q ∈ ps' -> q ∈ ps \/ h !! q = None.

(** Following [next] [k] times from [p]. *)
Fixpoint follow (h : heap) (p : option ptr) (k : nat) : option ptr :=
  match k with
  | O => p
  | S k' =>
      match p with
      | None => None
      | Some q => match h !! q with Some nd => follow h (next nd) k' | None => None end
      end
  end.

Definition reachable (h : heap) (p : option ptr) (q : ptr) : Prop :=
  exists k, follow h p k = Some q.

(* ------------------------------------------------------------------ *)
(** ** The structural invariant and concrete memories *)

(** The structural invariant of the spec (section 3): [size_] is the number
    of nodes reachable from [head_], the tail node has no successor, and
    [size_ == 0] iff [head_] is null iff [tail_] is null. *)
Definition list_invariant (h : heap) (l : LL) : Prop :=
  (exists ns : list ptr, NoDup ns /\ (forall q, q ∈ ns <-> reachable h (head_ l) q) /\
                         size_ l = length ns) /\
  (forall t, tail_ l = Some t -> exists nd, h !! t = Some nd /\ next nd = None) /\
  (size_ l = 0 <-> head_ l = None) /\
  (size_ l = 0 <-> tail_ l = None).

(** After a list object became empty, one push makes it a valid
    one-element list whose head and tail are the same node. *)
Definition push_gives_single (h : heap) : Prop :=
  forall v, (exists h' n, push_front init v h = inl (mkLL (Some n) (Some n) 1, h') /\
                          Rep h' (mkLL (Some n) (Some n) 1) [n] [v]) /\
            (exists h' n, push_back init v h = inl (mkLL (Some n) (Some n) 1, h') /\
                          Rep h' (mkLL (Some n) (Some n) 1) [n] [v]).

(** A one-node list in a one-node heap, for concrete runs. *)
Definition one_heap : heap := {[1%positive := mkNode 5 None]}.
Definition one_list : LL := mkLL (Some 1%positive) (Some 1%positive) 1.

(** A memory holding one list object, at address 1, with the one node 1
    holding 5. *)
Definition one_node_mem : Mem :=
  mkMem {[1%positive := mkNode 5 None]} ∅
        {[1%positive := mkLL (Some 1%positive) (Some 1%positive) 1]}.

(** One list object and one [int] variable at address 7. *)
Definition out_mem : Mem := mkMem one_heap {[7%positive := 0%Z]} ∅.

(** The call with [out = NULL] ([r_null]) and the call with [out = o]
    ([r_out]) from memory [m] return the same result (flag, and list for
    [ll_pop_front]) and leave the same nodes and list objects; the NULL
    call writes no [int], the other writes at most [*o], and only when it
    returns 1. *)
Definition null_out_agrees {A} (flag : A -> Z) (o : ptr) (m : Mem)
    (r_null r_out : (A * Mem) + fault) : Prop :=
  match r_null, r_out with
  | inl (a1, m1), inl (a2, m2) =>
      a1 = a2 /\ nodes m1 = nodes m2 /\ lists m1 = lists m2 /\ ints m1 = ints m /\
      (ints m2 = ints m \/ (flag a2 = 1%Z /\ exists v, ints m2 = <[o := v]> (ints m)))
  | inr e1, inr e2 => e1 = e2
  | _, _ => False
  end.

(* ------------------------------------------------------------------ *)
(** ** Destructor, copy assignment and output *)

(** [LinkedList::~LinkedList() { clear(); }] *)
Definition destroy (l : LL) : M heap unit := _ <- clear l;; ret tt.

(** [void LinkedList::copyFrom(const LinkedList &other)] on [this]:
    [for (auto *n = other.head_; n; n = n->next) push_back(n->value);] *)
Definition copy_from (this other : LL) : M heap LL :=
  h <- get;; copy_loop (S (size h)) (head_ other) this.

(** [LinkedList &LinkedList::operator=(const LinkedList &other)]:
    [if (this != &other) { clear(); copyFrom(other); } return *this;] *)
Definition copy_assign (this other : ptr) : M Mem unit :=
  if decide (this = other) then ret tt
  else
    l <- load_list this;;
    l' <- on_nodes (clear l);;
    store_list this l';;;
    o <- load_list other;;
    t <- load_list this;;
    t' <- on_nodes (copy_from t o);;
    store_list this t'.

(** Output text.  [std::cout << v] for an [int] and [printf("%d", v)]
    print the decimal digits, with a leading [-] when negative; a
    [std::size_t] is printed the same way ([%zu]). *)
Definition nl : string := String (ascii_of_nat 10) EmptyString.

Definition show_Z (z : Z) : string := NilZero.string_of_int (Z.to_int z).

Definition show_nat (n : nat) : string := show_Z (Z.of_nat n).

(** The loop of [print_list] in main.cpp:
    [for (int v : lst.toVector()) { if (!first) std::cout << " ";
     std::cout << v; first = false; }] *)
Fixpoint cpp_print_values (first : bool) (vs : list Z) : string :=
  match vs with
  | [] => EmptyString
  | v :: vs' => ((if first then EmptyString else " ") ++ show_Z v ++ cpp_print_values false vs')%string
  end.

(** [static void print_list(const LinkedList &lst, const std::string &label)] (the label defaults to the empty string)
    of main.cpp: the text it writes to [std::cout]. *)
Definition cpp_print_list (lst : LL) (label : string) : M heap string :=
  vs <- to_vector lst;;
  ret ((if String.eqb label EmptyString then EmptyString else label ++ ": ") ++
       "[" ++ cpp_print_values true vs ++ "] size=" ++ show_nat (ll_size lst) ++ nl)%string.

(** The loop of [print_list] in main.c:
    [while (n) { if (!first) printf(" "); first = 0; printf("%d", n->value);
     n = n->next; }] *)
Fixpoint c_print_loop (fuel : nat) (n : option ptr) (first : bool) : M heap string :=
  match n with
  | None => ret EmptyString
  | Some _ =>
      match fuel with
      | O => throw NoTermination
      | S f =>
          nd <- deref n;;
          rest <- c_print_loop f (next nd) false;;
          ret ((if first then EmptyString else " ") ++ show_Z (value nd) ++ rest)%string
      end
  end.

(** [static void print_list(const LinkedList *lst, const char *label)] of
    main.c ([label] is [None] for a NULL pointer):
    [if (label && *label) printf("%s: ", label); printf("["); ...;
     printf("] size=%zu\n", lst->size);] *)
Definition c_print_list (lst : LL) (label : option string) : M heap string :=
  h <- get;;
  body <- c_print_loop (S (size h)) (head_ lst) true;;
  ret ((match label with
        | Some s => if String.eqb s EmptyString then EmptyString else (s ++ ": ")%string
        | None => EmptyString
        end) ++ "[" ++ body ++ "] size=" ++ show_nat (size_ lst) ++ nl)%string.

(** Every heap cell outside [ps] is the same in [h'] as in [h]. *)
Definition untouched (h h' : heap) (ps : list ptr) : Prop :=
  forall q, q ∉ ps -> h' !! q = h !! q.

(** The heap change of an update that turns a list with nodes [ps] into
    one with nodes [ps']: cells outside both are unchanged, nodes only in
    [ps] are freed, and nodes only in [ps'] were free before. *)
Definition exact_frame (h h' : heap) (ps ps' : list ptr) : Prop :=
  (forall q, q ∉ ps -> q ∉ ps' -> h' !! q = h !! q) /\
  (forall q, q ∈ ps -> q ∉ ps' -> h' !! q = None) /\
  (forall q, q ∈ ps' -> q ∉ ps -> h !! q = None).

(** The effect of one operation on the sequence of values, as read off
    the member functions: out-of-range [insert]/[erase] and [pop_front] on
    an empty list leave the values as they are. *)
Definition model_op (o : op) (xs : list Z) : list Z :=
  match o with
  | OpPushFront v => v :: xs
  | OpPushBack v => xs ++ [v]
  | OpPopFront => match xs with [] => [] | _ :: xs' => xs' end
  | OpInsert i v => if decide (i <= length xs) then take i xs ++ v :: drop i xs else xs
  | OpErase i => if decide (i < length xs) then take i xs ++ drop (S i) xs else xs
  | OpClear => []
  end.

(** The effect of a sequence of operations on the values. *)
Fixpoint model_run (ops : list op) (xs : list Z) : list Z :=
  match ops with
  | [] => xs
  | o :: os => model_run os (model_op o xs)
  end.

(** ** The harness tasks (main.cpp, main.c) *)

(** The running process: memory, the text written to standard output so
    far, and the [std::boolalpha] flag of [std::cout]. *)
Record Proc := mkProc { pmem : Mem; pout : string; palpha : bool }.

(** A step on the memory, lifted to the process. *)
Definition on_mem {A} (k : M Mem A) : M Proc A :=
  fun s => match k (pmem s) with
           | inl (a, m') => inl (a, mkProc m' (pout s) (palpha s))
           | inr e => inr e
           end.

(** A step on the node heap, lifted to the process. *)
Definition on_heap {A} (k : M heap A) : M Proc A := on_mem (on_nodes k).

(** Writing text to standard output. *)
Definition emit (t : string) : M Proc unit :=
  fun s => inl (tt, mkProc (pmem s) (pout s ++ t)%string (palpha s)).

(** [std::cout << std::boolalpha] *)
Definition set_boolalpha : M Proc unit :=
  fun s => inl (tt, mkProc (pmem s) (pout s) true).

(** The text of [std::cout << b] for a [bool b]: [true]/[false] once
    [std::boolalpha] is set, [1]/[0] before. *)
Definition cout_bool (b : bool) : M Proc string :=
  fun s => inl ((if palpha s then (if b then "true" else "false")
                 else (if b then "1" else "0"))%string, s).

(** [b ? "true" : "false"] in the [printf] calls of main.c. *)
Definition c_bool (b : bool) : string := if b then "true" else "false".

(** A local [int] variable at address [p] ([int x = v;]) and a read of it. *)
Definition decl_int (p : ptr) (v : Z) : M Mem unit :=
  fun m => inl (tt, mkMem (nodes m) (<[p := v]> (ints m)) (lists m)).

Definition read_int (p : ptr) : M Mem Z :=
  fun m => match ints m !! p with
           | Some v => inl (v, m)
           | None => inr (BadPointer p)
           end.

(** A local [LinkedList] object at address [p], initialised to [l]. *)
Definition decl_list (p : ptr) (l : LL) : M Mem unit :=
  fun m => inl (tt, mkMem (nodes m) (ints m) (<[p := l]> (lists m))).

(** A call [obj.f(...)] / [f(&obj, ...)] that updates the list object at
    [p]; [f] returns a result and the updated object. *)
Definition call_at {A} (p : ptr) (f : LL -> M heap (A * LL)) : M Proc A :=
  on_mem (l <- load_list p;; r <- on_nodes (f l);; store_list p (snd r);;; ret (fst r)).

Definition update_at (p : ptr) (f : LL -> M heap LL) : M Proc unit :=
  call_at p (fun l => l' <- f l;; ret (tt, l')).

(** [for (int i = lo; ...; ++i) lst.push_back(e(i));] over the values the
    loop pushes, in order. *)
Fixpoint push_back_each (l : LL) (vs : list Z) : M heap LL :=
  match vs with
  | [] => ret l
  | v :: vs' => l' <- push_back l v;; push_back_each l' vs'
  end.

(** The C functions with the same steps as the class members:
    [ll_push_front] ([malloc]; [n->value=v; n->next=l->head; l->head=n;
    if(!l->tail) l->tail=n; l->size++;]), [ll_push_back],
    [ll_insert] and [ll_erase] (their [int] result is the [bool] of the
    member), and [ll_copy] (the [copyFrom] loop into a fresh list). *)
Definition ll_push_front (l : LL) (v : Z) : M heap LL := push_front l v.

Definition ll_push_back (l : LL) (v : Z) : M heap LL := push_back l v.

Definition ll_insert (l : LL) (index : nat) (v : Z) : M heap (bool * LL) := insert l index v.

Definition ll_erase (l : LL) (index : nat) : M heap (bool * LL) := erase l index.

Definition ll_copy (src : LL) : M heap LL := duplicate src.

(** *** main.cpp *)
Definition DELIM : string := "&-=-&".

(** [static void print_section(const std::string &name)] *)
Definition print_section (name : string) : M Proc unit :=
  emit (DELIM ++ " " ++ name ++ nl)%string.

(** [print_list(lst, label)] of main.cpp. *)
Definition cpp_emit_list (lst : LL) (label : string) : M Proc unit :=
  t <- on_heap (cpp_print_list lst label);; emit t.

(** [static void task1_basic_ops()]; the local [lst] is destroyed at the
    end.  In [std::cout << "front=" << lst.front()] the text on the left
    is written before [front()] is called. *)
Definition cpp_task1_basic_ops : M Proc unit :=
  print_section "start-task1";;;
  let lst := init in
  print_section "empty-list";;;
  set_boolalpha;;;
  e <- cout_bool (ll_empty lst);;
  emit ("empty=" ++ e ++ " size=" ++ show_nat (ll_size lst) ++ nl)%string;;;
  print_section "push_front_back";;;
  lst <- on_heap (push_front lst 2);;
  lst <- on_heap (push_back lst 5);;
  lst <- on_heap (push_front lst 1);;
  cpp_emit_list lst "after-push";;;
  print_section "front_back";;;
  emit "front=";;;
  f <- on_heap (front lst);;
  emit (show_Z f ++ " back=")%string;;;
  b <- on_heap (back lst);;
  emit (show_Z b ++ nl)%string;;;
  print_section "pop_front";;;
  r <- on_heap (pop_front lst);;
  let ok := match fst r with Some _ => true | None => false end in
  let lst := snd r in
  okt <- cout_bool ok;;
  emit ("ok=" ++ okt ++ " popped=" ++
        (match fst r with Some out => show_Z out | None => "N/A" end) ++ nl)%string;;;
  cpp_emit_list lst "after-pop";;;
  print_section "clear";;;
  lst <- on_heap (clear lst);;
  e <- cout_bool (ll_empty lst);;
  emit ("empty=" ++ e ++ " size=" ++ show_nat (ll_size lst) ++ nl)%string;;;
  on_heap (destroy lst).

(** [static void task2_insert_erase()]; [lst.size() - 1] is taken when
    the size is positive. *)
Definition cpp_task2_insert_erase : M Proc unit :=
  print_section "start-task2";;;
  lst <- on_heap (push_back_each init (map Z.of_nat (seq 1 5)));;
  cpp_emit_list lst "seed";;;
  print_section "insert";;;
  r <- on_heap (insert lst 0 100);; let lst := snd r in
  t <- cout_bool (fst r);; emit ("ok=" ++ t ++ nl)%string;;;
  r <- on_heap (insert lst 3 200);; let lst := snd r in
  t <- cout_bool (fst r);; emit ("ok=" ++ t ++ nl)%string;;;
  r <- on_heap (insert lst (ll_size lst) 300);; let lst := snd r in
  t <- cout_bool (fst r);; emit ("ok=" ++ t ++ nl)%string;;;
  cpp_emit_list lst "after-insert";;;
  print_section "erase";;;
  r <- on_heap (erase lst 0);; let lst := snd r in
  t <- cout_bool (fst r);; emit ("ok=" ++ t ++ nl)%string;;;
  r <- on_heap (erase lst 2);; let lst := snd r in
  t <- cout_bool (fst r);; emit ("ok=" ++ t ++ nl)%string;;;
  r <- on_heap (erase lst (ll_size lst - 1));; let lst := snd r in
  t <- cout_bool (fst r);; emit ("ok=" ++ t ++ nl)%string;;;
  cpp_emit_list lst "after-erase";;;
  on_heap (destroy lst).

(** *** main.c *)
Definition C_DELIM : string := "###".

(** [static void section(const char *name) { printf(DELIM " %s\n", name); }] *)
Definition section (name : string) : M Proc unit :=
  emit (C_DELIM ++ " " ++ name ++ nl)%string.

(** [print_list(&lst, label)] of main.c, with a non-NULL [label]. *)
Definition c_emit_list (lst : LL) (label : string) : M Proc unit :=
  t <- on_heap (c_print_list lst (Some label));; emit t.

(** [static void task1_basic_ops(void)]; the locals [f], [b], [popped],
    [popped2] are the [int]s at addresses 1 to 4. *)
Definition c_task1_basic_ops : M Proc unit :=
  section "start-task1";;;
  let lst := init in
  section "empty-list";;;
  emit ("empty=" ++ c_bool (ll_empty lst) ++ " size=" ++ show_nat (ll_size lst) ++ nl)%string;;;
  section "push_front_back";;;
  lst <- on_heap (ll_push_front lst 2);;
  lst <- on_heap (ll_push_back lst 5);;
  lst <- on_heap (ll_push_front lst 1);;
  c_emit_list lst "after-push";;;
  section "front_back";;;
  on_mem (decl_int 1%positive 0);;;
  on_mem (decl_int 2%positive 0);;;
  _ <- on_mem (ll_front lst (Some 1%positive));;
  _ <- on_mem (ll_back lst (Some 2%positive));;
  f <- on_mem (read_int 1%positive);;
  b <- on_mem (read_int 2%positive);;
  emit ("front=" ++ show_Z f ++ " back=" ++ show_Z b ++ nl)%string;;;
  section "pop_front";;;
  on_mem (decl_int 3%positive 0);;;
  r <- on_mem (ll_pop_front lst (Some 3%positive));;
  let ok := fst r in
  let lst := snd r in
  popped <- (if Z.eqb ok 0 then ret 0%Z else on_mem (read_int 3%positive));;
  emit ("ok=" ++ c_bool (negb (Z.eqb ok 0)) ++ " popped=" ++ show_Z popped ++ nl)%string;;;
  c_emit_list lst "after-pop";;;
  section "clear";;;
  lst <- on_heap (ll_clear lst);;
  emit ("empty=" ++ c_bool (ll_empty lst) ++ " size=" ++ show_nat (ll_size lst) ++ nl)%string;;;
  section "pop_last_then_push";;;
  let one := init in
  one <- on_heap (ll_push_back one 7);;
  on_mem (decl_int 4%positive 0);;;
  r <- on_mem (ll_pop_front one (Some 4%positive));;
  let ok2 := fst r in
  let one := snd r in
  popped2 <- (if Z.eqb ok2 0 then ret 0%Z else on_mem (read_int 4%positive));;
  emit ("ok=" ++ c_bool (negb (Z.eqb ok2 0)) ++ " popped=" ++ show_Z popped2 ++ nl)%string;;;
  emit ("empty=" ++ c_bool (ll_empty one) ++ " size=" ++ show_nat (ll_size one) ++ nl)%string;;;
  one <- on_heap (ll_push_back one 99);;
  c_emit_list one "after-pop-last-then-push";;;
  one <- on_heap (ll_clear one);;
  lst <- on_heap (ll_clear lst);;
  ret tt.

(** [static void task2_insert_erase(void)]; [ll_size(&lst) - 1] is taken
    when the size is positive. *)
Definition c_task2_insert_erase : M Proc unit :=
  section "start-task2";;;
  lst <- on_heap (push_back_each init (map Z.of_nat (seq 1 5)));;
  c_emit_list lst "seed";;;
  section "insert";;;
  r <- on_heap (ll_insert lst 0 100);; let lst := snd r in
  emit ("ok=" ++ c_bool (fst r) ++ nl)%string;;;
  r <- on_heap (ll_insert lst 3 200);; let lst := snd r in
  emit ("ok=" ++ c_bool (fst r) ++ nl)%string;;;
  r <- on_heap (ll_insert lst (ll_size lst) 300);; let lst := snd r in
  emit ("ok=" ++ c_bool (fst r) ++ nl)%string;;;
  c_emit_list lst "after-insert";;;
  section "erase";;;
  r <- on_heap (ll_erase lst 0);; let lst := snd r in
  emit ("ok=" ++ c_bool (fst r) ++ nl)%string;;;
  r <- on_heap (ll_erase lst 2);; let lst := snd r in
  emit ("ok=" ++ c_bool (fst r) ++ nl)%string;;;
  r <- on_heap (ll_erase lst (ll_size lst - 1));; let lst := snd r in
  emit ("ok=" ++ c_bool (fst r) ++ nl)%string;;;
  c_emit_list lst "after-erase";;;
  section "erase-tail-then-push";;;
  r <- on_heap (ll_erase lst (ll_size lst - 1));; let lst := snd r in
  emit ("ok=" ++ c_bool (fst r) ++ nl)%string;;;
  lst <- on_heap (ll_push_back lst 999);;
  c_emit_list lst "after-erase-tail-then-push";;;
  lst <- on_heap (ll_clear lst);;
  ret tt.

(** *** task3: list objects at addresses *)

(** Reading the object at [p] and printing it ([print_list(a, "a")] /
    [print_list(&a, "a")]). *)
Definition cpp_emit_list_at (p : ptr) (label : string) : M Proc unit :=
  l <- on_mem (load_list p);; cpp_emit_list l label.

Definition c_emit_list_at (p : ptr) (label : string) : M Proc unit :=
  l <- on_mem (load_list p);; c_emit_list l label.

(** [static void task3_copy_move()] of main.cpp; the locals [a], [b], [c],
    [d] are the objects at addresses 1 to 4, destroyed in reverse order
    of construction at the end. *)
Definition cpp_task3_copy_move : M Proc unit :=
  print_section "start-task3";;;
  on_mem (decl_list 1%positive init);;;
  update_at 1%positive (fun a => push_back_each a (map (fun i => Z.of_nat i * 10)%Z (seq 0 4)));;;
  cpp_emit_list_at 1%positive "a";;;
  print_section "copy-ctor";;;
  a <- on_mem (load_list 1%positive);;
  b <- on_heap (duplicate a);;
  on_mem (decl_list 2%positive b);;;
  cpp_emit_list_at 2%positive "b";;;
  print_section "modify-original";;;
  update_at 1%positive (fun a => push_back a 40);;;
  _ <- call_at 1%positive (fun a => erase a 1);;
  cpp_emit_list_at 1%positive "a-after";;;
  cpp_emit_list_at 2%positive "b-unchanged";;;
  print_section "move-ctor";;;
  a <- on_mem (load_list 1%positive);;
  on_mem (decl_list 3%positive (fst (transfer_from a)));;;
  on_mem (store_list 1%positive (snd (transfer_from a)));;;
  cpp_emit_list_at 3%positive "c";;;
  cpp_emit_list_at 1%positive "a-moved-from";;;
  print_section "move-assign";;;
  on_mem (decl_list 4%positive init);;;
  update_at 4%positive (fun d => push_back d 7);;;
  on_mem (move_assign 4%positive 3%positive);;;
  cpp_emit_list_at 4%positive "d";;;
  cpp_emit_list_at 3%positive "c-moved-from";;;
  d <- on_mem (load_list 4%positive);; on_heap (destroy d);;;
  c <- on_mem (load_list 3%positive);; on_heap (destroy c);;;
  b <- on_mem (load_list 2%positive);; on_heap (destroy b);;;
  a <- on_mem (load_list 1%positive);; on_heap (destroy a).

(** [LinkedList ll_move_from(LinkedList* src)]:
    [LinkedList dst=*src; ll_init(src); return dst;] *)
Definition ll_move_from (src : ptr) : M Mem LL :=
  s <- load_list src;;
  store_list src init;;;
  ret s.

(** [static void task3_copy_move(void)] of main.c; [a], [b], [c], [d] are
    the objects at addresses 1 to 4. *)
Definition c_task3_copy_move : M Proc unit :=
  section "start-task3";;;
  on_mem (decl_list 1%positive init);;;
  update_at 1%positive (fun a => push_back_each a (map (fun i => Z.of_nat i * 10)%Z (seq 0 4)));;;
  c_emit_list_at 1%positive "a";;;
  section "copy-ctor";;;
  a <- on_mem (load_list 1%positive);;
  b <- on_heap (ll_copy a);;
  on_mem (decl_list 2%positive b);;;
  c_emit_list_at 2%positive "b";;;
  section "modify-original";;;
  update_at 1%positive (fun a => ll_push_back a 40);;;
  _ <- call_at 1%positive (fun a => ll_erase a 1);;
  c_emit_list_at 1%positive "a-after";;;
  c_emit_list_at 2%positive "b-unchanged";;;
  section "steal/move-sim";;;
  c <- on_mem (ll_move_from 1%positive);;
  on_mem (decl_list 3%positive c);;;
  c_emit_list_at 3%positive "c";;;
  c_emit_list_at 1%positive "a-moved-from";;;
  section "move-assign-sim";;;
  on_mem (decl_list 4%positive init);;;
  on_mem (ll_move_assign_from 4%positive 3%positive);;;
  c_emit_list_at 4%positive "d";;;
  c_emit_list_at 3%positive "c-moved-from";;;
  update_at 1%positive ll_clear;;;
  update_at 2%positive ll_clear;;;
  update_at 3%positive ll_clear;;;
  update_at 4%positive ll_clear.

(** The lines a run writes, each ended by a newline. *)
Definition lines (ls : list string) : string :=
  foldr (fun s acc => (s ++ nl ++ acc)%string) EmptyString ls.

(** The expected texts of the tasks; [cpp_task2_text] depends on whether
    [std::boolalpha] is on when task2 starts. *)
Definition cpp_task1_text : string :=
  lines ["&-=-& start-task1"; "&-=-& empty-list"; "empty=true size=0";
         "&-=-& push_front_back"; "after-push: [1 2 5] size=3";
         "&-=-& front_back"; "front=1 back=5";
         "&-=-& pop_front"; "ok=true popped=1"; "after-pop: [2 5] size=2";
         "&-=-& clear"; "empty=true size=0"]%string.

Definition cpp_task2_text (alpha : bool) : string :=
  let ok := (if alpha then "ok=true" else "ok=1")%string in
  lines ["&-=-& start-task2"; "seed: [1 2 3 4 5] size=5";
         "&-=-& insert"; ok; ok; ok; "after-insert: [100 1 2 200 3 4 5 300] size=8";
         "&-=-& erase"; ok; ok; ok; "after-erase: [1 2 3 4 5] size=5"]%string.

Definition c_task1_text : string :=
  lines ["### start-task1"; "### empty-list"; "empty=true size=0";
         "### push_front_back"; "after-push: [1 2 5] size=3";
         "### front_back"; "front=1 back=5";
         "### pop_front"; "ok=true popped=1"; "after-pop: [2 5] size=2";
         "### clear"; "empty=true size=0";
         "### pop_last_then_push"; "ok=true popped=7"; "empty=true size=0";
         "after-pop-last-then-push: [99] size=1"]%string.

Definition c_task2_text : string :=
  lines ["### start-task2"; "seed: [1 2 3 4 5] size=5";
         "### insert"; "ok=true"; "ok=true"; "ok=true";
         "after-insert: [100 1 2 200 3 4 5 300] size=8";
         "### erase"; "ok=true"; "ok=true"; "ok=true"; "after-erase: [1 2 3 4 5] size=5";
         "### erase-tail-then-push"; "ok=true";
         "after-erase-tail-then-push: [1 2 3 4 999] size=5"]%string.

Definition cpp_task3_text : string :=
  lines ["&-=-& start-task3"; "a: [0 10 20 30] size=4";
         "&-=-& copy-ctor"; "b: [0 10 20 30] size=4";
         "&-=-& modify-original"; "a-after: [0 20 30 40] size=4"; "b-unchanged: [0 10 20 30] size=4";
         "&-=-& move-ctor"; "c: [0 20 30 40] size=4"; "a-moved-from: [] size=0";
         "&-=-& move-assign"; "d: [0 20 30 40] size=4"; "c-moved-from: [] size=0"]%string.

Definition c_task3_text : string :=
  lines ["### start-task3"; "a: [0 10 20 30] size=4";
         "### copy-ctor"; "b: [0 10 20 30] size=4";
         "### modify-original"; "a-after: [0 20 30 40] size=4"; "b-unchanged: [0 10 20 30] size=4";
         "### steal/move-sim"; "c: [0 20 30 40] size=4"; "a-moved-from: [] size=0";
         "### move-assign-sim"; "d: [0 20 30 40] size=4"; "c-moved-from: [] size=0"]%string.

(** ** Whole programs: the tasks [main] selects, run in order on one process state *)

(** The task functions each [main] calls for a [task]. *)
Definition cpp_task_body (t : task) : M Proc unit :=
  match t with
  | Task1 => cpp_task1_basic_ops
  | Task2 => cpp_task2_insert_erase
  | Task3 => cpp_task3_copy_move
  end.

Definition c_task_body (t : task) : M Proc unit :=
  match t with
  | Task1 => c_task1_basic_ops
  | Task2 => c_task2_insert_erase
  | Task3 => c_task3_copy_move
  end.

(** Calling the tasks in order. *)
Fixpoint run_tasks (body : task -> M Proc unit) (ts : list task) : M Proc unit :=
  match ts with
  | [] => ret tt
  | t :: ts' => body t;;; run_tasks body ts'
  end.

(** The standard output of [main] and its exit status (the [std::cerr]
    line of an unknown task is not on the standard output). *)
Definition cpp_program (argv : list string) : M Proc Z :=
  run_tasks cpp_task_body (fst (cpp_main argv));;; ret (snd (cpp_main argv)).

Definition c_program (argv : list string) : M Proc Z :=
  run_tasks c_task_body (fst (c_main argv));;; ret (snd (c_main argv)).

(** The expected text of a C task. *)
Definition c_task_text (t : task) : string :=
  match t with Task1 => c_task1_text | Task2 => c_task2_text | Task3 => c_task3_text end.

(** Two one-node list objects, at addresses 1 and 2 (nodes 1 and 2
    holding 5 and 7), and one [int] variable at address 7. *)
Definition two_heap : heap :=
  {[1%positive := mkNode 5 None; 2%positive := mkNode 7 None]}.
Definition two_list_mem : Mem :=
  mkMem two_heap {[7%positive := 0%Z]}
        {[1%positive := mkLL (Some 1%positive) (Some 1%positive) 1;
          2%positive := mkLL (Some 2%positive) (Some 2%positive) 1]}.

(* ------------------------------------------------------------------ *)
(** ** The spec's scenarios, run *)

Example scenario_task1 :
  result_value
    (l1 <- push_front init 2;; l2 <- push_back l1 5;; l3 <- push_front l2 1;;
     xs <- to_vector l3;; r <- pop_front l3;; ys <- to_vector (snd r);;
     ret (xs, ll_size l3, fst r, ys, ll_size (snd r))) ∅
  = Some ([1; 2; 5]%Z, 3, Some 1%Z, [2; 5]%Z, 2).
Proof. vm_compute. reflexivity. Qed.

Example scenario_task2 :
  result_value
    (l <- run (map OpPushBack [1; 2; 3; 4; 5]%Z) init;;
     r1 <- insert l 0 100;; r2 <- insert (snd r1) 3 200;;
     r3 <- insert (snd r2) (ll_size (snd r2)) 300;; xs <- to_vector (snd r3);;
     e <- erase (snd r3) (ll_size (snd r3) - 1);; l' <- push_back (snd e) 999;;
     ys <- to_vector l';; b <- back l';;
     ret (fst r1, fst r2, fst r3, xs, fst e, ys, b)) ∅
  = Some (true, true, true, [100; 1; 2; 200; 3; 4; 5; 300]%Z, true,
          [100; 1; 2; 200; 3; 4; 5; 999]%Z, 999%Z).
Proof. vm_compute. reflexivity. Qed.

(* ------------------------------------------------------------------ *)
(** ** Monad and heap primitives *)

Lemma bind_inl {S A B} (m : M S A) (k : A -> M S B) s a s' :
  m s = inl (a, s') -> bind m k s = k a s'.
Proof. intros E. unfold bind. by rewrite E. Qed.

Lemma deref_some h q nd : h !! q = Some nd -> deref (Some q) h = inl (nd, h).
Proof. intros E. unfold deref. by rewrite E. Qed.

Lemma set_next_some h q nd nx :
  h !! q = Some nd -> set_next (Some q) nx h = inl (tt, <[q := mkNode (value nd) nx]> h).
Proof. intros E. unfold set_next. by rewrite E. Qed.

Lemma free_some h q nd : h !! q = Some nd -> free (Some q) h = inl (tt, delete q h).
Proof. intros E. unfold free. by rewrite E. Qed.

Lemma fresh_unused (h : heap) : h !! fresh (dom h) = None.
Proof. apply not_elem_of_dom, is_fresh. Qed.

Ltac step E := erewrite bind_inl; [cbv beta | exact E].

(* ------------------------------------------------------------------ *)
(** ** Segment lemmas *)

Lemma seg_length h p ps xs r : seg h p ps xs r -> length xs = length ps.
Proof. induction 1; simpl; lia. Qed.

Lemma seg_alloc h p ps xs r : seg h p ps xs r -> forall q, q ∈ ps -> is_Some (h !! q).
Proof.
  induction 1 as [|q0 nd ps xs r E _ IH]; intros q Hq.
  - by apply elem_of_nil in Hq.
  - apply elem_of_cons in Hq as [->|Hq]; [by eexists | auto].
Qed.

Lemma seg_frame h h' p ps xs r :
  seg h p ps xs r -> (forall q, q ∈ ps -> h' !! q = h !! q) -> seg h' p ps xs r.
Proof.
  induction 1 as [p|q nd ps xs r E _ IH]; intros Hagree.
  - constructor.
  - constructor.
    + rewrite Hagree; [done | apply list_elem_of_here].
    + apply IH. intros q' Hq'. apply Hagree. by apply list_elem_of_further.
Qed.

Lemma seg_app h p ps1 xs1 m ps2 xs2 r :
  seg h p ps1 xs1 m -> seg h m ps2 xs2 r -> seg h p (ps1 ++ ps2) (xs1 ++ xs2) r.
Proof. induction 1; simpl; [done|]. intros. constructor; auto. Qed.

Lemma seg_split h p ps1 ps2 xs r :
  seg h p (ps1 ++ ps2) xs r ->
  exists xs1 xs2 m, xs = xs1 ++ xs2 /\ seg h p ps1 xs1 m /\ seg h m ps2 xs2 r.
Proof.
  revert p xs. induction ps1 as [|q ps1 IH]; intros p xs Hs; simpl in Hs.
  - exists [], xs, p. repeat split; [constructor | done].
  - inversion Hs as [|q' nd ps xs' r' E Hs']; subst.
    destruct (IH _ _ Hs') as (xs1 & xs2 & m & -> & H1 & H2).
    exists (value nd :: xs1), xs2, m. split; [done | split; [econstructor; eauto | exact H2]].
Qed.

Lemma seg_null_start h ps xs r : seg h None ps xs r -> ps = [] /\ xs = [] /\ r = None.
Proof. inversion 1; auto. Qed.

Lemma seg_nil_inv h p xs r : seg h p [] xs r -> xs = [] /\ r = p.
Proof. inversion 1; auto. Qed.

Lemma seg_cons_inv h p q ps xs r :
  seg h p (q :: ps) xs r ->
  exists nd xs', p = Some q /\ h !! q = Some nd /\ xs = value nd :: xs' /\ seg h (next nd) ps xs' r.
Proof. inversion 1; subst; eauto 10. Qed.

Lemma seg_snoc_inv h p ps t xs :
  seg h p (ps ++ [t]) xs None ->
  exists xs0 nd, xs = xs0 ++ [value nd] /\ seg h p ps xs0 (Some t) /\
                 h !! t = Some nd /\ next nd = None.
Proof.
  intros Hs. apply seg_split in Hs as (xs1 & xs2 & m & -> & H1 & H2).
  apply seg_cons_inv in H2 as (nd & xs' & -> & E & -> & H3).
  apply seg_nil_inv in H3 as [-> Hn]. eauto 10.
Qed.

Lemma walk_seg h p ps xs m : seg h p ps xs m -> walk p (length ps) h = inl (m, h).
Proof.
  induction 1 as [p|q nd ps xs r E _ IH]; simpl; [done|].
  step (deref_some _ _ _ E). exact IH.
Qed.

Lemma seg_reachable h p ps xs : seg h p ps xs None -> forall q, q ∈ ps <-> reachable h p q.
Proof.
  intros Hs. remember None as r eqn:Er.
  induction Hs as [p|q0 nd ps xs r E Hs IH]; intros q; split; subst.
  - by intros ?%elem_of_nil.
  - intros [k Hk]. destruct k; simpl in Hk; congruence.
  - intros [->|Hq]%elem_of_cons.
    + by exists 0.
    + apply IH in Hq as [k Hk]; [|done]. exists (S k). simpl. by rewrite E.
  - intros [k Hk]. destruct k as [|k]; simpl in Hk.
    + injection Hk as ->. apply list_elem_of_here.
    + rewrite E in Hk. apply list_elem_of_further, IH; [done|]. by exists k.
Qed.

(** A list of distinct allocated nodes is no longer than the heap. *)
Lemma nodup_alloc_length (h : heap) (ps : list ptr) :
  NoDup ps -> (forall q, q ∈ ps -> is_Some (h !! q)) -> length ps <= size h.
Proof.
  intros Hnd Hal.
  rewrite <- (size_list_to_set (C := gset ptr)) by done.
  rewrite <- (size_dom (D := gset ptr)).
  apply subseteq_size. intros q Hq.
  apply elem_of_list_to_set in Hq. by apply elem_of_dom, Hal.
Qed.

Lemma seg_fresh_notin h p ps xs r : seg h p ps xs r -> fresh (dom h) ∉ ps.
Proof.
  intros Hs Hin. destruct (seg_alloc _ _ _ _ _ Hs _ Hin) as [nd E].
  by rewrite fresh_unused in E.
Qed.

Lemma alloc_eq h v :
  alloc v h = inl (fresh (dom h), <[fresh (dom h) := mkNode v None]> h).
Proof. reflexivity. Qed.

Lemma last_None_nil (ps : list ptr) : None = last ps -> ps = [].
Proof. intros E. by apply last_None. Qed.

Lemma footprint_refl h ps : footprint h h ps.
Proof. by intros q _ _. Qed.

(** An empty list object is exactly one with a null head. *)
Lemma Rep_empty h l ps xs : Rep h l ps xs -> (size_ l = 0 <-> head_ l = None).
Proof.
  intros (Hs & _ & _ & Hsz). rewrite Hsz. split.
  - intros Hl. destruct ps; [|done]. by apply seg_nil_inv in Hs as [_ ->].
  - intros Hh. rewrite Hh in Hs. by apply seg_null_start in Hs as [-> _].
Qed.

(* ------------------------------------------------------------------ *)
(** ** Specifications of the operations *)

Lemma push_front_spec h l ps xs v :
  Rep h l ps xs ->
  let n := fresh (dom h) in
  exists h', push_front l v h =
             inl (mkLL (Some n) (match tail_ l with None => Some n | Some t => Some t end)
                       (S (size_ l)), h') /\
             Rep h' (mkLL (Some n) (match tail_ l with None => Some n | Some t => Some t end)
                          (S (size_ l))) (n :: ps) (v :: xs) /\
             footprint h h' ps /\ grows_from h ps (n :: ps).
Proof.
  intros HR n. pose proof HR as (Hs & Hnd & Ht & Hsz).
  assert (Hn : h !! n = None) by apply fresh_unused.
  assert (Hnin : n ∉ ps) by (eapply seg_fresh_notin; eauto).
  unfold push_front. step (alloc_eq h v).
  step (set_next_some _ n _ (head_ l) (lookup_insert_eq h n (mkNode v None))).
  eexists. split; [reflexivity|]. cbn [value].
  set (h' := <[n := mkNode v (head_ l)]> (<[n := mkNode v None]> h)).
  assert (Hagree : forall q, q ≠ n -> h' !! q = h !! q).
  { intros q Hq. unfold h'. by rewrite !lookup_insert_ne by congruence. }
  split; [split; [|split; [|split]]|split].
  - simpl. apply (seg_cons _ _ (mkNode v (head_ l))).
    + unfold h'. by rewrite lookup_insert_eq.
    + eapply seg_frame; [exact Hs|]. intros q Hq. apply Hagree. congruence.
  - by apply NoDup_cons_2.
  - simpl. rewrite last_cons. destruct (tail_ l) as [t|].
    + by rewrite <- Ht.
    + by rewrite (last_None_nil _ Ht).
  - simpl. by rewrite Hsz.
  - intros q Hq [x Ex]. apply Hagree. congruence.
  - intros q [->|Hq]%elem_of_cons; [by right | by left].
Qed.

Lemma push_back_spec h l ps xs v :
  Rep h l ps xs ->
  let n := fresh (dom h) in
  exists h' l', push_back l v h = inl (l', h') /\
    head_ l' = match head_ l with None => Some n | Some p => Some p end /\
    tail_ l' = Some n /\
    Rep h' l' (ps ++ [n]) (xs ++ [v]) /\
    footprint h h' ps /\ grows_from h ps (ps ++ [n]).
Proof.
  intros HR n. pose proof HR as (Hs & Hnd & Ht & Hsz).
  assert (Hn : h !! n = None) by apply fresh_unused.
  assert (Hnin : n ∉ ps) by (eapply seg_fresh_notin; eauto).
  assert (Hgrow : grows_from h ps (ps ++ [n])).
  { intros q [Hq|Hq%list_elem_of_singleton]%elem_of_app; subst; [by left | by right]. }
  unfold push_back. step (alloc_eq h v).
  destruct (tail_ l) as [t|] eqn:Etl.
  - symmetry in Ht. apply last_Some in Ht as [ps0 ->].
    apply seg_snoc_inv in Hs as (xs0 & ndt & -> & Hs0 & Et & Hnx).
    apply NoDup_app in Hnd as (Hnd0 & Hdisj & _).
    assert (Htn : t ≠ n) by congruence.
    assert (Ht0 : t ∉ ps0) by (intros Hin; by apply (Hdisj t Hin), list_elem_of_singleton).
    assert (Hn0 : n ∉ ps0) by (intros Hin; apply Hnin, elem_of_app; by left).
    step (set_next_some _ t _ (Some n)
            (eq_trans (lookup_insert_ne h n t (mkNode v None) (not_eq_sym Htn)) Et)).
    set (h' := <[t := mkNode (value ndt) (Some n)]> (<[n := mkNode v None]> h)).
    assert (Hagree : forall q, q ≠ n -> q ≠ t -> h' !! q = h !! q).
    { intros q Hq1 Hq2. unfold h'. by rewrite !lookup_insert_ne by congruence. }
    do 2 eexists. split; [reflexivity|]. simpl.
    split; [|split; [done|split; [split; [|split; [|split]]|split]]].
    + destruct (head_ l) as [p|] eqn:Eh; [done|].
      apply seg_null_start in Hs0 as (-> & _ & ?); congruence.
    + rewrite <- !app_assoc. eapply seg_app.
      { eapply seg_frame; [exact Hs0|]. intros q Hq. apply Hagree; congruence. }
      simpl. apply (seg_cons _ _ (mkNode (value ndt) (Some n))).
      { unfold h'. by rewrite lookup_insert_eq. }
      apply (seg_cons _ _ (mkNode v None)); [|constructor].
      unfold h'. rewrite lookup_insert_ne by congruence. by rewrite lookup_insert_eq.
    + apply NoDup_app. split; [apply NoDup_app; split; [done|split; [|apply NoDup_singleton]]|split].
      * intros q Hq Hq'%list_elem_of_singleton. subst. by apply Ht0.
      * intros q [Hq|Hq%list_elem_of_singleton]%elem_of_app Hq'%list_elem_of_singleton;
          subst; [by apply Hn0 | done].
      * apply NoDup_singleton.
    + by rewrite last_snoc.
    + rewrite Hsz, !length_app. simpl. lia.
    + intros q Hq [x Ex]. apply Hagree.
      * congruence.
      * intros ->. apply Hq, elem_of_app. right. apply list_elem_of_here.
    + exact Hgrow.
  - apply last_None_nil in Ht as ->. apply seg_nil_inv in Hs as [-> Hh].
    do 2 eexists. split; [reflexivity|]. simpl.
    split; [|split; [done|split; [split; [|split; [|split]]|split]]].
    + by rewrite <- Hh.
    + apply (seg_cons _ _ (mkNode v None)); [by rewrite lookup_insert_eq | constructor].
    + apply NoDup_singleton.
    + done.
    + by rewrite Hsz.
    + intros q Hq [x Ex]. rewrite lookup_insert_ne; [done|]. intros Heq. subst q. by rewrite fresh_unused in Ex.
    + exact Hgrow.
Qed.

Lemma pop_front_spec h l ps xs :
  Rep h l ps xs ->
  match ps with
  | [] => xs = [] /\ head_ l = None /\ pop_front l h = inl ((None, l), h)
  | p :: ps' =>
      exists nd xs',
        h !! p = Some nd /\ xs = value nd :: xs' /\ head_ l = Some p /\
        let l' := mkLL (next nd) (match next nd with None => None | Some _ => tail_ l end)
                       (size_ l - 1) in
        pop_front l h = inl ((Some (value nd), l'), delete p h) /\
        Rep (delete p h) l' ps' xs' /\ footprint h (delete p h) ps /\ grows_from h ps ps'
  end.
Proof.
  intros (Hs & Hnd & Ht & Hsz). destruct ps as [|p ps'].
  - apply seg_nil_inv in Hs as [-> Hh]. split; [done|split; [done|]].
    unfold pop_front. by rewrite <- Hh.
  - apply seg_cons_inv in Hs as (nd & xs' & Hh & E & -> & Hs').
    apply NoDup_cons in Hnd as [Hp Hnd'].
    exists nd, xs'. split; [done|split; [done|split; [done|]]]. intros l'.
    split.
    { unfold pop_front. rewrite Hh. step (deref_some _ _ _ E). step (free_some _ _ _ E).
      reflexivity. }
    split; [split; [|split; [done|split]]|split].
    + simpl. eapply seg_frame; [exact Hs'|]. intros q Hq.
      rewrite lookup_delete_ne; [done|]. intros ->. by apply Hp.
    + simpl. destruct (next nd) as [y|] eqn:En.
      * destruct ps' as [|q ps''].
        { apply seg_nil_inv in Hs' as [_ ?]. congruence. }
        rewrite Ht, last_cons. by destruct (last (q :: ps'')) eqn:El;
          [| apply last_None in El].
      * apply seg_null_start in Hs' as [-> _]. done.
    + simpl. rewrite Hsz. simpl. lia.
    + intros q Hq [x Ex]. rewrite lookup_delete_ne; [done|]. intros ->.
      apply Hq, list_elem_of_here.
    + intros q Hq. left. by apply list_elem_of_further.
Qed.

Lemma to_vector_loop_spec h p ps xs fuel :
  seg h p ps xs None -> length ps <= fuel -> to_vector_loop fuel p h = inl (xs, h).
Proof.
  revert p xs fuel. induction ps as [|q ps IH]; intros p xs fuel Hs Hf.
  - apply seg_nil_inv in Hs as [-> <-]. by destruct fuel.
  - apply seg_cons_inv in Hs as (nd & xs' & -> & E & -> & Hs').
    destruct fuel as [|fuel]; simpl in Hf; [lia|]. simpl.
    step (deref_some _ _ _ E). step (IH _ _ fuel Hs' ltac:(lia)). reflexivity.
Qed.

Lemma Rep_fuel h l ps xs : Rep h l ps xs -> length ps <= size h.
Proof.
  intros (Hs & Hnd & _ & _). apply nodup_alloc_length; [done|].
  eapply seg_alloc; eauto.
Qed.

Lemma to_vector_spec h l ps xs : Rep h l ps xs -> to_vector l h = inl (xs, h).
Proof.
  intros HR. unfold to_vector. step (eq_refl : get h = inl (h, h)).
  apply (to_vector_loop_spec _ _ ps); [apply HR|]. pose proof (Rep_fuel _ _ _ _ HR). lia.
Qed.

Lemma clear_loop_spec h p ps xs fuel :
  seg h p ps xs None -> NoDup ps -> length ps <= fuel ->
  exists h', clear_loop fuel p h = inl (tt, h') /\
    (forall q, q ∈ ps -> h' !! q = None) /\ (forall q, q ∉ ps -> h' !! q = h !! q).
Proof.
  revert h p xs fuel. induction ps as [|q ps IH]; intros h p xs fuel Hs Hnd Hf.
  - apply seg_nil_inv in Hs as [-> <-]. exists h. split; [by destruct fuel|].
    split; [by intros ? ?%elem_of_nil | done].
  - apply seg_cons_inv in Hs as (nd & xs' & -> & E & -> & Hs').
    apply NoDup_cons in Hnd as [Hq Hnd'].
    destruct fuel as [|fuel]; simpl in Hf; [lia|]. simpl.
    step (deref_some _ _ _ E). step (free_some _ _ _ E).
    assert (Hs'' : seg (delete q h) (next nd) ps xs' None).
    { eapply seg_frame; [exact Hs'|]. intros q' Hq'.
      rewrite lookup_delete_ne; [done|]. intros ->. by apply Hq. }
    destruct (IH _ _ _ fuel Hs'' Hnd' ltac:(lia)) as (h' & Ec & Hgone & Hkeep).
    exists h'. split; [exact Ec|]. split.
    + intros q' [->|Hq']%elem_of_cons; [|by apply Hgone].
      rewrite Hkeep by done. apply lookup_delete_eq.
    + intros q' Hq'. rewrite Hkeep.
      * apply lookup_delete_ne. intros ->. apply Hq', list_elem_of_here.
      * intros Hin. apply Hq'. by apply list_elem_of_further.
Qed.

Lemma clear_spec h l ps xs :
  Rep h l ps xs ->
  exists h', clear l h = inl (init, h') /\ Rep h' init [] [] /\
             footprint h h' ps /\ grows_from h ps [] /\
             (forall q, q ∈ ps -> h' !! q = None).
Proof.
  intros HR. pose proof HR as (Hs & Hnd & _ & _).
  unfold clear. step (eq_refl : get h = inl (h, h)).
  destruct (clear_loop_spec h (head_ l) ps xs (S (size h)) Hs Hnd)
    as (h' & Ec & Hgone & Hkeep).
  { pose proof (Rep_fuel _ _ _ _ HR). lia. }
  step Ec. exists h'. split; [reflexivity|].
  split; [split; [constructor|split; [constructor|done]]|split; [|split]].
  - intros q Hq _. by apply Hkeep.
  - by intros q ?%elem_of_nil.
  - exact Hgone.
Qed.

Lemma split_at_index (ps : list ptr) k :
  k < length ps -> exists ps1 p ps2, ps = ps1 ++ p :: ps2 /\ length ps1 = k.
Proof.
  intros Hk. destruct (lookup_lt_is_Some_2 ps k Hk) as [p Ep].
  destruct (list_elem_of_split_length ps k p Ep) as (ps1 & ps2 & -> & ->). eauto.
Qed.

Lemma last_cons_ne (x : ptr) l : l ≠ [] -> last (x :: l) = last l.
Proof. destruct l; [done|]. intros _. done. Qed.

Lemma insert_spec h l ps xs i v :
  Rep h l ps xs -> i <= size_ l ->
  exists h' l' ps' xs', insert l i v h = inl ((true, l'), h') /\
    Rep h' l' ps' xs' /\ footprint h h' ps /\ grows_from h ps ps'.
Proof.
  intros HR Hi. pose proof HR as (Hs & Hnd & Ht & Hsz).
  unfold insert. rewrite decide_False by lia.
  case_decide as Hi0.
  { destruct (push_front_spec h l ps xs v HR) as (h' & E & HR' & Hfp & Hgr).
    step E. do 4 eexists. split; [reflexivity|]. eauto. }
  case_decide as Hin.
  { destruct (push_back_spec h l ps xs v HR) as (h' & l' & E & _ & _ & HR' & Hfp & Hgr).
    step E. do 4 eexists. split; [reflexivity|]. eauto. }
  set (n := fresh (dom h)).
  assert (Hn : h !! n = None) by apply fresh_unused.
  assert (Hnin : n ∉ ps) by (eapply seg_fresh_notin; eauto).
  destruct (split_at_index ps (i - 1)) as (ps1 & pv & ps2 & -> & Hlen); [lia|].
  assert (Hps2 : ps2 ≠ []).
  { intros ->. rewrite length_app in Hsz. simpl in Hsz. lia. }
  apply seg_split in Hs as (xs1 & xs2 & m & -> & Hs1 & Hs2).
  apply seg_cons_inv in Hs2 as (ndp & xs2' & -> & Ep & -> & Hs2).
  assert (Hpn : pv ≠ n).
  { intros ->. apply Hnin, elem_of_app. right. apply list_elem_of_here. }
  apply NoDup_app in Hnd as (Hnd1 & Hdisj & Hnd2).
  apply NoDup_cons in Hnd2 as [Hpv2 Hnd2].
  assert (Hpv1 : pv ∉ ps1) by (intros Hq; apply (Hdisj pv Hq), list_elem_of_here).
  rewrite <- Hlen. step (walk_seg _ _ _ _ _ Hs1).
  step (alloc_eq h v). fold n.
  step (deref_some _ pv ndp (eq_trans (lookup_insert_ne h n pv (mkNode v None) (not_eq_sym Hpn)) Ep)).
  step (set_next_some _ n _ (next ndp) (lookup_insert_eq h n (mkNode v None))).
  assert (Ep2 : <[n := mkNode v (next ndp)]> (<[n := mkNode v None]> h) !! pv = Some ndp).
  { rewrite !lookup_insert_ne by congruence. exact Ep. }
  step (set_next_some _ pv _ (Some n) Ep2).
  set (h' := <[pv := mkNode (value ndp) (Some n)]>
               (<[n := mkNode v (next ndp)]> (<[n := mkNode v None]> h))).
  assert (Hagree : forall q, q ≠ n -> q ≠ pv -> h' !! q = h !! q).
  { intros q Hq1 Hq2. unfold h'. by rewrite !lookup_insert_ne by congruence. }
  exists h', (mkLL (head_ l) (tail_ l) (S (size_ l))), (ps1 ++ pv :: n :: ps2),
    (xs1 ++ value ndp :: v :: xs2').
  split; [reflexivity|].
  split; [split; [|split; [|split]]|split].
  - simpl. eapply seg_app.
    { eapply seg_frame; [exact Hs1|]. intros q Hq. apply Hagree.
      - intros ->. apply Hnin, elem_of_app. by left.
      - intros ->. by apply Hpv1. }
    apply (seg_cons _ _ (mkNode (value ndp) (Some n))).
    { unfold h'. by rewrite lookup_insert_eq. }
    apply (seg_cons _ _ (mkNode v (next ndp))).
    { unfold h'. rewrite lookup_insert_ne by congruence. by rewrite lookup_insert_eq. }
    eapply seg_frame; [exact Hs2|]. intros q Hq. apply Hagree.
    + intros ->. apply Hnin, elem_of_app. right. by apply list_elem_of_further.
    + intros ->. by apply Hpv2.
  - apply NoDup_app. split; [done|split].
    + intros q Hq Hq'. apply elem_of_cons in Hq' as [->|Hq']; [by apply Hpv1|].
      apply elem_of_cons in Hq' as [->|Hq'].
      * apply Hnin, elem_of_app. by left.
      * apply (Hdisj q Hq). by apply list_elem_of_further.
    + apply NoDup_cons. split; [|apply NoDup_cons; split; [|done]].
      * intros [->|Hq]%elem_of_cons; [done|by apply Hpv2].
      * intros Hq. apply Hnin, elem_of_app. right. by apply list_elem_of_further.
  - simpl. rewrite Ht, !last_app_cons, !last_cons_ne by done. done.
  - simpl. rewrite Hsz, !length_app. simpl. lia.
  - intros q Hq [x Ex]. apply Hagree.
    + intros ->. by rewrite Hn in Ex.
    + intros ->. apply Hq, elem_of_app. right. apply list_elem_of_here.
  - intros q Hq. apply elem_of_app in Hq as [Hq|Hq].
    + left. apply elem_of_app. by left.
    + apply elem_of_cons in Hq as [->|Hq].
      * left. apply elem_of_app. right. apply list_elem_of_here.
      * apply elem_of_cons in Hq as [->|Hq]; [by right|].
        left. apply elem_of_app. right. by apply list_elem_of_further.
Qed.

Lemma erase_spec h l ps xs i :
  Rep h l ps xs -> i < size_ l ->
  exists h' l' ps' xs', erase l i h = inl ((true, l'), h') /\
    Rep h' l' ps' xs' /\ footprint h h' ps /\ grows_from h ps ps'.
Proof.
  intros HR Hi. pose proof HR as (Hs & Hnd & Ht & Hsz).
  unfold erase. rewrite decide_False by lia.
  case_decide as Hi0.
  { pose proof (pop_front_spec h l ps xs HR) as Hpop.
    destruct ps as [|p ps']; [simpl in Hsz; lia|].
    destruct Hpop as (nd & xs' & _ & _ & _ & E & HR' & Hfp & Hgr).
    step E. do 4 eexists. split; [reflexivity|]. eauto. }
  destruct (split_at_index ps (i - 1)) as (ps1 & pv & rest & -> & Hlen); [lia|].
  destruct rest as [|vic ps2].
  { rewrite length_app in Hsz. simpl in Hsz. lia. }
  apply seg_split in Hs as (xs1 & xs2 & m & -> & Hs1 & Hs2).
  apply seg_cons_inv in Hs2 as (ndp & xs2' & -> & Ep & -> & Hs2).
  apply seg_cons_inv in Hs2 as (ndv & xs2 & Hnp & Ev & -> & Hs2).
  apply NoDup_app in Hnd as (Hnd1 & Hdisj & Hnd2).
  apply NoDup_cons in Hnd2 as [Hpv2 Hnd2]. apply NoDup_cons in Hnd2 as [Hvic2 Hnd2].
  assert (Hpv1 : pv ∉ ps1) by (intros Hq; apply (Hdisj pv Hq), list_elem_of_here).
  assert (Hvic1 : vic ∉ ps1).
  { intros Hq. apply (Hdisj vic Hq). apply list_elem_of_further, list_elem_of_here. }
  assert (Hpvic : pv ≠ vic) by (intros ->; apply Hpv2, list_elem_of_here).
  assert (Hpv2' : pv ∉ ps2) by (intros Hq; apply Hpv2; by apply list_elem_of_further).
  rewrite <- Hlen. step (walk_seg _ _ _ _ _ Hs1).
  step (deref_some _ _ _ Ep). rewrite Hnp.
  step (deref_some _ _ _ Ev).
  step (set_next_some _ _ _ (next ndv) Ep).
  assert (Ev1 : <[pv := mkNode (value ndp) (next ndv)]> h !! vic = Some ndv).
  { rewrite lookup_insert_ne by done. exact Ev. }
  step (free_some _ _ _ Ev1).
  set (h' := delete vic (<[pv := mkNode (value ndp) (next ndv)]> h)).
  assert (Hagree : forall q, q ≠ pv -> q ≠ vic -> h' !! q = h !! q).
  { intros q Hq1 Hq2. unfold h'. rewrite lookup_delete_ne by congruence.
    by rewrite lookup_insert_ne by congruence. }
  exists h'. eexists. exists (ps1 ++ pv :: ps2), (xs1 ++ value ndp :: xs2).
  split; [reflexivity|].
  split; [split; [|split; [|split]]|split].
  - simpl. eapply seg_app.
    { eapply seg_frame; [exact Hs1|]. intros q Hq. apply Hagree; congruence. }
    apply (seg_cons _ _ (mkNode (value ndp) (next ndv))).
    { unfold h'. rewrite lookup_delete_ne by done. by rewrite lookup_insert_eq. }
    eapply seg_frame; [exact Hs2|]. intros q Hq. apply Hagree; congruence.
  - apply NoDup_app. split; [done|split].
    + intros q Hq [->|Hq']%elem_of_cons; [by apply Hpv1|].
      apply (Hdisj q Hq). by do 2 apply list_elem_of_further.
    + by apply NoDup_cons.
  - simpl. rewrite Ht, !last_app_cons.
    destruct ps2 as [|y ps2'].
    + by rewrite decide_True.
    + rewrite decide_False; [by rewrite last_cons_cons|].
      rewrite last_cons_cons. intros Hl. symmetry in Hl.
      apply Hvic2, last_Some_elem_of, Hl.
  - simpl. rewrite Hsz, !length_app. simpl. lia.
  - intros q Hq _. apply Hagree.
    + intros ->. apply Hq, elem_of_app. right. apply list_elem_of_here.
    + intros ->. apply Hq, elem_of_app. right. apply list_elem_of_further, list_elem_of_here.
  - intros q Hq. left. apply elem_of_app in Hq as [Hq|Hq]; apply elem_of_app; [by left|].
    right. apply elem_of_cons in Hq as [->|Hq]; [apply list_elem_of_here|].
    by do 2 apply list_elem_of_further.
Qed.

Lemma insert_out_of_range h l i v : size_ l < i -> insert l i v h = inl ((false, l), h).
Proof. intros Hi. unfold insert. by rewrite decide_True. Qed.

Lemma erase_out_of_range h l i : size_ l <= i -> erase l i h = inl ((false, l), h).
Proof. intros Hi. unfold erase. by rewrite decide_True. Qed.

Lemma grows_from_refl h ps : grows_from h ps ps.
Proof. by left. Qed.

Lemma Rep_init h : Rep h init [] [].
Proof. repeat split. constructor. constructor. Qed.

Lemma exec_op_spec o h l ps xs :
  Rep h l ps xs ->
  exists h' l' ps' xs', exec_op o l h = inl (l', h') /\
    Rep h' l' ps' xs' /\ footprint h h' ps /\ grows_from h ps ps'.
Proof.
  intros HR. destruct o as [v|v| |i v|i|]; simpl.
  - destruct (push_front_spec h l ps xs v HR) as (h' & E & HR' & Hfp & Hgr).
    rewrite E. eauto 10.
  - destruct (push_back_spec h l ps xs v HR) as (h' & l' & E & _ & _ & HR' & Hfp & Hgr).
    rewrite E. eauto 10.
  - pose proof (pop_front_spec h l ps xs HR) as Hpop. destruct ps as [|p ps'].
    + destruct Hpop as (_ & _ & E). step E.
      exists h, l, [], xs. split; [done|]. split; [done|].
      split; [apply footprint_refl | apply grows_from_refl].
    + destruct Hpop as (nd & xs' & _ & _ & _ & E & HR' & Hfp & Hgr).
      step E. eauto 10.
  - destruct (decide (i <= size_ l)) as [Hi|Hi].
    + destruct (insert_spec h l ps xs i v HR Hi) as (h' & l' & ps' & xs' & E & ?).
      step E. eauto 10.
    + step (insert_out_of_range h l i v ltac:(lia)).
      exists h, l, ps, xs. split; [done|]. split; [done|].
      split; [apply footprint_refl | apply grows_from_refl].
  - destruct (decide (i < size_ l)) as [Hi|Hi].
    + destruct (erase_spec h l ps xs i HR Hi) as (h' & l' & ps' & xs' & E & ?).
      step E. eauto 10.
    + step (erase_out_of_range h l i ltac:(lia)).
      exists h, l, ps, xs. split; [done|]. split; [done|].
      split; [apply footprint_refl | apply grows_from_refl].
  - destruct (clear_spec h l ps xs HR) as (h' & E & HR' & Hfp & Hgr & _).
    rewrite E. eauto 10.
Qed.

Lemma footprint_trans h h1 h2 ps ps1 :
  footprint h h1 ps -> grows_from h ps ps1 -> footprint h1 h2 ps1 -> footprint h h2 ps.
Proof.
  intros F1 G1 F2 q Hq Hs. rewrite F2, F1; [done|done|done|..].
  - intros Hq1. destruct (G1 q Hq1) as [?|Hn]; [done|]. destruct Hs as [? E]; congruence.
  - by rewrite F1.
Qed.

Lemma grows_from_trans h h1 ps ps1 ps2 :
  footprint h h1 ps -> grows_from h ps ps1 -> grows_from h1 ps1 ps2 -> grows_from h ps ps2.
Proof.
  intros F1 G1 G2 q Hq. destruct (G2 q Hq) as [Hq1|Hn]; [by apply G1|].
  destruct (decide (q ∈ ps)) as [|Hnin]; [by left|]. right.
  destruct (h !! q) as [nd|] eqn:E; [|done].
  rewrite F1 in Hn by (done || by eexists). congruence.
Qed.

Lemma run_spec ops h l ps xs :
  Rep h l ps xs ->
  exists h' l' ps' xs', run ops l h = inl (l', h') /\
    Rep h' l' ps' xs' /\ footprint h h' ps /\ grows_from h ps ps'.
Proof.
  revert h l ps xs. induction ops as [|o ops IH]; intros h l ps xs HR; simpl.
  - exists h, l, ps, xs. split; [done|]. split; [done|].
    split; [apply footprint_refl | apply grows_from_refl].
  - destruct (exec_op_spec o h l ps xs HR) as (h1 & l1 & ps1 & xs1 & E1 & HR1 & F1 & G1).
    step E1.
    destruct (IH h1 l1 ps1 xs1 HR1) as (h2 & l2 & ps2 & xs2 & E2 & HR2 & F2 & G2).
    exists h2, l2, ps2, xs2. split; [done|]. split; [done|]. split.
    + eapply footprint_trans; eauto.
    + eapply grows_from_trans; eauto.
Qed.

Lemma Rep_invariant h l ps xs : Rep h l ps xs -> list_invariant h l.
Proof.
  intros HR. pose proof HR as (Hs & Hnd & Ht & Hsz).
  split; [|split; [|split]].
  - exists ps. split; [done|]. split; [|done]. by apply (seg_reachable h _ ps xs).
  - intros t Et. rewrite Et in Ht. symmetry in Ht. apply last_Some in Ht as [ps0 ->].
    apply seg_snoc_inv in Hs as (xs0 & nd & _ & _ & E & Hn). eauto.
  - by apply (Rep_empty h l ps xs).
  - rewrite Hsz, Ht, last_None. destruct ps; simpl; split; congruence.
Qed.

Lemma Rep_frame h h' l ps xs :
  Rep h l ps xs -> (forall q, q ∈ ps -> h' !! q = h !! q) -> Rep h' l ps xs.
Proof. intros (Hs & ? & ? & ?) Hag. split; [|done]. by eapply seg_frame. Qed.

Lemma back_spec h l ps xs v : Rep h l ps (xs ++ [v]) -> back l h = inl (v, h).
Proof.
  intros (Hs & _ & Ht & _).
  destruct (last ps) as [t|] eqn:El.
  - apply last_Some in El as [ps0 ->].
    apply seg_snoc_inv in Hs as (xs0 & nd & Exs & _ & E & _).
    apply app_inj_tail in Exs as [_ ->].
    unfold back. rewrite Ht. step (deref_some _ _ _ E). reflexivity.
  - apply last_None in El as ->. apply seg_length in Hs.
    rewrite length_app in Hs. simpl in Hs. lia.
Qed.

Lemma copy_loop_spec psR h n xsR this psT ys fuel :
  seg h n psR xsR None -> Rep h this psT ys ->
  (forall q, q ∈ psR -> q ∉ psT) -> length psR <= fuel ->
  exists h' this' psT', copy_loop fuel n this h = inl (this', h') /\
    Rep h' this' psT' (ys ++ xsR) /\ footprint h h' psT /\ grows_from h psT psT'.
Proof.
  revert h n xsR this psT ys fuel.
  induction psR as [|q psR IH]; intros h n xsR this psT ys fuel Hs HR Hdisj Hf.
  - apply seg_nil_inv in Hs as [-> <-]. exists h, this, psT.
    rewrite app_nil_r. split; [by destruct fuel|].
    split; [done|split; [apply footprint_refl | apply grows_from_refl]].
  - apply seg_cons_inv in Hs as (nd & xs' & -> & E & -> & Hs').
    destruct fuel as [|fuel]; simpl in Hf; [lia|]. simpl.
    assert (Hq : q ∉ psT) by (apply Hdisj, list_elem_of_here).
    step (deref_some _ _ _ E).
    destruct (push_back_spec h this psT ys (value nd) HR)
      as (h1 & this1 & E1 & _ & _ & HR1 & F1 & G1).
    step E1.
    assert (E' : h1 !! q = Some nd) by (rewrite F1; [done|done|by eexists]).
    step (deref_some _ _ _ E').
    assert (Hal : forall q', q' ∈ psR -> is_Some (h !! q')) by (eapply seg_alloc; eauto).
    assert (Hdisj' : forall q', q' ∈ psR -> q' ∉ psT).
    { intros q' Hq'. apply Hdisj. by apply list_elem_of_further. }
    destruct (IH h1 (next nd) xs' this1 (psT ++ [fresh (dom h)]) (ys ++ [value nd]) fuel)
      as (h2 & this2 & psT2 & E2 & HR2 & F2 & G2).
    + eapply seg_frame; [exact Hs'|]. intros q' Hq'. apply F1; auto.
    + exact HR1.
    + intros q' Hq' Hin. destruct (G1 q' Hin) as [Hin'|Hn].
      * by apply (Hdisj' q' Hq').
      * destruct (Hal q' Hq') as [? Ex]. congruence.
    + lia.
    + exists h2, this2, psT2. split; [exact E2|].
      rewrite <- app_assoc in HR2. split; [exact HR2|]. split.
      * eapply footprint_trans; eauto.
      * eapply grows_from_trans; eauto.
Qed.

Lemma duplicate_spec h A ps xs :
  Rep h A ps xs ->
  exists h' B psB, duplicate A h = inl (B, h') /\ Rep h' B psB xs /\
    footprint h h' [] /\ grows_from h [] psB.
Proof.
  intros HR. pose proof HR as (Hs & _ & _ & _).
  unfold duplicate. step (eq_refl : get h = inl (h, h)).
  destruct (copy_loop_spec ps h (head_ A) xs init [] [] (S (size h)) Hs (Rep_init h))
    as (h' & B & psB & E & HR' & F & G).
  - by intros q _ ?%elem_of_nil.
  - pose proof (Rep_fuel _ _ _ _ HR). lia.
  - exists h', B, psB. auto.
Qed.

Lemma push_init_spec h v :
  let n := fresh (dom h) in
  (exists h', push_front init v h = inl (mkLL (Some n) (Some n) 1, h') /\
              Rep h' (mkLL (Some n) (Some n) 1) [n] [v]) /\
  (exists h', push_back init v h = inl (mkLL (Some n) (Some n) 1, h') /\
              Rep h' (mkLL (Some n) (Some n) 1) [n] [v]).
Proof.
  intros n. split.
  - destruct (push_front_spec h init [] [] v (Rep_init h)) as (h' & E & HR & _). eauto.
  - destruct (push_back_spec h init [] [] v (Rep_init h))
      as (h' & [hd tl sz] & E & Hh & Htl & HR & _).
    simpl in Hh, Htl. subst hd tl.
    assert (sz = 1) as -> by (destruct HR as (_ & _ & _ & Hsz); exact Hsz). eauto.
Qed.

Lemma push_gives_single_all h : push_gives_single h.
Proof.
  intros v. destruct (push_init_spec h v) as [(h1 & E1 & R1) (h2 & E2 & R2)].
  split; eauto.
Qed.

Lemma Rep_single h p x :
  h !! p = Some (mkNode x None) -> Rep h (mkLL (Some p) (Some p) 1) [p] [x].
Proof.
  intros E. split; [|split; [apply NoDup_singleton | done]].
  apply (seg_cons _ _ (mkNode x None)); [done | constructor].
Qed.

Lemma one_list_rep : Rep one_heap one_list [1%positive] [5%Z].
Proof. apply Rep_single. reflexivity. Qed.

(* ------------------------------------------------------------------ *)
(** ** Claims about LinkedList *)

(** C1: for every finite sequence of public mutating operations
    ([push_front], [push_back], [pop_front], [insert], [erase], [clear]) run
    on a freshly constructed list, in any heap, no operation faults and
    afterwards [size_] equals the number of nodes reachable from [head_],
    the tail node has no successor, and [size_ == 0] iff [head_] is null iff
    [tail_] is null. *)
Theorem public_ops_preserve_invariant (h0 : heap) (ops : list op) :
  exists h l, run ops init h0 = inl (l, h) /\ list_invariant h l.
Proof.
  destruct (run_spec ops h0 init [] [] (Rep_init h0)) as (h & l & ps & xs & E & HR & _).
  exists h, l. split; [done|]. by eapply Rep_invariant.
Qed.

(** C2: on a one-element list, [pop_front], [erase(0)] and [erase] of the
    tail index [size() - 1] succeed and leave [head_] and [tail_] null and
    [size_] 0; a following [push_front] or [push_back] on it succeeds and
    yields a valid one-element list whose head and tail are the same node. *)
Theorem single_element_empty_transition (h : heap) (l : LL) (p : ptr) (x : Z) :
  Rep h l [p] [x] ->
  (exists h1, pop_front l h = inl ((Some x, init), h1) /\ push_gives_single h1) /\
  (exists h1, erase l 0 h = inl ((true, init), h1) /\ push_gives_single h1) /\
  (exists h1, erase l (ll_size l - 1) h = inl ((true, init), h1) /\ push_gives_single h1).
Proof.
  intros HR. pose proof HR as (_ & _ & _ & Hsz). simpl in Hsz.
  pose proof (pop_front_spec h l [p] [x] HR) as (nd & xs' & E & Exs & Hh & Epop & HR' & _).
  injection Exs as Hx <-. destruct HR' as (Hs' & _ & _ & _). simpl in Hs'.
  apply seg_nil_inv in Hs' as [_ Hn].
  rewrite <- Hn, Hsz, <- Hx in Epop. simpl in Epop.
  assert (Eer : erase l 0 h = inl ((true, init), delete p h)).
  { unfold erase. rewrite decide_False by lia. rewrite decide_True by done.
    step Epop. reflexivity. }
  assert (Hsz' : ll_size l - 1 = 0) by (unfold ll_size; lia).
  split; [|split]; (eexists; split; [|apply push_gives_single_all]).
  - exact Epop.
  - exact Eer.
  - rewrite Hsz'. exact Eer.
Qed.

(** C3: for a valid list of size [n], [insert(n, v)] succeeds and appends
    [v] at the tail; [insert(k, v)] for [k > n] fails and leaves heap and
    list unchanged; [erase(k)] for [k >= n] (so every erase on an empty
    list) fails and leaves heap and list unchanged. *)
Theorem insert_erase_index_bounds (h : heap) (l : LL) (ps : list ptr) (xs : list Z) (v : Z) :
  Rep h l ps xs ->
  (exists h' l', insert l (ll_size l) v h = inl ((true, l'), h') /\
     to_vector l' h' = inl (xs ++ [v], h') /\ back l' h' = inl (v, h')) /\
  (forall k, ll_size l < k -> insert l k v h = inl ((false, l), h)) /\
  (forall k, ll_size l <= k -> erase l k h = inl ((false, l), h)).
Proof.
  intros HR. pose proof HR as (Hs & _ & _ & Hsz).
  split; [|split; [intros k Hk; by apply insert_out_of_range
                  | intros k Hk; by apply erase_out_of_range]].
  unfold insert, ll_size. rewrite decide_False by lia.
  case_decide as H0.
  - destruct ps; [|simpl in Hsz; lia]. apply seg_nil_inv in Hs as [-> _].
    destruct (push_front_spec h l [] [] v HR) as (h' & E & HR' & _).
    step E. do 2 eexists. split; [reflexivity|].
    split; [exact (to_vector_spec _ _ _ _ HR') | exact (back_spec _ _ _ [] v HR')].
  - rewrite decide_True by done.
    destruct (push_back_spec h l ps xs v HR) as (h' & l' & E & _ & _ & HR' & _).
    step E. exists h', l'. split; [reflexivity|].
    split; [exact (to_vector_spec _ _ _ _ HR') | exact (back_spec _ _ _ _ v HR')].
Qed.

(** C4: [pop_front] on an empty list returns false (no value) and changes
    nothing; on a non-empty list it returns the value at the head, makes the
    head's successor the new head, decrements [size_] by one, and when the
    list becomes empty also resets [tail_] to null. *)
Theorem pop_front_contract (h : heap) (l : LL) (ps : list ptr) (xs : list Z) :
  Rep h l ps xs ->
  (ll_empty l = true -> pop_front l h = inl ((None, l), h)) /\
  (ll_empty l = false ->
     exists p nd h' l',
       head_ l = Some p /\ h !! p = Some nd /\ front l h = inl (value nd, h) /\
       pop_front l h = inl ((Some (value nd), l'), h') /\
       head_ l' = next nd /\ size_ l' + 1 = size_ l /\
       (ll_empty l' = true -> head_ l' = None /\ tail_ l' = None) /\
       list_invariant h' l').
Proof.
  intros HR. pose proof HR as (_ & _ & _ & Hsz). unfold ll_empty.
  pose proof (pop_front_spec h l ps xs HR) as Hpop.
  destruct ps as [|p ps']; simpl in Hsz.
  - destruct Hpop as (_ & _ & E). split; [done|]. rewrite Hsz. done.
  - destruct Hpop as (nd & xs' & E & _ & Hh & Epop & HR' & _).
    rewrite Hsz. split; [done|]. intros _.
    do 4 eexists. split; [exact Hh|]. split; [exact E|].
    split; [unfold front; rewrite Hh; step (deref_some _ _ _ E); reflexivity|].
    split; [exact Epop|]. split; [done|]. split; [simpl; lia|].
    pose proof (Rep_invariant _ _ _ _ HR') as Hinv. split; [|exact Hinv].
    destruct Hinv as (_ & _ & Hh0 & Ht0). intros Hz%Nat.eqb_eq.
    split; [by apply Hh0 | by apply Ht0].
Qed.

(** C5: [front()] and [back()] of the C++ class read [head_->value] and
    [tail_->value] with no guard, so on an empty list they dereference a
    null pointer; the C siblings [ll_front] and [ll_back] test the pointer
    and return 0 without touching memory. *)
Theorem front_back_empty_null_deref (h : heap) (m : Mem) (out : option ptr) :
  front init h = inr NullDeref /\ back init h = inr NullDeref /\
  ll_front init out m = inl (0%Z, m) /\ ll_back init out m = inl (0%Z, m).
Proof. repeat split. Qed.

(** C7: the copy [B] of a valid list [A] has the same values; the two
    lists share no node; and any sequence of mutating operations on [A]
    leaves the values of [B] unchanged. *)
Theorem duplicate_independent (h : heap) (A : LL) (ps : list ptr) (xs : list Z) :
  Rep h A ps xs ->
  exists h1 B, duplicate A h = inl (B, h1) /\
    to_vector A h1 = inl (xs, h1) /\ to_vector B h1 = inl (xs, h1) /\
    (exists psB, Rep h1 A ps xs /\ Rep h1 B psB xs /\ forall q, q ∈ ps -> q ∉ psB) /\
    (forall ops, exists h2 A', run ops A h1 = inl (A', h2) /\ to_vector B h2 = inl (xs, h2)).
Proof.
  intros HR. pose proof HR as (Hs & _ & _ & _).
  assert (Hal : forall q, q ∈ ps -> is_Some (h !! q)) by (eapply seg_alloc; eauto).
  destruct (duplicate_spec h A ps xs HR) as (h1 & B & psB & E & HRB & F & G).
  assert (HRA : Rep h1 A ps xs).
  { eapply Rep_frame; [exact HR|]. intros q Hq. apply F; [by intros ?%elem_of_nil|auto]. }
  assert (Hdisj : forall q, q ∈ ps -> q ∉ psB).
  { intros q Hq HqB. destruct (G q HqB) as [?%elem_of_nil|Hn]; [done|].
    destruct (Hal q Hq). congruence. }
  exists h1, B. split; [exact E|].
  split; [exact (to_vector_spec _ _ _ _ HRA)|].
  split; [exact (to_vector_spec _ _ _ _ HRB)|].
  split; [eauto|].
  intros ops. destruct (run_spec ops h1 A ps xs HRA) as (h2 & A' & ps' & xs' & Er & _ & F2 & _).
  exists h2, A'. split; [exact Er|]. apply (to_vector_spec _ _ psB).
  pose proof HRB as (HsB & _ & _ & _).
  eapply Rep_frame; [exact HRB|]. intros q Hq. apply F2.
  - intros Hin. by apply (Hdisj q Hin).
  - eapply seg_alloc; eauto.
Qed.

(** C8: the move constructor gives the new object exactly the values the
    source held, and leaves the source an empty, valid list
    ([size() == 0], [empty()], null head and tail) on which every further
    sequence of operations runs and keeps the invariant. *)
Theorem transfer_from_moves (h : heap) (A : LL) (ps : list ptr) (xs : list Z) :
  Rep h A ps xs ->
  to_vector A h = inl (xs, h) /\
  to_vector (fst (transfer_from A)) h = inl (xs, h) /\
  let A' := snd (transfer_from A) in
  ll_size A' = 0 /\ ll_empty A' = true /\ head_ A' = None /\ tail_ A' = None /\
  list_invariant h A' /\
  (forall ops, exists h' l', run ops A' h = inl (l', h') /\ list_invariant h' l').
Proof.
  intros HR. split; [exact (to_vector_spec _ _ _ _ HR)|].
  split; [destruct A; exact (to_vector_spec _ _ _ _ HR)|].
  simpl. split; [done|split; [done|split; [done|split; [done|]]]].
  split; [exact (Rep_invariant _ _ _ _ (Rep_init h))|].
  intros ops.
  destruct (run_spec ops h init [] [] (Rep_init h)) as (h' & l & ps' & xs' & E & HR' & _).
  exists h', l. split; [done|]. by eapply Rep_invariant.
Qed.

(* ------------------------------------------------------------------ *)
(** ** Self move-assignment *)

(** The C++ operator tests [this != &other] first: on one object it does
    nothing. *)
Lemma move_assign_self (p : ptr) (m : Mem) : move_assign p p m = inl (tt, m).
Proof. unfold move_assign. by rewrite decide_True. Qed.

(** C6: moving a list object into itself keeps its values with the C++
    operator (its [this != &other] guard), but [ll_move_assign_from(l, l)]
    first clears [l], frees its nodes, then copies the now empty [*l] into
    itself: the one-element list [5] ends empty. *)
Theorem self_move_assign_c_loses_data :
  result_value (values_at 1%positive) one_node_mem = Some [5%Z] /\
  result_value (move_assign 1%positive 1%positive;;; values_at 1%positive) one_node_mem
    = Some [5%Z] /\
  result_value (ll_move_assign_from 1%positive 1%positive;;; values_at 1%positive) one_node_mem
    = Some [] /\
  result_value (ll_move_assign_from 1%positive 1%positive;;; load_list 1%positive) one_node_mem
    = Some init.
Proof. vm_compute. repeat split. Qed.

(* ------------------------------------------------------------------ *)
(** ** Harness exit status *)

(** C9 (counterexample): with the unknown selector [task4], the C++ harness
    exits 2 but the C harness runs every task group and exits 0. *)
Lemma c_main_unknown_selector_exits_zero :
  cpp_main ["main"; "task4"]%string = ([], 2%Z) /\
  c_main ["main"; "task4"]%string = ([Task1; Task2; Task3], 0%Z).
Proof. split; reflexivity. Qed.

(** C9 (amended): both harnesses run the named group and exit 0 for the
    selectors [task1], [task2], [task3], and run all three groups in order
    and exit 0 when no selector is given; for any other selector the C++
    harness runs nothing and exits 2, while the C harness runs all three
    groups in order and exits 0. *)
Theorem harness_exit_status (prog w : string) (rest : list string) :
  cpp_main [prog] = ([Task1; Task2; Task3], 0%Z) /\ c_main [prog] = ([Task1; Task2; Task3], 0%Z) /\
  cpp_main [] = ([Task1; Task2; Task3], 0%Z) /\ c_main [] = ([Task1; Task2; Task3], 0%Z) /\
  (w = "task1"%string -> cpp_main (prog :: w :: rest) = ([Task1], 0%Z) /\
                         c_main (prog :: w :: rest) = ([Task1], 0%Z)) /\
  (w = "task2"%string -> cpp_main (prog :: w :: rest) = ([Task2], 0%Z) /\
                         c_main (prog :: w :: rest) = ([Task2], 0%Z)) /\
  (w = "task3"%string -> cpp_main (prog :: w :: rest) = ([Task3], 0%Z) /\
                         c_main (prog :: w :: rest) = ([Task3], 0%Z)) /\
  (w <> "task1"%string -> w <> "task2"%string -> w <> "task3"%string ->
     cpp_main (prog :: w :: rest) = ([], 2%Z) /\
     c_main (prog :: w :: rest) = ([Task1; Task2; Task3], 0%Z)).
Proof.
  do 4 (split; [reflexivity|]).
  do 3 (split; [intros ->; split; reflexivity|]).
  intros H1 H2 H3. apply String.eqb_neq in H1, H2, H3.
  unfold cpp_main, c_main. by rewrite H1, H2, H3.
Qed.

(* ------------------------------------------------------------------ *)
(** ** NULL output pointers in the C interface *)

Lemma Rep_head_alloc h l ps xs p : Rep h l ps xs -> head_ l = Some p -> exists nd, h !! p = Some nd.
Proof.
  intros (Hs & _ & _ & _) Hh. rewrite Hh in Hs. inversion Hs; subst. eauto.
Qed.

Lemma Rep_tail_alloc h l ps xs t : Rep h l ps xs -> tail_ l = Some t -> exists nd, h !! t = Some nd.
Proof.
  intros (Hs & _ & Ht & _) Et. rewrite Et in Ht. symmetry in Ht.
  apply last_Some in Ht as [ps0 ->].
  apply seg_snoc_inv in Hs as (_ & nd & _ & _ & E & _). eauto.
Qed.

(** C10: for a valid list and a valid [int] object [o], [ll_pop_front],
    [ll_front] and [ll_back] called with [NULL] return what they return with
    [&o], make the same change to the list, and write no [int]; with [&o]
    they write [o] only when they return 1. *)
Theorem c_null_out_pointer (m : Mem) (l : LL) (ps : list ptr) (xs : list Z) (o : ptr) :
  Rep (nodes m) l ps xs -> is_Some (ints m !! o) ->
  null_out_agrees fst o m (ll_pop_front l None m) (ll_pop_front l (Some o) m) /\
  null_out_agrees (fun r => r) o m (ll_front l None m) (ll_front l (Some o) m) /\
  null_out_agrees (fun r => r) o m (ll_back l None m) (ll_back l (Some o) m).
Proof.
  intros HR [z Ez]. destruct m as [h ints0 lists0]; simpl in *.
  split; [|split].
  - unfold ll_pop_front. destruct (head_ l) as [p|] eqn:Eh.
    + destruct (Rep_head_alloc _ _ _ _ _ HR Eh) as [nd E].
      unfold bind, on_nodes, deref, write_int, free, ret; simpl.
      do 3 (simpl; rewrite ?E, ?Ez).
      split; [done|split; [done|split; [done|split; [done|]]]].
      right. split; [done|]. eauto.
    + simpl. repeat split. by left.
  - unfold ll_front. destruct (head_ l) as [p|] eqn:Eh.
    + destruct (Rep_head_alloc _ _ _ _ _ HR Eh) as [nd E].
      unfold bind, on_nodes, deref, write_int, ret; simpl.
      do 3 (simpl; rewrite ?E, ?Ez).
      split; [done|split; [done|split; [done|split; [done|]]]].
      right. split; [done|]. eauto.
    + simpl. repeat split. by left.
  - unfold ll_back. destruct (tail_ l) as [t|] eqn:Et.
    + destruct (Rep_tail_alloc _ _ _ _ _ HR Et) as [nd E].
      unfold bind, on_nodes, deref, write_int, ret; simpl.
      do 3 (simpl; rewrite ?E, ?Ez).
      split; [done|split; [done|split; [done|split; [done|]]]].
      right. split; [done|]. eauto.
    + simpl. repeat split. by left.
Qed.

(* ------------------------------------------------------------------ *)
(** ** Witnesses: the claims applied to concrete lists *)

Lemma single_element_empty_transition_witness :
  Rep one_heap one_list [1%positive] [5%Z] /\
  exists h1, pop_front one_list one_heap = inl ((Some 5%Z, init), h1) /\ push_gives_single h1.
Proof.
  split; [apply Rep_single; reflexivity|].
  exact (proj1 (single_element_empty_transition one_heap one_list 1%positive 5%Z
                  one_list_rep)).
Defined.

Lemma insert_erase_index_bounds_witness :
  Rep one_heap one_list [1%positive] [5%Z] /\
  (exists h' l', insert one_list (ll_size one_list) 7 one_heap = inl ((true, l'), h') /\
     to_vector l' h' = inl ([5; 7]%Z, h') /\ back l' h' = inl (7%Z, h')) /\
  (forall k, ll_size one_list < k -> insert one_list k 7 one_heap = inl ((false, one_list), one_heap)) /\
  (forall k, ll_size one_list <= k -> erase one_list k one_heap = inl ((false, one_list), one_heap)).
Proof.
  split; [apply Rep_single; reflexivity|].
  exact (insert_erase_index_bounds one_heap one_list [1%positive] [5%Z] 7
           one_list_rep).
Defined.

Lemma pop_front_contract_witness :
  Rep one_heap one_list [1%positive] [5%Z] /\ ll_empty one_list = false /\
  exists p nd h' l',
    head_ one_list = Some p /\ one_heap !! p = Some nd /\
    front one_list one_heap = inl (value nd, one_heap) /\
    pop_front one_list one_heap = inl ((Some (value nd), l'), h') /\
    head_ l' = next nd /\ size_ l' + 1 = size_ one_list /\
    (ll_empty l' = true -> head_ l' = None /\ tail_ l' = None) /\
    list_invariant h' l'.
Proof.
  split; [apply Rep_single; reflexivity|]. split; [reflexivity|].
  exact (proj2 (pop_front_contract one_heap one_list [1%positive] [5%Z]
                  one_list_rep) eq_refl).
Defined.

Lemma duplicate_independent_witness :
  Rep one_heap one_list [1%positive] [5%Z] /\
  exists h1 B, duplicate one_list one_heap = inl (B, h1) /\
    to_vector B h1 = inl ([5%Z], h1) /\
    (forall ops, exists h2 A', run ops one_list h1 = inl (A', h2) /\
                               to_vector B h2 = inl ([5%Z], h2)).
Proof.
  split; [apply Rep_single; reflexivity|].
  destruct (duplicate_independent one_heap one_list [1%positive] [5%Z]
              one_list_rep) as (h1 & B & E & _ & EB & _ & Hops).
  exists h1, B. auto.
Defined.

Lemma transfer_from_moves_witness :
  Rep one_heap one_list [1%positive] [5%Z] /\
  to_vector (fst (transfer_from one_list)) one_heap = inl ([5%Z], one_heap) /\
  ll_empty (snd (transfer_from one_list)) = true.
Proof.
  split; [apply Rep_single; reflexivity|].
  destruct (transfer_from_moves one_heap one_list [1%positive] [5%Z]
              one_list_rep) as (_ & EC & _ & He & _).
  auto.
Defined.

Lemma harness_exit_status_witness :
  "task4"%string <> "task1"%string /\ "task4"%string <> "task2"%string /\
  "task4"%string <> "task3"%string /\
  cpp_main ["main"; "task4"]%string = ([], 2%Z) /\
  c_main ["main"; "task4"]%string = ([Task1; Task2; Task3], 0%Z).
Proof.
  assert (H1 : "task4"%string <> "task1"%string) by discriminate.
  assert (H2 : "task4"%string <> "task2"%string) by discriminate.
  assert (H3 : "task4"%string <> "task3"%string) by discriminate.
  do 3 (split; [assumption|]).
  exact (proj2 (proj2 (proj2 (proj2 (proj2 (proj2 (proj2
           (harness_exit_status "main" "task4" []))))))) H1 H2 H3).
Defined.

Lemma c_null_out_pointer_witness :
  Rep (nodes out_mem) one_list [1%positive] [5%Z] /\ is_Some (ints out_mem !! 7%positive) /\
  null_out_agrees fst 7%positive out_mem
    (ll_pop_front one_list None out_mem) (ll_pop_front one_list (Some 7%positive) out_mem).
Proof.
  assert (HR : Rep (nodes out_mem) one_list [1%positive] [5%Z])
    by (apply Rep_single; reflexivity).
  assert (Ho : is_Some (ints out_mem !! 7%positive)) by (eexists; reflexivity).
  split; [exact HR|]. split; [exact Ho|].
  exact (proj1 (c_null_out_pointer out_mem one_list [1%positive] [5%Z] 7%positive HR Ho)).
Defined.

(* ------------------------------------------------------------------ *)
(** ** Frames, printing and the harness tasks *)

Lemma push_front_heap h l v :
  push_front l v h =
  inl (mkLL (Some (fresh (dom h))) (match tail_ l with None => Some (fresh (dom h)) | Some t => Some t end)
            (S (size_ l)),
       <[fresh (dom h) := mkNode v (head_ l)]> (<[fresh (dom h) := mkNode v None]> h)).
Proof.
  unfold push_front. step (alloc_eq h v).
  step (set_next_some _ _ _ (head_ l) (lookup_insert_eq h (fresh (dom h)) (mkNode v None))).
  reflexivity.
Qed.

Lemma push_front_values h l ps xs v :
  Rep h l ps xs ->
  exists h' l', push_front l v h = inl (l', h') /\
    Rep h' l' (fresh (dom h) :: ps) (v :: xs) /\ untouched h h' [fresh (dom h)].
Proof.
  intros HR. destruct (push_front_spec h l ps xs v HR) as (h' & E & HR' & _).
  exists h'; eexists. split; [exact E|]. split; [exact HR'|].
  rewrite push_front_heap in E. injection E as E. subst h'.
  intros q [Hq _]%not_elem_of_cons. by simplify_map_eq.
Qed.

Lemma untouched_weaken h h' ps ps' :
  untouched h h' ps -> (forall q, q ∈ ps -> q ∈ ps') -> untouched h h' ps'.
Proof. intros U Hsub q Hq. apply U. intros Hin. by apply Hq, Hsub. Qed.

Lemma Rep_tail_in h l ps xs t : Rep h l ps xs -> tail_ l = Some t -> t ∈ ps.
Proof. intros (_ & _ & Ht & _) Et. rewrite Et in Ht. by apply last_Some_elem_of. Qed.

Lemma push_back_values h l ps xs v :
  Rep h l ps xs ->
  exists h' l', push_back l v h = inl (l', h') /\
    Rep h' l' (ps ++ [fresh (dom h)]) (xs ++ [v]) /\ untouched h h' (fresh (dom h) :: ps).
Proof.
  intros HR. destruct (push_back_spec h l ps xs v HR) as (h' & l' & E & _ & _ & HR' & _).
  exists h', l'. split; [done|]. split; [done|].
  assert (Hn : h !! fresh (dom h) = None) by apply fresh_unused.
  unfold push_back in E. rewrite (bind_inl _ _ _ _ _ (alloc_eq h v)) in E. cbv beta in E.
  destruct (tail_ l) as [t|] eqn:Et.
  - destruct (Rep_tail_alloc h l ps xs t HR Et) as [ndt Ent].
    pose proof (Rep_tail_in h l ps xs t HR Et) as Htin.
    assert (Htn : t ≠ fresh (dom h)) by congruence.
    rewrite (bind_inl _ _ _ _ _ (set_next_some _ t ndt (Some (fresh (dom h)))
              (eq_trans (lookup_insert_ne h _ t (mkNode v None) (not_eq_sym Htn)) Ent))) in E.
    injection E as _ <-.
    intros q [Hq Hq']%not_elem_of_cons. assert (q ≠ t) by (intros ->; done).
    by simplify_map_eq.
  - injection E as _ <-. intros q [Hq _]%not_elem_of_cons. by simplify_map_eq.
Qed.

Lemma insert_values h l ps xs i v :
  Rep h l ps xs -> i <= size_ l ->
  exists h' l', insert l i v h = inl ((true, l'), h') /\
    Rep h' l' (take i ps ++ fresh (dom h) :: drop i ps) (take i xs ++ v :: drop i xs) /\
    untouched h h' (fresh (dom h) :: ps).
Proof.
  intros HR Hi. pose proof HR as (Hs & Hnd & Ht & Hsz).
  pose proof (seg_length _ _ _ _ _ Hs) as Hlxs.
  unfold insert. rewrite decide_False by lia.
  case_decide as Hi0.
  { subst i. destruct (push_front_values h l ps xs v HR) as (h' & l' & E & HR' & U).
    step E. exists h', l'. split; [reflexivity|]. split; [exact HR'|].
    eapply untouched_weaken; [exact U|]. intros q ?%list_elem_of_singleton; subst.
    apply list_elem_of_here. }
  case_decide as Hin.
  { destruct (push_back_values h l ps xs v HR) as (h' & l' & E & HR' & U).
    step E. exists h', l'. split; [reflexivity|]. split; [|exact U].
    rewrite !take_ge, !drop_ge by lia. exact HR'. }
  set (n := fresh (dom h)).
  assert (Hn : h !! n = None) by apply fresh_unused.
  assert (Hnin : n ∉ ps) by (eapply seg_fresh_notin; eauto).
  destruct (split_at_index ps (i - 1)) as (ps1 & pv & ps2 & -> & Hlen); [lia|].
  assert (Hps2 : ps2 ≠ []).
  { intros ->. rewrite length_app in Hsz. simpl in Hsz. lia. }
  apply seg_split in Hs as (xs1 & xs2 & m & -> & Hs1 & Hs2).
  pose proof (seg_length _ _ _ _ _ Hs1) as Hlxs1.
  apply seg_cons_inv in Hs2 as (ndp & xs2' & -> & Ep & -> & Hs2).
  assert (Hpn : pv ≠ n).
  { intros ->. apply Hnin, elem_of_app. right. apply list_elem_of_here. }
  apply NoDup_app in Hnd as (Hnd1 & Hdisj & Hnd2).
  apply NoDup_cons in Hnd2 as [Hpv2 Hnd2].
  assert (Hpv1 : pv ∉ ps1) by (intros Hq; apply (Hdisj pv Hq), list_elem_of_here).
  replace (i - 1) with (length ps1) by lia. step (walk_seg _ _ _ _ _ Hs1).
  step (alloc_eq h v). fold n.
  step (deref_some _ pv ndp (eq_trans (lookup_insert_ne h n pv (mkNode v None) (not_eq_sym Hpn)) Ep)).
  step (set_next_some _ n _ (next ndp) (lookup_insert_eq h n (mkNode v None))).
  assert (Ep2 : <[n := mkNode v (next ndp)]> (<[n := mkNode v None]> h) !! pv = Some ndp).
  { rewrite !lookup_insert_ne by congruence. exact Ep. }
  step (set_next_some _ pv _ (Some n) Ep2).
  set (h' := <[pv := mkNode (value ndp) (Some n)]>
               (<[n := mkNode v (next ndp)]> (<[n := mkNode v None]> h))).
  assert (Hagree : forall q, q ≠ n -> q ≠ pv -> h' !! q = h !! q).
  { intros q Hq1 Hq2. unfold h'. by rewrite !lookup_insert_ne by congruence. }
  exists h', (mkLL (head_ l) (tail_ l) (S (size_ l))). split; [reflexivity|].
  assert (Hi' : i = length (ps1 ++ [pv])) by (rewrite length_app; simpl; lia).
  assert (Hix : i = length (xs1 ++ [value ndp])) by (rewrite length_app; simpl; lia).
  replace (ps1 ++ pv :: ps2) with ((ps1 ++ [pv]) ++ ps2) by (by rewrite <- app_assoc).
  replace (xs1 ++ value ndp :: xs2') with ((xs1 ++ [value ndp]) ++ xs2')
    by (by rewrite <- app_assoc).
  rewrite Hi' at 1 2. rewrite take_app_length, drop_app_length.
  rewrite Hix. rewrite take_app_length, drop_app_length.
  rewrite <- !app_assoc. simpl.
  split; [split; [|split; [|split]]|].
  - simpl. eapply seg_app.
    { eapply seg_frame; [exact Hs1|]. intros q Hq. apply Hagree.
      - intros ->. apply Hnin, elem_of_app. by left.
      - intros ->. by apply Hpv1. }
    apply (seg_cons _ _ (mkNode (value ndp) (Some n))).
    { unfold h'. by rewrite lookup_insert_eq. }
    apply (seg_cons _ _ (mkNode v (next ndp))).
    { unfold h'. rewrite lookup_insert_ne by congruence. by rewrite lookup_insert_eq. }
    eapply seg_frame; [exact Hs2|]. intros q Hq. apply Hagree.
    + intros ->. apply Hnin, elem_of_app. right. by apply list_elem_of_further.
    + intros ->. by apply Hpv2.
  - apply NoDup_app. split; [done|split].
    + intros q Hq Hq'. apply elem_of_cons in Hq' as [->|Hq']; [by apply Hpv1|].
      apply elem_of_cons in Hq' as [->|Hq'].
      * apply Hnin, elem_of_app. by left.
      * apply (Hdisj q Hq). by apply list_elem_of_further.
    + apply NoDup_cons. split; [|apply NoDup_cons; split; [|done]].
      * intros [->|Hq]%elem_of_cons; [done|by apply Hpv2].
      * intros Hq. apply Hnin, elem_of_app. right. by apply list_elem_of_further.
  - simpl. rewrite Ht, !last_app_cons, !last_cons_ne by done. done.
  - simpl. rewrite Hsz, !length_app. simpl. lia.
  - intros q [Hq1 Hq2]%not_elem_of_cons. apply Hagree; [done|].
    intros ->. apply Hq2, elem_of_app. right. apply list_elem_of_here.
Qed.

Lemma erase_values h l ps xs i :
  Rep h l ps xs -> i < size_ l ->
  exists h' l' q, erase l i h = inl ((true, l'), h') /\ ps !! i = Some q /\
    Rep h' l' (take i ps ++ drop (S i) ps) (take i xs ++ drop (S i) xs) /\
    h' !! q = None /\ untouched h h' ps.
Proof.
  intros HR Hi. pose proof HR as (Hs & Hnd & Ht & Hsz).
  unfold erase. rewrite decide_False by lia.
  case_decide as Hi0.
  { subst i. pose proof (pop_front_spec h l ps xs HR) as Hpop.
    destruct ps as [|p ps']; [simpl in Hsz; lia|].
    destruct Hpop as (nd & xs' & _ & -> & _ & E & HR' & _).
    step E. exists (delete p h). eexists. exists p. split; [reflexivity|]. split; [done|].
    split; [exact HR'|]. split; [apply lookup_delete_eq|].
    intros q [Hq _]%not_elem_of_cons. by rewrite lookup_delete_ne by congruence. }
  destruct (split_at_index ps (i - 1)) as (ps1 & pv & rest & -> & Hlen); [lia|].
  destruct rest as [|vic ps2].
  { rewrite length_app in Hsz. simpl in Hsz. lia. }
  apply seg_split in Hs as (xs1 & xs2 & m & -> & Hs1 & Hs2).
  pose proof (seg_length _ _ _ _ _ Hs1) as Hlxs1.
  apply seg_cons_inv in Hs2 as (ndp & xs2' & -> & Ep & -> & Hs2).
  apply seg_cons_inv in Hs2 as (ndv & xs2 & Hnp & Ev & -> & Hs2).
  apply NoDup_app in Hnd as (Hnd1 & Hdisj & Hnd2).
  apply NoDup_cons in Hnd2 as [Hpv2 Hnd2]. apply NoDup_cons in Hnd2 as [Hvic2 Hnd2].
  assert (Hpv1 : pv ∉ ps1) by (intros Hq; apply (Hdisj pv Hq), list_elem_of_here).
  assert (Hvic1 : vic ∉ ps1).
  { intros Hq. apply (Hdisj vic Hq). apply list_elem_of_further, list_elem_of_here. }
  assert (Hpvic : pv ≠ vic) by (intros ->; apply Hpv2, list_elem_of_here).
  assert (Hpv2' : pv ∉ ps2) by (intros Hq; apply Hpv2; by apply list_elem_of_further).
  replace (i - 1) with (length ps1) by lia. step (walk_seg _ _ _ _ _ Hs1).
  step (deref_some _ _ _ Ep). rewrite Hnp.
  step (deref_some _ _ _ Ev).
  step (set_next_some _ _ _ (next ndv) Ep).
  assert (Ev1 : <[pv := mkNode (value ndp) (next ndv)]> h !! vic = Some ndv).
  { rewrite lookup_insert_ne by done. exact Ev. }
  step (free_some _ _ _ Ev1).
  set (h' := delete vic (<[pv := mkNode (value ndp) (next ndv)]> h)).
  assert (Hagree : forall q, q ≠ pv -> q ≠ vic -> h' !! q = h !! q).
  { intros q Hq1 Hq2. unfold h'. rewrite lookup_delete_ne by congruence.
    by rewrite lookup_insert_ne by congruence. }
  exists h'. eexists. exists vic. split; [reflexivity|].
  assert (Hi' : i = length (ps1 ++ [pv])) by (rewrite length_app; simpl; lia).
  assert (Hix : i = length (xs1 ++ [value ndp])) by (rewrite length_app; simpl; lia).
  replace (ps1 ++ pv :: vic :: ps2) with ((ps1 ++ [pv]) ++ vic :: ps2) by (by rewrite <- app_assoc).
  replace (xs1 ++ value ndp :: value ndv :: xs2) with ((xs1 ++ [value ndp]) ++ value ndv :: xs2)
    by (by rewrite <- app_assoc).
  split; [by apply list_lookup_middle|].
  replace (S i) with (length (ps1 ++ [pv]) + 1) by lia.
  rewrite Hi' at 1. rewrite take_app_length, drop_app_add.
  replace (length (ps1 ++ [pv]) + 1) with (length (xs1 ++ [value ndp]) + 1) by lia.
  rewrite Hix. rewrite take_app_length, drop_app_add. cbn [drop]. rewrite !drop_0.
  rewrite <- !app_assoc. simpl.
  split; [split; [|split; [|split]]|split].
  - simpl. eapply seg_app.
    { eapply seg_frame; [exact Hs1|]. intros q Hq. apply Hagree; congruence. }
    apply (seg_cons _ _ (mkNode (value ndp) (next ndv))).
    { unfold h'. rewrite lookup_delete_ne by done. by rewrite lookup_insert_eq. }
    eapply seg_frame; [exact Hs2|]. intros q Hq. apply Hagree; congruence.
  - apply NoDup_app. split; [done|split].
    + intros q Hq [->|Hq']%elem_of_cons; [by apply Hpv1|].
      apply (Hdisj q Hq). by do 2 apply list_elem_of_further.
    + by apply NoDup_cons.
  - simpl. rewrite Ht, !last_app_cons.
    destruct ps2 as [|y ps2'].
    + by rewrite decide_True.
    + rewrite decide_False; [by rewrite last_cons_cons|].
      rewrite last_cons_cons. intros Hl. symmetry in Hl.
      apply Hvic2, last_Some_elem_of, Hl.
  - simpl. rewrite Hsz, !length_app. simpl. lia.
  - unfold h'. apply lookup_delete_eq.
  - intros q Hq. apply Hagree.
    + intros ->. apply Hq, elem_of_app. right. apply list_elem_of_here.
    + intros ->. apply Hq, elem_of_app. right. apply list_elem_of_further, list_elem_of_here.
Qed.

Lemma Rep_head_tail_none h l ps xs : Rep h l ps xs -> head_ l = None -> tail_ l = None.
Proof.
  intros (Hs & _ & Ht & _) Hh. rewrite Hh in Hs.
  apply seg_null_start in Hs as (-> & _ & _). done.
Qed.

Lemma Rep_head_tail_some h l ps xs p : Rep h l ps xs -> head_ l = Some p -> exists t, tail_ l = Some t.
Proof.
  intros (Hs & _ & Ht & _) Hh. rewrite Hh in Hs. inversion Hs; subst.
  rewrite Ht. destruct (last (p :: ps0)) eqn:E; [eauto|]. by apply last_None in E.
Qed.

Lemma push_front_pop_front h l ps xs v :
  Rep h l ps xs ->
  exists l' h', push_front l v h = inl (l', h') /\ pop_front l' h' = inl ((Some v, l), h).
Proof.
  intros HR. set (n := fresh (dom h)).
  assert (Hn : h !! n = None) by apply fresh_unused.
  eexists _, _. split; [apply push_front_heap|]. fold n.
  unfold pop_front. cbn [head_].
  step (deref_some _ n _ (lookup_insert_eq (<[n := mkNode v None]> h) n (mkNode v (head_ l)))).
  step (free_some _ n _ (lookup_insert_eq (<[n := mkNode v None]> h) n (mkNode v (head_ l)))).
  unfold ret. cbn [value next size_ tail_]. f_equal. f_equal; [f_equal|].
  - destruct l as [hd tl sz]. cbn [head_ tail_ size_] in *.
    destruct hd as [p|] eqn:Eh.
    + destruct (Rep_head_tail_some _ _ _ _ p HR eq_refl) as [t Et]. simpl in Et. subst tl.
      f_equal. lia.
    + pose proof (Rep_head_tail_none _ _ _ _ HR eq_refl) as Et. simpl in Et. subst tl.
      f_equal. lia.
  - apply map_eq. intros q. destruct (decide (q = n)) as [->|Hq]; by simplify_map_eq.
Qed.

Lemma insert_erase h l ps xs i v :
  Rep h l ps xs -> i <= size_ l ->
  exists l' h', insert l i v h = inl ((true, l'), h') /\ erase l' i h' = inl ((true, l), h).
Proof.
  intros HR Hi. pose proof HR as (Hs & Hnd & Ht & Hsz).
  set (n := fresh (dom h)).
  assert (Hn : h !! n = None) by apply fresh_unused.
  assert (Hnin : n ∉ ps) by (eapply seg_fresh_notin; eauto).
  unfold insert. rewrite decide_False by lia.
  case_decide as Hi0.
  { subst i. destruct (push_front_pop_front h l ps xs v HR) as (l' & h' & E & Epop).
    step E. exists l', h'. split; [reflexivity|].
    rewrite push_front_heap in E. injection E as <- _.
    unfold erase. cbn [size_]. rewrite decide_False by lia. rewrite decide_True by done.
    step Epop. reflexivity. }
  case_decide as Hin.
  - (* push_back, then erase of the last index *)
    subst i. destruct ps as [|p0 ps0] using rev_ind.
    { simpl in Hsz. lia. }
    clear IHps0. rename p0 into t.
    apply seg_snoc_inv in Hs as (xs0 & ndt & -> & Hs0 & Et & Hnx).
    apply NoDup_app in Hnd as (Hnd0 & Hdisj & _).
    rewrite last_snoc in Ht.
    assert (Htn : t ≠ n) by congruence.
    assert (Ht0 : t ∉ ps0) by (intros Hin'; by apply (Hdisj t Hin'), list_elem_of_singleton).
    assert (Hn0 : n ∉ ps0) by (intros Hin'; apply Hnin, elem_of_app; by left).
    set (h1 := <[t := mkNode (value ndt) (Some n)]> (<[n := mkNode v None]> h)).
    assert (Epb : push_back l v h = inl (mkLL (head_ l) (Some n) (S (size_ l)), h1)).
    { unfold push_back. step (alloc_eq h v). fold n. rewrite Ht.
      step (set_next_some _ t _ (Some n)
              (eq_trans (lookup_insert_ne h n t (mkNode v None) (not_eq_sym Htn)) Et)).
      reflexivity. }
    step Epb. eexists _, h1. split; [reflexivity|].
    unfold erase. cbn [size_]. rewrite decide_False by lia.
    rewrite decide_False by (rewrite length_app in Hsz; simpl in Hsz; lia).
    assert (Hs1 : seg h1 (head_ l) ps0 xs0 (Some t)).
    { eapply seg_frame; [exact Hs0|]. intros q Hq. unfold h1.
      rewrite !lookup_insert_ne; [done|..]; intros ->; [by apply Hn0|by apply Ht0]. }
    replace (size_ l - 1) with (length ps0) by (rewrite length_app in Hsz; simpl in Hsz; lia).
    cbn [head_]. step (walk_seg _ _ _ _ _ Hs1).
    assert (E1 : h1 !! t = Some (mkNode (value ndt) (Some n))) by (unfold h1; by simplify_map_eq).
    assert (E2 : h1 !! n = Some (mkNode v None)) by (unfold h1; by simplify_map_eq).
    step (deref_some _ _ _ E1). cbn [next].
    step (deref_some _ _ _ E2). cbn [next].
    step (set_next_some _ _ _ None E1).
    cbn [tail_]. rewrite decide_True by done.
    step (free_some _ n (mkNode v None)
            (eq_trans (lookup_insert_ne h1 t n (mkNode (value ndt) None) Htn) E2)).
    unfold ret. f_equal. f_equal; [f_equal|].
    + destruct l as [hd tl sz]. cbn in *. subst tl. f_equal. lia.
    + unfold h1. apply map_eq. intros q.
      destruct (decide (q = n)) as [->|Hq]; [by simplify_map_eq|].
      destruct (decide (q = t)) as [->|Hq']; [|by simplify_map_eq].
      simplify_map_eq. destruct ndt; simpl in *; by subst.
  - (* a middle position *)
    destruct (split_at_index ps (i - 1)) as (ps1 & pv & ps2 & -> & Hlen); [lia|].
    assert (Hps2 : ps2 ≠ []).
    { intros ->. rewrite length_app in Hsz. simpl in Hsz. lia. }
    apply seg_split in Hs as (xs1 & xs2 & m & -> & Hs1 & Hs2).
    apply seg_cons_inv in Hs2 as (ndp & xs2' & -> & Ep & -> & Hs2).
    assert (Hpn : pv ≠ n).
    { intros ->. apply Hnin, elem_of_app. right. apply list_elem_of_here. }
    apply NoDup_app in Hnd as (Hnd1 & Hdisj & Hnd2).
    apply NoDup_cons in Hnd2 as [Hpv2 Hnd2].
    assert (Hpv1 : pv ∉ ps1) by (intros Hq; apply (Hdisj pv Hq), list_elem_of_here).
    assert (Hn1 : n ∉ ps1) by (intros Hq; apply Hnin, elem_of_app; by left).
    rewrite <- Hlen. step (walk_seg _ _ _ _ _ Hs1).
    step (alloc_eq h v). fold n.
    step (deref_some _ pv ndp (eq_trans (lookup_insert_ne h n pv (mkNode v None) (not_eq_sym Hpn)) Ep)).
    step (set_next_some _ n _ (next ndp) (lookup_insert_eq h n (mkNode v None))).
    assert (Ep2 : <[n := mkNode v (next ndp)]> (<[n := mkNode v None]> h) !! pv = Some ndp).
    { rewrite !lookup_insert_ne by congruence. exact Ep. }
    step (set_next_some _ pv _ (Some n) Ep2).
    set (h1 := <[pv := mkNode (value ndp) (Some n)]>
                 (<[n := mkNode v (next ndp)]> (<[n := mkNode v None]> h))).
    eexists _, h1. split; [reflexivity|].
    unfold erase. cbn [size_]. rewrite decide_False by lia. rewrite decide_False by done.
    assert (Hs1' : seg h1 (head_ l) ps1 xs1 (Some pv)).
    { eapply seg_frame; [exact Hs1|]. intros q Hq. unfold h1.
      rewrite !lookup_insert_ne; [done|..]; intros ->; [by apply Hn1|by apply Hn1|by apply Hpv1]. }
    cbn [head_]. rewrite <- Hlen. step (walk_seg _ _ _ _ _ Hs1').
    assert (E1 : h1 !! pv = Some (mkNode (value ndp) (Some n))) by (unfold h1; by simplify_map_eq).
    assert (E2 : h1 !! n = Some (mkNode v (next ndp))) by (unfold h1; by simplify_map_eq).
    step (deref_some _ _ _ E1). cbn [next].
    step (deref_some _ _ _ E2). cbn [next].
    step (set_next_some _ _ _ (next ndp) E1).
    cbn [tail_]. rewrite decide_False.
    2:{ intros Hnt. apply Hnin. apply (Rep_tail_in h l _ _ n HR). by rewrite Hnt. }
    step (free_some _ n _ (eq_trans (lookup_insert_ne h1 pv n (mkNode (value ndp) (next ndp)) Hpn) E2)).
    unfold ret. f_equal. f_equal; [f_equal|].
    + destruct l as [hd tl sz]. cbn in *. f_equal. lia.
    + unfold h1. apply map_eq. intros q.
      destruct (decide (q = n)) as [->|Hq]; [by simplify_map_eq|].
      destruct (decide (q = pv)) as [->|Hq']; [|by simplify_map_eq].
      simplify_map_eq. by destruct ndp.
Qed.

Lemma exact_frame_refl h ps : exact_frame h h ps ps.
Proof. split; [done|split]; intros q H1 H2; by exfalso. Qed.

Lemma exact_frame_trans h h1 h2 ps ps1 ps2 :
  exact_frame h h1 ps ps1 -> exact_frame h1 h2 ps1 ps2 -> exact_frame h h2 ps ps2.
Proof.
  intros (A1 & B1 & C1) (A2 & B2 & C2). split; [|split].
  - intros q Hq Hq2. destruct (decide (q ∈ ps1)) as [Hq1|Hq1].
    + rewrite B2 by done. by rewrite C1.
    + rewrite A2 by done. by apply A1.
  - intros q Hq Hq2. destruct (decide (q ∈ ps1)) as [Hq1|Hq1].
    + by apply B2.
    + rewrite A2 by done. by apply B1.
  - intros q Hq2 Hq. destruct (decide (q ∈ ps1)) as [Hq1|Hq1].
    + by apply C1.
    + rewrite <- A1 by done. by apply C2.
Qed.

Lemma elem_of_take_insert (ps : list ptr) i n q :
  q ∈ take i ps ++ n :: drop i ps <-> q = n \/ q ∈ ps.
Proof.
  rewrite <- (take_drop i ps) at 3. rewrite !elem_of_app, elem_of_cons. tauto.
Qed.

Lemma elem_of_take_erase (ps : list ptr) i q0 q :
  ps !! i = Some q0 -> (q ∈ ps <-> q = q0 \/ q ∈ take i ps ++ drop (S i) ps).
Proof.
  intros E. rewrite <- (take_drop_middle ps i q0 E) at 1.
  rewrite !elem_of_app, elem_of_cons. tauto.
Qed.

Lemma Rep_length h l ps xs : Rep h l ps xs -> size_ l = length xs.
Proof. intros (Hs & _ & _ & Hsz). rewrite Hsz. symmetry. by eapply seg_length. Qed.

Lemma exec_op_exact o h l ps xs :
  Rep h l ps xs ->
  exists h' l' ps', exec_op o l h = inl (l', h') /\
    Rep h' l' ps' (model_op o xs) /\ exact_frame h h' ps ps'.
Proof.
  intros HR. pose proof (Rep_length _ _ _ _ HR) as Hlen.
  assert (Hn : h !! fresh (dom h) = None) by apply fresh_unused.
  destruct o as [v|v| |i v|i|]; simpl.
  - destruct (push_front_values h l ps xs v HR) as (h' & l' & E & HR' & U).
    rewrite E. eexists _, _, _. split; [reflexivity|]. split; [exact HR'|].
    split; [|split].
    + intros q Hq Hq'. apply U. intros ?%list_elem_of_singleton; subst. apply Hq', list_elem_of_here.
    + intros q Hq Hq'. exfalso. by apply Hq', list_elem_of_further.
    + intros q [->|Hq]%elem_of_cons Hq'; [done|done].
  - destruct (push_back_values h l ps xs v HR) as (h' & l' & E & HR' & U).
    rewrite E. eexists _, _, _. split; [reflexivity|]. split; [exact HR'|].
    split; [|split].
    + intros q Hq Hq'. apply U. intros [->|?]%elem_of_cons; [|done].
      apply Hq', elem_of_app. right. apply list_elem_of_here.
    + intros q Hq Hq'. exfalso. apply Hq', elem_of_app. by left.
    + intros q [Hq|Hq%list_elem_of_singleton]%elem_of_app Hq'; [done|by subst].
  - pose proof (pop_front_spec h l ps xs HR) as Hpop. destruct ps as [|p ps'].
    + destruct Hpop as (-> & _ & E). step E. eexists _, _, _. split; [reflexivity|].
      split; [exact HR|]. apply exact_frame_refl.
    + destruct Hpop as (nd & xs' & _ & -> & _ & E & HR' & _).
      pose proof HR as (_ & Hnd & _ & _). apply NoDup_cons in Hnd as [Hp _].
      step E. eexists _, _, _. split; [reflexivity|]. split; [exact HR'|].
      split; [|split].
      * intros q Hq _. rewrite lookup_delete_ne; [done|]. intros ->. apply Hq, list_elem_of_here.
      * intros q [->|Hq]%elem_of_cons Hq'; [apply lookup_delete_eq|done].
      * intros q Hq Hq'. exfalso. by apply Hq', list_elem_of_further.
  - case_decide as Hi.
    + destruct (insert_values h l ps xs i v HR ltac:(lia)) as (h' & l' & E & HR' & U).
      step E. eexists _, _, _. split; [reflexivity|]. split; [exact HR'|].
      split; [|split].
      * intros q Hq Hq'. apply U. intros [->|?]%elem_of_cons; [|done].
        apply Hq', elem_of_take_insert. by left.
      * intros q Hq Hq'. exfalso. apply Hq', elem_of_take_insert. by right.
      * intros q [->|Hq]%elem_of_take_insert Hq'; done.
    + step (insert_out_of_range h l i v ltac:(lia)). eexists _, _, _. split; [reflexivity|].
      split; [exact HR|]. apply exact_frame_refl.
  - case_decide as Hi.
    + destruct (erase_values h l ps xs i HR ltac:(lia)) as (h' & l' & q0 & E & Eq0 & HR' & Hfree & U).
      step E. eexists _, _, _. split; [reflexivity|]. split; [exact HR'|].
      split; [|split].
      * intros q Hq _. by apply U.
      * intros q Hq Hq'. apply (elem_of_take_erase ps i q0 q Eq0) in Hq as [->|Hq]; [done|done].
      * intros q Hq Hq'. exfalso. apply Hq', (elem_of_take_erase ps i q0 q Eq0). by right.
    + step (erase_out_of_range h l i ltac:(lia)). eexists _, _, _. split; [reflexivity|].
      split; [exact HR|]. apply exact_frame_refl.
  - pose proof HR as (Hs & Hnd & _ & _).
    unfold clear. step (eq_refl : get h = inl (h, h)).
    destruct (clear_loop_spec h (head_ l) ps xs (S (size h)) Hs Hnd) as (h' & Ec & Hgone & Hkeep).
    { pose proof (Rep_fuel _ _ _ _ HR). lia. }
    step Ec. eexists _, _, _. split; [reflexivity|]. split; [apply Rep_init|].
    split; [|split].
    + intros q Hq _. by apply Hkeep.
    + intros q Hq _. by apply Hgone.
    + intros q Hq. by apply elem_of_nil in Hq.
Qed.

Lemma run_exact ops h l ps xs :
  Rep h l ps xs ->
  exists h' l' ps', run ops l h = inl (l', h') /\
    Rep h' l' ps' (model_run ops xs) /\ exact_frame h h' ps ps'.
Proof.
  revert h l ps xs. induction ops as [|o ops IH]; intros h l ps xs HR; simpl.
  - eexists _, _, _. split; [reflexivity|]. split; [exact HR|]. apply exact_frame_refl.
  - destruct (exec_op_exact o h l ps xs HR) as (h1 & l1 & ps1 & E1 & HR1 & F1).
    step E1. destruct (IH h1 l1 ps1 _ HR1) as (h2 & l2 & ps2 & E2 & HR2 & F2).
    exists h2, l2, ps2. split; [exact E2|]. split; [exact HR2|].
    eapply exact_frame_trans; eauto.
Qed.

Lemma load_list_some m p l : lists m !! p = Some l -> load_list p m = inl (l, m).
Proof. intros E. unfold load_list. by rewrite E. Qed.

Lemma store_list_some m p l l0 :
  lists m !! p = Some l0 ->
  store_list p l m = inl (tt, mkMem (nodes m) (ints m) (<[p := l]> (lists m))).
Proof. intros E. unfold store_list. by rewrite E. Qed.

Lemma on_nodes_inl {A} (k : M heap A) m a h' :
  k (nodes m) = inl (a, h') -> on_nodes k m = inl (a, mkMem h' (ints m) (lists m)).
Proof. intros E. unfold on_nodes. by rewrite E. Qed.

Lemma on_nodes_read {A} (k : M heap A) m a :
  k (nodes m) = inl (a, nodes m) -> on_nodes k m = inl (a, m).
Proof. intros E. unfold on_nodes. rewrite E. by destruct m. Qed.

Lemma write_int_some m o z :
  is_Some (ints m !! o) ->
  write_int o z m = inl (tt, mkMem (nodes m) (<[o := z]> (ints m)) (lists m)).
Proof. intros [y E]. unfold write_int. by rewrite E. Qed.

Lemma c_print_loop_spec h p ps xs fuel first :
  seg h p ps xs None -> length ps <= fuel ->
  c_print_loop fuel p first h = inl (cpp_print_values first xs, h).
Proof.
  revert p xs fuel first. induction ps as [|q ps IH]; intros p xs fuel first Hs Hf.
  - apply seg_nil_inv in Hs as [-> <-]. by destruct fuel.
  - apply seg_cons_inv in Hs as (nd & xs' & -> & E & -> & Hs').
    destruct fuel as [|fuel]; simpl in Hf; [lia|]. simpl.
    step (deref_some _ _ _ E). step (IH _ _ fuel false Hs' ltac:(lia)). reflexivity.
Qed.

Lemma Rep_disjoint_frame h h' l ps xs ps0 :
  Rep h l ps xs -> (forall q, q ∈ ps -> q ∉ ps0) -> footprint h h' ps0 -> Rep h' l ps xs.
Proof.
  intros HR Hd F. pose proof HR as (Hs & _ & _ & _).
  eapply Rep_frame; [exact HR|]. intros q Hq. apply F; [by apply Hd|].
  eapply seg_alloc; eauto.
Qed.

Lemma copy_assign_spec m a b la lb psa xsa psb xsb :
  a ≠ b -> lists m !! a = Some la -> lists m !! b = Some lb ->
  Rep (nodes m) la psa xsa -> Rep (nodes m) lb psb xsb -> (forall q, q ∈ psa -> q ∉ psb) ->
  exists h' la' psa', copy_assign a b m = inl (tt, mkMem h' (ints m) (<[a := la']> (lists m))) /\
    Rep h' la' psa' xsb /\ Rep h' lb psb xsb /\ (forall q, q ∈ psa' -> q ∉ psb).
Proof.
  intros Hab Ea Eb HRa HRb Hd.
  destruct (clear_spec (nodes m) la psa xsa HRa) as (h1 & Ec & _ & F1 & _ & _).
  assert (HRb1 : Rep h1 lb psb xsb).
  { eapply Rep_disjoint_frame; [exact HRb| |exact F1]. intros q Hq Hq'. by apply (Hd q Hq'). }
  pose proof HRb1 as (Hsb1 & _ & _ & _).
  destruct (copy_loop_spec psb h1 (head_ lb) xsb init [] [] (S (size h1)) Hsb1 (Rep_init h1))
    as (h2 & la' & psa' & Ecp & HRa' & F2 & G2).
  { by intros q _ ?%elem_of_nil. }
  { pose proof (Rep_fuel _ _ _ _ HRb1). lia. }
  assert (HRb2 : Rep h2 lb psb xsb).
  { eapply Rep_disjoint_frame; [exact HRb1| |exact F2]. by intros q _ ?%elem_of_nil. }
  exists h2, la', psa'. unfold copy_assign. rewrite decide_False by done.
  step (load_list_some _ _ _ Ea).
  step (on_nodes_inl _ _ _ _ Ec).
  step (store_list_some (mkMem h1 (ints m) (lists m)) a init la Ea).
  step (load_list_some (mkMem h1 (ints m) (<[a := init]> (lists m))) b lb
          ltac:(simpl; by rewrite lookup_insert_ne)).
  step (load_list_some (mkMem h1 (ints m) (<[a := init]> (lists m))) a init
          ltac:(simpl; by rewrite lookup_insert_eq)).
  assert (Ecf : copy_from init lb h1 = inl (la', h2)).
  { unfold copy_from. step (eq_refl : get h1 = inl (h1, h1)). exact Ecp. }
  step (on_nodes_inl _ (mkMem h1 (ints m) (<[a := init]> (lists m))) _ _ Ecf).
  rewrite (store_list_some _ a la' init) by (simpl; by rewrite lookup_insert_eq).
  simpl. rewrite insert_insert_eq. split; [reflexivity|].
  split; [exact HRa'|]. split; [exact HRb2|].
  intros q Hq Hqb. destruct (G2 q Hq) as [?%elem_of_nil|Hn]; [done|].
  destruct (seg_alloc _ _ _ _ _ Hsb1 q Hqb). congruence.
Qed.

Lemma clear_exact h l ps xs :
  Rep h l ps xs ->
  exists h', clear l h = inl (init, h') /\
    (forall q, q ∈ ps -> h' !! q = None) /\ (forall q, q ∉ ps -> h' !! q = h !! q).
Proof.
  intros HR. pose proof HR as (Hs & Hnd & _ & _).
  unfold clear. step (eq_refl : get h = inl (h, h)).
  destruct (clear_loop_spec h (head_ l) ps xs (S (size h)) Hs Hnd) as (h' & Ec & Hgone & Hkeep).
  { pose proof (Rep_fuel _ _ _ _ HR). lia. }
  step Ec. exists h'. split; [reflexivity|]. eauto.
Qed.

Lemma move_assign_spec m a b la lb psa xsa psb xsb :
  a ≠ b -> lists m !! a = Some la -> lists m !! b = Some lb ->
  Rep (nodes m) la psa xsa -> Rep (nodes m) lb psb xsb -> (forall q, q ∈ psa -> q ∉ psb) ->
  exists h', let m' := mkMem h' (ints m) (<[b := init]> (<[a := lb]> (lists m))) in
    move_assign a b m = inl (tt, m') /\ ll_move_assign_from a b m = inl (tt, m') /\
    Rep h' lb psb xsb /\
    (forall q, q ∈ psa -> h' !! q = None) /\ (forall q, q ∉ psa -> h' !! q = nodes m !! q).
Proof.
  intros Hab Ea Eb HRa HRb Hd.
  destruct (clear_exact (nodes m) la psa xsa HRa) as (h1 & Ec & Hgone & Hkeep).
  assert (HRb1 : Rep h1 lb psb xsb).
  { eapply Rep_frame; [exact HRb|]. intros q Hq. apply Hkeep. intros Hq'. by apply (Hd q Hq'). }
  exists h1. intros m'.
  assert (Eb1 : lists (mkMem h1 (ints m) (<[a := init]> (lists m))) !! b = Some lb).
  { simpl. by rewrite lookup_insert_ne. }
  assert (Ea1 : lists (mkMem h1 (ints m) (<[a := init]> (lists m))) !! a = Some init).
  { simpl. by rewrite lookup_insert_eq. }
  assert (Eb2 : forall l0, lists (mkMem h1 (ints m) (<[a := l0]> (<[a := init]> (lists m)))) !! b = Some lb).
  { intros l0. simpl. by rewrite !lookup_insert_ne. }
  assert (Hm' : forall l0, mkMem h1 (ints m) (<[b := init]> (<[a := l0]> (<[a := init]> (lists m)))) =
                           mkMem h1 (ints m) (<[b := init]> (<[a := l0]> (lists m)))).
  { intros l0. by rewrite insert_insert_eq. }
  split; [|split; [|split; [exact HRb1|split; [exact Hgone|exact Hkeep]]]].
  - unfold move_assign. rewrite decide_False by done.
    step (load_list_some _ _ _ Ea).
    step (on_nodes_inl _ _ _ _ Ec).
    step (store_list_some (mkMem h1 (ints m) (lists m)) a init la Ea).
    step (load_list_some _ _ _ Eb1).
    step (store_list_some _ a (mkLL (head_ lb) (tail_ lb) (size_ lb)) _ Ea1).
    rewrite (store_list_some _ b init _ (Eb2 _)). simpl. rewrite Hm'.
    by destruct lb.
  - unfold ll_move_assign_from, ll_clear.
    step (load_list_some _ _ _ Ea).
    step (on_nodes_inl _ _ _ _ Ec).
    step (store_list_some (mkMem h1 (ints m) (lists m)) a init la Ea).
    step (load_list_some _ _ _ Eb1).
    step (store_list_some _ a lb _ Ea1).
    rewrite (store_list_some _ b init _ (Eb2 _)). simpl. by rewrite Hm'.
Qed.

Lemma string_app_nil_r (a : string) : (a ++ EmptyString)%string = a.
Proof.
  induction a as [|x a IH]; [reflexivity|].
  change (String x (a ++ EmptyString) = String x a)%string. by rewrite IH.
Qed.

Lemma string_app_assoc (a b c : string) : ((a ++ b) ++ c = a ++ (b ++ c))%string.
Proof.
  induction a as [|x a IH]; [reflexivity|].
  change (String x ((a ++ b) ++ c) = String x (a ++ (b ++ c)))%string. by rewrite IH.
Qed.

Lemma push_front_exact h l ps xs v :
  Rep h l ps xs ->
  exists h' l' ps', push_front l v h = inl (l', h') /\ Rep h' l' ps' (v :: xs) /\
    exact_frame h h' ps ps'.
Proof. intros HR. exact (exec_op_exact (OpPushFront v) h l ps xs HR). Qed.

Lemma push_back_exact h l ps xs v :
  Rep h l ps xs ->
  exists h' l' ps', push_back l v h = inl (l', h') /\ Rep h' l' ps' (xs ++ [v]) /\
    exact_frame h h' ps ps'.
Proof. intros HR. exact (exec_op_exact (OpPushBack v) h l ps xs HR). Qed.

Lemma pop_front_exact h l ps x xs :
  Rep h l ps (x :: xs) ->
  exists h' l' ps', pop_front l h = inl ((Some x, l'), h') /\ Rep h' l' ps' xs /\
    exact_frame h h' ps ps'.
Proof.
  intros HR. pose proof (pop_front_spec h l ps _ HR) as P.
  destruct ps as [|p ps0]; [by destruct P as (? & _)|].
  destruct P as (nd & xs' & _ & Exs & _ & E1 & _). injection Exs as -> ->.
  destruct (exec_op_exact OpPopFront h l _ _ HR) as (h' & l' & ps' & E & R' & F).
  cbn [exec_op model_op] in E, R'. unfold bind in E. rewrite E1 in E.
  injection E as <- <-. eauto 10.
Qed.

Lemma insert_exact h l ps xs i v :
  Rep h l ps xs -> i <= length xs ->
  exists h' l' ps', insert l i v h = inl ((true, l'), h') /\
    Rep h' l' ps' (take i xs ++ v :: drop i xs) /\ exact_frame h h' ps ps'.
Proof.
  intros HR Hi. pose proof (Rep_length _ _ _ _ HR) as Hl.
  destruct (insert_values h l ps xs i v HR ltac:(lia)) as (h1 & l1 & E1 & _).
  destruct (exec_op_exact (OpInsert i v) h l ps xs HR) as (h' & l' & ps' & E & R' & F).
  cbn [exec_op model_op] in E, R'. rewrite decide_True in R' by lia.
  unfold bind in E. rewrite E1 in E. injection E as <- <-. eauto 10.
Qed.

Lemma erase_exact h l ps xs i :
  Rep h l ps xs -> i < length xs ->
  exists h' l' ps', erase l i h = inl ((true, l'), h') /\
    Rep h' l' ps' (take i xs ++ drop (S i) xs) /\ exact_frame h h' ps ps'.
Proof.
  intros HR Hi. pose proof (Rep_length _ _ _ _ HR) as Hl.
  destruct (erase_values h l ps xs i HR ltac:(lia)) as (h1 & l1 & q & E1 & _).
  destruct (exec_op_exact (OpErase i) h l ps xs HR) as (h' & l' & ps' & E & R' & F).
  cbn [exec_op model_op] in E, R'. rewrite decide_True in R' by lia.
  unfold bind in E. rewrite E1 in E. injection E as <- <-. eauto 10.
Qed.

Lemma front_value h l ps x xs : Rep h l ps (x :: xs) -> front l h = inl (x, h).
Proof.
  intros HR. pose proof (pop_front_spec h l ps _ HR) as P.
  destruct ps as [|p ps0]; [by destruct P as (? & _)|].
  destruct P as (nd & xs' & Hp & Exs & Hh & _). injection Exs as -> _.
  unfold front. rewrite Hh. step (deref_some h p nd Hp). reflexivity.
Qed.

Lemma clear_restores h h1 l ps xs :
  Rep h1 l ps xs -> exact_frame h h1 [] ps -> clear l h1 = inl (init, h).
Proof.
  intros HR (A & _ & C). destruct (clear_exact h1 l ps xs HR) as (h2 & E & G & K).
  rewrite E. do 2 f_equal. apply map_eq. intros q. destruct (decide (q ∈ ps)).
  - rewrite G by done. symmetry. apply C; [done|apply not_elem_of_nil].
  - rewrite K by done. apply A; [apply not_elem_of_nil|done].
Qed.

Lemma destroy_restores h h1 l ps xs :
  Rep h1 l ps xs -> exact_frame h h1 [] ps -> destroy l h1 = inl (tt, h).
Proof. intros HR F. unfold destroy. step (clear_restores h h1 l ps xs HR F). reflexivity. Qed.

Lemma cpp_print_list_spec h l ps xs s :
  Rep h l ps xs ->
  cpp_print_list l s h =
    inl (((if String.eqb s EmptyString then EmptyString else s ++ ": ") ++
          "[" ++ cpp_print_values true xs ++ "] size=" ++ show_nat (length xs) ++ nl)%string, h).
Proof.
  intros HR. pose proof (Rep_length _ _ _ _ HR) as Hl.
  unfold cpp_print_list. step (to_vector_spec _ _ _ _ HR). unfold ll_size. by rewrite Hl.
Qed.

Lemma on_heap_inl {A} (k : M heap A) s a h' :
  k (nodes (pmem s)) = inl (a, h') ->
  on_heap k s = inl (a, mkProc (mkMem h' (ints (pmem s)) (lists (pmem s))) (pout s) (palpha s)).
Proof. intros E. unfold on_heap, on_mem, on_nodes. by rewrite E. Qed.

Lemma bind_assoc_at {S A B C} (m : M S A) (f : A -> M S B) (g : B -> M S C) s :
  bind (bind m f) g s = bind m (fun x => bind (f x) g) s.
Proof. unfold bind. by destruct (m s) as [[a s']|e]. Qed.

Ltac go := cbn [bind ret emit print_section section c_emit_list c_bool decl_int decl_list cpp_emit_list_at c_emit_list_at Z.eqb negb set_boolalpha cout_bool on_heap on_mem
                on_nodes cpp_emit_list pmem pout palpha nodes ints lists fst snd
                ll_empty ll_size size_ init Nat.eqb].

Ltac hstep E :=
  rewrite ?bind_assoc_at; erewrite bind_inl by (apply on_heap_inl; exact E); go.

Lemma cpp_task1_output (h : heap) (is : gmap ptr Z) (ls : gmap ptr LL) (o : string) (al : bool) :
  exists m', cpp_task1_basic_ops (mkProc (mkMem h is ls) o al) =
             inl (tt, mkProc m' (o ++ cpp_task1_text)%string true) /\ nodes m' = h.
Proof.
  pose proof (Rep_init h) as R0. pose proof (exact_frame_refl h []) as F0.
  destruct (push_front_exact _ _ _ _ 2 R0) as (h1 & l1 & ps1 & E1 & R1 & F1).
  destruct (push_back_exact _ _ _ _ 5 R1) as (h2 & l2 & ps2 & E2 & R2 & F2).
  destruct (push_front_exact _ _ _ _ 1 R2) as (h3 & l3 & ps3 & E3 & R3 & F3).
  cbn in R3.
  pose proof (front_value _ _ _ _ _ R3) as Ef.
  pose proof (back_spec h3 l3 ps3 [1; 2]%Z 5 R3) as Eb.
  destruct (pop_front_exact _ _ _ _ _ R3) as (h4 & l4 & ps4 & E4 & R4 & F4).
  pose proof (exact_frame_trans _ _ _ _ _ _ (exact_frame_trans _ _ _ _ _ _
     (exact_frame_trans _ _ _ _ _ _ (exact_frame_trans _ _ _ _ _ _ F0 F1) F2) F3) F4) as F.
  pose proof (clear_restores _ _ _ _ _ R4 F) as E5.
  eexists. split; cycle 1. { shelve. }
  unfold cpp_task1_basic_ops, cpp_emit_list. go. hstep E1. hstep E2. hstep E3.
  hstep (cpp_print_list_spec _ _ _ _ "after-push" R3). hstep Ef. hstep Eb.
  hstep E4. hstep (cpp_print_list_spec _ _ _ _ "after-pop" R4). hstep E5.
  erewrite on_heap_inl by exact (destroy_restores h h init [] [] R0 F0); go.
  rewrite !string_app_assoc. reflexivity.
  Unshelve. reflexivity.
Qed.

Lemma push_back_each_exact h l ps xs vs :
  Rep h l ps xs ->
  exists h' l' ps', push_back_each l vs h = inl (l', h') /\ Rep h' l' ps' (xs ++ vs) /\
    exact_frame h h' ps ps'.
Proof.
  revert h l ps xs. induction vs as [|v vs IH]; intros h l ps xs HR; simpl.
  - exists h, l, ps. rewrite app_nil_r. split; [reflexivity|]. split; [exact HR|].
    apply exact_frame_refl.
  - destruct (push_back_exact h l ps xs v HR) as (h1 & l1 & ps1 & E1 & R1 & F1).
    destruct (IH h1 l1 ps1 _ R1) as (h2 & l2 & ps2 & E2 & R2 & F2).
    exists h2, l2, ps2. step E1. split; [exact E2|]. split.
    + by rewrite <- app_assoc in R2.
    + exact (exact_frame_trans _ _ _ _ _ _ F1 F2).
Qed.

Lemma cpp_task2_output (h : heap) (is : gmap ptr Z) (ls : gmap ptr LL) (o : string) (al : bool) :
  exists m', cpp_task2_insert_erase (mkProc (mkMem h is ls) o al) =
             inl (tt, mkProc m' (o ++ cpp_task2_text al)%string al) /\ nodes m' = h.
Proof.
  pose proof (Rep_init h) as R0. pose proof (exact_frame_refl h []) as F0.
  destruct (push_back_each_exact h init [] [] (map Z.of_nat (seq 1 5)) R0)
    as (h1 & l1 & ps1 & E1 & R1 & F1). cbn in R1.
  destruct (insert_exact _ _ _ _ 0 100 R1 ltac:(cbn; lia)) as (h2 & l2 & ps2 & E2 & R2 & F2).
  cbn in R2.
  destruct (insert_exact _ _ _ _ 3 200 R2 ltac:(cbn; lia)) as (h3 & l3 & ps3 & E3 & R3 & F3).
  cbn in R3. pose proof (Rep_length _ _ _ _ R3) as S3. cbn in S3.
  destruct (insert_exact _ _ _ _ 7 300 R3 ltac:(cbn; lia)) as (h4 & l4 & ps4 & E4 & R4 & F4).
  cbn in R4.
  destruct (erase_exact _ _ _ _ 0 R4 ltac:(cbn; lia)) as (h5 & l5 & ps5 & E5 & R5 & F5).
  cbn in R5.
  destruct (erase_exact _ _ _ _ 2 R5 ltac:(cbn; lia)) as (h6 & l6 & ps6 & E6 & R6 & F6).
  cbn in R6. pose proof (Rep_length _ _ _ _ R6) as S6. cbn in S6.
  destruct (erase_exact _ _ _ _ 5 R6 ltac:(cbn; lia)) as (h7 & l7 & ps7 & E7 & R7 & F7).
  cbn in R7.
  pose proof (exact_frame_trans _ _ _ _ _ _ F0 F1) as G.
  pose proof (exact_frame_trans _ _ _ _ _ _ G F2) as G2.
  pose proof (exact_frame_trans _ _ _ _ _ _ G2 F3) as G3.
  pose proof (exact_frame_trans _ _ _ _ _ _ G3 F4) as G4.
  pose proof (exact_frame_trans _ _ _ _ _ _ G4 F5) as G5.
  pose proof (exact_frame_trans _ _ _ _ _ _ G5 F6) as G6.
  pose proof (exact_frame_trans _ _ _ _ _ _ G6 F7) as G7.
  eexists. split; cycle 1. { shelve. }
  unfold cpp_task2_insert_erase, cpp_emit_list. go. hstep E1.
  hstep (cpp_print_list_spec _ _ _ _ "seed" R1). hstep E2. hstep E3.
  unfold ll_size; rewrite S3. hstep E4. hstep (cpp_print_list_spec _ _ _ _ "after-insert" R4).
  hstep E5. hstep E6. unfold ll_size; rewrite S6. hstep E7.
  hstep (cpp_print_list_spec _ _ _ _ "after-erase" R7).
  erewrite on_heap_inl by exact (destroy_restores _ _ _ _ _ R7 G7); go.
  rewrite !string_app_assoc. destruct al; reflexivity.
  Unshelve. reflexivity.
Qed.

Lemma on_mem_inl {A} (k : M Mem A) s a m' :
  k (pmem s) = inl (a, m') -> on_mem k s = inl (a, mkProc m' (pout s) (palpha s)).
Proof. intros E. unfold on_mem. by rewrite E. Qed.

Lemma read_int_some m p v : ints m !! p = Some v -> read_int p m = inl (v, m).
Proof. intros E. unfold read_int. by rewrite E. Qed.

Lemma ll_front_value m l ps x xs o :
  Rep (nodes m) l ps (x :: xs) -> is_Some (ints m !! o) ->
  ll_front l (Some o) m = inl (1%Z, mkMem (nodes m) (<[o := x]> (ints m)) (lists m)).
Proof.
  intros HR Ho. pose proof (front_value _ _ _ _ _ HR) as Ef.
  unfold front in Ef. unfold ll_front. destruct (head_ l) as [p|] eqn:Eh; [|done].
  unfold bind in Ef |- *. destruct (deref (Some p) (nodes m)) as [[nd h0]|] eqn:Ed; [|done].
  unfold on_nodes. rewrite Ed. injection Ef as <- ->.
  rewrite (write_int_some (mkMem (nodes m) (ints m) (lists m)) o (value nd) Ho). reflexivity.
Qed.

Lemma ll_back_value m l ps xs y o :
  Rep (nodes m) l ps (xs ++ [y]) -> is_Some (ints m !! o) ->
  ll_back l (Some o) m = inl (1%Z, mkMem (nodes m) (<[o := y]> (ints m)) (lists m)).
Proof.
  intros HR Ho. pose proof (back_spec _ _ _ _ _ HR) as Eb.
  unfold back in Eb. unfold ll_back. destruct (tail_ l) as [t|] eqn:Et; [|done].
  unfold bind in Eb |- *. destruct (deref (Some t) (nodes m)) as [[nd h0]|] eqn:Ed; [|done].
  unfold on_nodes. rewrite Ed. injection Eb as <- ->.
  rewrite (write_int_some (mkMem (nodes m) (ints m) (lists m)) o (value nd) Ho). reflexivity.
Qed.

Lemma ll_pop_front_exact m l ps x xs o :
  Rep (nodes m) l ps (x :: xs) -> is_Some (ints m !! o) ->
  exists h' l' ps', ll_pop_front l (Some o) m =
      inl ((1%Z, l'), mkMem h' (<[o := x]> (ints m)) (lists m)) /\
    Rep h' l' ps' xs /\ exact_frame (nodes m) h' ps ps'.
Proof.
  intros HR Ho. pose proof (pop_front_spec _ _ _ _ HR) as P.
  destruct ps as [|p ps0]; [by destruct P as (? & _)|].
  destruct P as (nd & xs' & E & Ex & Hh & E1 & _). injection Ex as -> ->.
  destruct (exec_op_exact OpPopFront (nodes m) l _ _ HR) as (h' & l' & ps' & E2 & R' & F).
  cbn [exec_op model_op] in E2, R'. unfold bind in E2. rewrite E1 in E2.
  injection E2 as <- <-. do 3 eexists. split; [|split; [exact R'|exact F]].
  unfold ll_pop_front. rewrite Hh.
  step (on_nodes_inl _ m _ _ (deref_some _ _ _ E)).
  destruct m as [h0 i0 l0]. simpl in *.
  step (write_int_some (mkMem h0 i0 l0) o (value nd) Ho).
  step (on_nodes_inl _ (mkMem h0 (<[o := value nd]> i0) l0) _ _ (free_some _ _ _ E)).
  reflexivity.
Qed.

Lemma c_print_list_spec h l ps xs s :
  Rep h l ps xs ->
  c_print_list l (Some s) h =
    inl (((if String.eqb s EmptyString then EmptyString else s ++ ": ") ++
          "[" ++ cpp_print_values true xs ++ "] size=" ++ show_nat (length xs) ++ nl)%string, h).
Proof.
  intros HR. pose proof HR as (Hs & _ & _ & _). pose proof (Rep_length _ _ _ _ HR) as Hl.
  unfold c_print_list. step (eq_refl : get h = inl (h, h)).
  step (c_print_loop_spec h (head_ l) ps xs (S (size h)) true Hs
          ltac:(pose proof (Rep_fuel _ _ _ _ HR); lia)).
  by rewrite Hl.
Qed.

Ltac some_int :=
  cbn [pmem ints];
  repeat (apply lookup_insert_is_Some'; first [left; reflexivity | right]).

Ltac get_int :=
  cbn [pmem ints];
  repeat first [apply lookup_insert_eq | rewrite lookup_insert_ne by done].

Ltac mstep tac :=
  rewrite ?bind_assoc_at; erewrite bind_inl by (apply on_mem_inl; tac); go.

Lemma c_task1_output (h : heap) (is : gmap ptr Z) (ls : gmap ptr LL) (o : string) (al : bool) :
  exists m', c_task1_basic_ops (mkProc (mkMem h is ls) o al) =
             inl (tt, mkProc m' (o ++ c_task1_text)%string al) /\ nodes m' = h.
Proof.
  pose proof (Rep_init h) as R0. pose proof (exact_frame_refl h []) as F0.
  destruct (push_front_exact _ _ _ _ 2 R0) as (h1 & l1 & ps1 & E1 & R1 & F1).
  destruct (push_back_exact _ _ _ _ 5 R1) as (h2 & l2 & ps2 & E2 & R2 & F2).
  destruct (push_front_exact _ _ _ _ 1 R2) as (h3 & l3 & ps3 & E3 & R3 & F3).
  cbn in R3.
  pose proof (exact_frame_trans _ _ _ _ _ _ (exact_frame_trans _ _ _ _ _ _
     (exact_frame_trans _ _ _ _ _ _ F0 F1) F2) F3) as G3.
  eexists. split; cycle 1. { shelve. }
  unfold c_task1_basic_ops, c_emit_list. go. hstep E1. hstep E2. hstep E3.
  hstep (c_print_list_spec _ _ _ _ "after-push" R3).
  mstep ltac:(eapply (ll_front_value _ _ _ 1%Z [2; 5]%Z); [exact R3|some_int]).
  mstep ltac:(eapply (ll_back_value _ _ _ [1; 2]%Z 5%Z); [exact R3|some_int]).
  mstep ltac:(apply read_int_some; get_int).
  mstep ltac:(apply read_int_some; get_int).
  edestruct (ll_pop_front_exact (mkMem h3 (<[3%positive := 0%Z]> (<[2%positive := 5%Z]>
               (<[1%positive := 1%Z]> (<[2%positive := 0%Z]> (<[1%positive := 0%Z]> is))))) ls)
               l3 ps3 1%Z [2; 5]%Z 3%positive R3 ltac:(some_int))
    as (h4 & l4 & ps4 & E4 & R4 & F4).
  mstep ltac:(exact E4).
  mstep ltac:(apply read_int_some; get_int).
  hstep (c_print_list_spec _ _ _ _ "after-pop" R4).
  hstep (clear_restores _ _ _ _ _ R4 (exact_frame_trans _ _ _ _ _ _ G3 F4)).
  destruct (push_back_exact _ _ _ _ 7 R0) as (h5 & l5 & ps5 & E5 & R5 & F5). cbn in R5.
  hstep E5.
  edestruct (ll_pop_front_exact (mkMem h5 (<[4%positive := 0%Z]> (<[3%positive := 1%Z]>
               (<[3%positive := 0%Z]> (<[2%positive := 5%Z]>
               (<[1%positive := 1%Z]> (<[2%positive := 0%Z]> (<[1%positive := 0%Z]> is))))))) ls)
               l5 ps5 7%Z [] 4%positive R5 ltac:(some_int))
    as (h6 & l6 & ps6 & E6 & R6 & F6).
  mstep ltac:(exact E6).
  mstep ltac:(apply read_int_some; get_int).
  unfold ll_size, ll_empty; rewrite (Rep_length _ _ _ _ R6).
  destruct (push_back_exact _ _ _ _ 99 R6) as (h7 & l7 & ps7 & E7 & R7 & F7). cbn in R7.
  hstep E7. hstep (c_print_list_spec _ _ _ _ "after-pop-last-then-push" R7).
  hstep (clear_restores _ _ _ _ _ R7
           (exact_frame_trans _ _ _ _ _ _ (exact_frame_trans _ _ _ _ _ _ F5 F6) F7)).
  hstep (clear_restores _ _ _ _ _ R0 F0).
  rewrite !string_app_assoc. reflexivity.
  Unshelve. reflexivity.
Qed.

Lemma c_task2_output (h : heap) (is : gmap ptr Z) (ls : gmap ptr LL) (o : string) (al : bool) :
  exists m', c_task2_insert_erase (mkProc (mkMem h is ls) o al) =
             inl (tt, mkProc m' (o ++ c_task2_text)%string al) /\ nodes m' = h.
Proof.
  pose proof (Rep_init h) as R0. pose proof (exact_frame_refl h []) as F0.
  destruct (push_back_each_exact h init [] [] (map Z.of_nat (seq 1 5)) R0)
    as (h1 & l1 & ps1 & E1 & R1 & F1). cbn in R1.
  destruct (insert_exact _ _ _ _ 0 100 R1 ltac:(cbn; lia)) as (h2 & l2 & ps2 & E2 & R2 & F2).
  cbn in R2.
  destruct (insert_exact _ _ _ _ 3 200 R2 ltac:(cbn; lia)) as (h3 & l3 & ps3 & E3 & R3 & F3).
  cbn in R3. pose proof (Rep_length _ _ _ _ R3) as S3. cbn in S3.
  destruct (insert_exact _ _ _ _ 7 300 R3 ltac:(cbn; lia)) as (h4 & l4 & ps4 & E4 & R4 & F4).
  cbn in R4.
  destruct (erase_exact _ _ _ _ 0 R4 ltac:(cbn; lia)) as (h5 & l5 & ps5 & E5 & R5 & F5).
  cbn in R5.
  destruct (erase_exact _ _ _ _ 2 R5 ltac:(cbn; lia)) as (h6 & l6 & ps6 & E6 & R6 & F6).
  cbn in R6. pose proof (Rep_length _ _ _ _ R6) as S6. cbn in S6.
  destruct (erase_exact _ _ _ _ 5 R6 ltac:(cbn; lia)) as (h7 & l7 & ps7 & E7 & R7 & F7).
  cbn in R7. pose proof (Rep_length _ _ _ _ R7) as S7. cbn in S7.
  destruct (erase_exact _ _ _ _ 4 R7 ltac:(cbn; lia)) as (h8 & l8 & ps8 & E8 & R8 & F8).
  cbn in R8.
  destruct (push_back_exact _ _ _ _ 999 R8) as (h9 & l9 & ps9 & E9 & R9 & F9). cbn in R9.
  pose proof (exact_frame_trans _ _ _ _ _ _ F0 F1) as G.
  pose proof (exact_frame_trans _ _ _ _ _ _ G F2) as G2.
  pose proof (exact_frame_trans _ _ _ _ _ _ G2 F3) as G3.
  pose proof (exact_frame_trans _ _ _ _ _ _ G3 F4) as G4.
  pose proof (exact_frame_trans _ _ _ _ _ _ G4 F5) as G5.
  pose proof (exact_frame_trans _ _ _ _ _ _ G5 F6) as G6.
  pose proof (exact_frame_trans _ _ _ _ _ _ G6 F7) as G7.
  pose proof (exact_frame_trans _ _ _ _ _ _ G7 F8) as G8.
  pose proof (exact_frame_trans _ _ _ _ _ _ G8 F9) as G9.
  eexists. split; cycle 1. { shelve. }
  unfold c_task2_insert_erase, c_emit_list. go. hstep E1.
  hstep (c_print_list_spec _ _ _ _ "seed" R1). hstep E2. hstep E3.
  unfold ll_size; rewrite S3. hstep E4. hstep (c_print_list_spec _ _ _ _ "after-insert" R4).
  hstep E5. hstep E6. unfold ll_size; rewrite S6. hstep E7.
  hstep (c_print_list_spec _ _ _ _ "after-erase" R7).
  unfold ll_size; rewrite S7. hstep E8. hstep E9.
  hstep (c_print_list_spec _ _ _ _ "after-erase-tail-then-push" R9).
  hstep (clear_restores _ _ _ _ _ R9 G9).
  rewrite !string_app_assoc. reflexivity.
  Unshelve. reflexivity.
Qed.

Lemma frame_keeps h h' ps ps' q :
  exact_frame h h' ps ps' -> q ∉ ps -> is_Some (h !! q) -> (q ∉ ps') /\ h' !! q = h !! q.
Proof.
  intros (A & _ & C) Hq [v Hv].
  assert (Hq' : q ∉ ps') by (intros Hin; rewrite (C q Hin Hq) in Hv; discriminate).
  split; [done|]. by apply A.
Qed.

Lemma Rep_keep h h' l ps xs psA psA' :
  Rep h l ps xs -> exact_frame h h' psA psA' -> (forall q, q ∈ ps -> q ∉ psA) ->
  Rep h' l ps xs /\ (forall q, q ∈ ps -> q ∉ psA').
Proof.
  intros HR F D. pose proof HR as (Hs & _).
  pose proof (seg_alloc _ _ _ _ _ Hs) as Hal. split.
  - apply (Rep_frame h); [done|]. intros q Hq.
    exact (proj2 (frame_keeps _ _ _ _ q F (D q Hq) (Hal q Hq))).
  - intros q Hq. exact (proj1 (frame_keeps _ _ _ _ q F (D q Hq) (Hal q Hq))).
Qed.

Lemma exact_frame_app_r h h' ps ps' qs :
  exact_frame h h' ps ps' -> exact_frame h h' (ps ++ qs) (ps' ++ qs).
Proof.
  intros (A & B & C). split; [|split]; intros q H1 H2; rewrite elem_of_app in H1, H2.
  - apply A; tauto.
  - apply B; tauto.
  - apply C; tauto.
Qed.

Lemma exact_frame_perm h h' ps ps' qs qs' :
  exact_frame h h' ps ps' -> (forall q, q ∈ ps <-> q ∈ qs) -> (forall q, q ∈ ps' <-> q ∈ qs') ->
  exact_frame h h' qs qs'.
Proof.
  intros (A & B & C) E E'. split; [|split]; intros q H1 H2.
  - apply A; [rewrite E|rewrite E']; done.
  - apply B; [rewrite E|rewrite E']; done.
  - apply C; [rewrite E'|rewrite E]; done.
Qed.

Lemma exact_frame_nil h h' : exact_frame h h' [] [] -> h' = h.
Proof. intros (A & _). apply map_eq. intros q. apply A; apply not_elem_of_nil. Qed.

Lemma copy_loop_exact psR h n xsR this psT ys fuel :
  seg h n psR xsR None -> Rep h this psT ys ->
  (forall q, q ∈ psR -> q ∉ psT) -> length psR <= fuel ->
  exists h' this' psT', copy_loop fuel n this h = inl (this', h') /\
    Rep h' this' psT' (ys ++ xsR) /\ exact_frame h h' psT psT'.
Proof.
  revert h n xsR this psT ys fuel.
  induction psR as [|q psR IH]; intros h n xsR this psT ys fuel Hs HR Hdisj Hf.
  - apply seg_nil_inv in Hs as [-> <-]. exists h, this, psT.
    rewrite app_nil_r. split; [by destruct fuel|]. split; [done|apply exact_frame_refl].
  - pose proof (seg_alloc _ _ _ _ _ Hs) as Hal.
    apply seg_cons_inv in Hs as (nd & xs' & -> & E & -> & Hs').
    destruct fuel as [|fuel]; simpl in Hf; [lia|]. simpl.
    step (deref_some _ _ _ E).
    destruct (push_back_exact h this psT ys (value nd) HR) as (h1 & this1 & ps1 & E1 & HR1 & F1).
    step E1.
    assert (Hk : forall q', q' ∈ q :: psR -> (q' ∉ ps1) /\ h1 !! q' = h !! q').
    { intros q' Hq'. apply (frame_keeps _ _ _ _ q' F1); [by apply Hdisj|by apply Hal]. }
    assert (E' : h1 !! q = Some nd) by (rewrite (proj2 (Hk q (list_elem_of_here _ _))); done).
    step (deref_some _ _ _ E').
    destruct (IH h1 (next nd) xs' this1 ps1 (ys ++ [value nd]) fuel)
      as (h2 & this2 & ps2 & E2 & HR2 & F2).
    + eapply seg_frame; [exact Hs'|]. intros q' Hq'.
      exact (proj2 (Hk q' (list_elem_of_further _ _ _ Hq'))).
    + exact HR1.
    + intros q' Hq'. exact (proj1 (Hk q' (list_elem_of_further _ _ _ Hq'))).
    + lia.
    + exists h2, this2, ps2. split; [exact E2|].
      rewrite <- app_assoc in HR2. split; [exact HR2|].
      exact (exact_frame_trans _ _ _ _ _ _ F1 F2).
Qed.

Lemma duplicate_exact h A ps xs :
  Rep h A ps xs ->
  exists h' B psB, duplicate A h = inl (B, h') /\ Rep h' B psB xs /\ exact_frame h h' [] psB.
Proof.
  intros HR. pose proof HR as (Hs & _ & _ & _).
  unfold duplicate. step (eq_refl : get h = inl (h, h)).
  destruct (copy_loop_exact ps h (head_ A) xs init [] [] (S (size h)) Hs (Rep_init h))
    as (h' & B & psB & E & HR' & F).
  - by intros q _ ?%elem_of_nil.
  - pose proof (Rep_fuel _ _ _ _ HR). lia.
  - exists h', B, psB. auto.
Qed.

Lemma clear_frame h l ps xs :
  Rep h l ps xs -> exists h', clear l h = inl (init, h') /\ exact_frame h h' ps [].
Proof.
  intros HR. destruct (clear_exact h l ps xs HR) as (h' & E & G & K).
  exists h'. split; [exact E|]. split; [|split].
  - intros q Hq _. by apply K.
  - intros q Hq _. by apply G.
  - intros q Hq. by apply elem_of_nil in Hq.
Qed.

Lemma destroy_frame h l ps xs :
  Rep h l ps xs -> exists h', destroy l h = inl (tt, h') /\ exact_frame h h' ps [].
Proof.
  intros HR. destruct (clear_frame h l ps xs HR) as (h' & E & F).
  exists h'. split; [|exact F]. unfold destroy. step E. reflexivity.
Qed.

Lemma update_at_inl p f s l l' h' :
  lists (pmem s) !! p = Some l -> f l (nodes (pmem s)) = inl (l', h') ->
  update_at p f s =
    inl (tt, mkProc (mkMem h' (ints (pmem s)) (<[p := l']> (lists (pmem s)))) (pout s) (palpha s)).
Proof.
  intros El Ef. destruct s as [[h0 i0 l0] o0 a0]; cbn in *.
  unfold update_at, call_at, on_mem, bind, load_list, on_nodes, store_list, ret.
  cbn [pmem pout palpha lists nodes ints]. rewrite El. cbn [lists nodes ints]. rewrite Ef. cbn [lists nodes ints fst snd]. by rewrite El.
Qed.

Lemma call_at_inl {A} p (f : LL -> M heap (A * LL)) s l a l' h' :
  lists (pmem s) !! p = Some l -> f l (nodes (pmem s)) = inl ((a, l'), h') ->
  call_at p f s =
    inl (a, mkProc (mkMem h' (ints (pmem s)) (<[p := l']> (lists (pmem s)))) (pout s) (palpha s)).
Proof.
  intros El Ef. destruct s as [[h0 i0 l0] o0 a0]; cbn in *.
  unfold call_at, on_mem, bind, load_list, on_nodes, store_list, ret.
  cbn [pmem pout palpha lists nodes ints]. rewrite El. cbn [lists nodes ints]. rewrite Ef. cbn [lists nodes ints fst snd]. by rewrite El.
Qed.

Ltac get_lookup :=
  cbn [pmem ints lists];
  repeat first [apply lookup_insert_eq | rewrite lookup_insert_ne by done].

Ltac pstep tac := rewrite ?bind_assoc_at; erewrite bind_inl by tac; go.

Ltac app_in := intros ?; rewrite ?elem_of_app, ?elem_of_nil; tauto.

Lemma cpp_task3_output (h : heap) (is : gmap ptr Z) (ls : gmap ptr LL) (o : string) (al : bool) :
  exists m', cpp_task3_copy_move (mkProc (mkMem h is ls) o al) =
             inl (tt, mkProc m' (o ++ cpp_task3_text)%string al) /\ nodes m' = h.
Proof.
  pose proof (Rep_init h) as R0. pose proof (exact_frame_refl h []) as F0.
  destruct (push_back_each_exact h init [] [] (map (fun i => Z.of_nat i * 10)%Z (seq 0 4)) R0)
    as (h1 & l1 & psA1 & E1 & R1 & T1). cbn in R1.
  destruct (duplicate_exact _ _ _ _ R1) as (h2 & lB & psB & E2 & RB & F2).
  destruct (Rep_keep _ _ _ _ _ _ _ R1 F2 (fun q _ => not_elem_of_nil q)) as (R1b & D1).
  assert (T2 : exact_frame h h2 [] (psA1 ++ psB)).
  { apply (exact_frame_trans _ _ _ _ _ _ T1).
    apply (exact_frame_perm _ _ _ _ _ _ (exact_frame_app_r _ _ _ _ psA1 F2)); app_in. }
  destruct (push_back_exact _ _ _ _ 40 R1b) as (h3 & l3 & psA3 & E3 & R3 & F3). cbn in R3.
  destruct (Rep_keep _ _ _ _ _ _ _ RB F3 (fun q Hq Hin => D1 q Hin Hq)) as (RB3 & DB3).
  pose proof (exact_frame_trans _ _ _ _ _ _ T2 (exact_frame_app_r _ _ _ _ psB F3)) as T3.
  destruct (erase_exact _ _ _ _ 1 R3 ltac:(cbn; lia)) as (h4 & l4 & psA4 & E4 & R4 & F4).
  cbn in R4.
  destruct (Rep_keep _ _ _ _ _ _ _ RB3 F4 DB3) as (RB4 & DB4).
  pose proof (exact_frame_trans _ _ _ _ _ _ T3 (exact_frame_app_r _ _ _ _ psB F4)) as T4.
  destruct (push_back_exact _ _ _ _ 7 (Rep_init h4)) as (h5 & lD & psD & E5 & RD & F5). cbn in RD.
  destruct (Rep_keep _ _ _ _ _ _ _ R4 F5 (fun q _ => not_elem_of_nil q)) as (R45 & D4D).
  destruct (Rep_keep _ _ _ _ _ _ _ RB4 F5 (fun q _ => not_elem_of_nil q)) as (RB5 & DBD).
  pose proof (exact_frame_trans _ _ _ _ _ _ T4 (exact_frame_app_r _ _ _ _ (psA4 ++ psB) F5)) as T5.
  eexists. split; cycle 1. { shelve. }
  unfold cpp_task3_copy_move, cpp_emit_list_at, cpp_emit_list. go.
  pstep ltac:(eapply update_at_inl; [get_lookup|exact E1]).
  pstep ltac:(apply on_mem_inl, load_list_some; get_lookup).
  hstep (cpp_print_list_spec _ _ _ _ "a" R1).
  pstep ltac:(apply on_mem_inl, load_list_some; get_lookup).
  hstep E2.
  pstep ltac:(apply on_mem_inl, load_list_some; get_lookup).
  hstep (cpp_print_list_spec _ _ _ _ "b" RB).
  pstep ltac:(eapply update_at_inl; [get_lookup|exact E3]).
  pstep ltac:(eapply call_at_inl; [get_lookup|exact E4]).
  pstep ltac:(apply on_mem_inl, load_list_some; get_lookup).
  hstep (cpp_print_list_spec _ _ _ _ "a-after" R4).
  pstep ltac:(apply on_mem_inl, load_list_some; get_lookup).
  hstep (cpp_print_list_spec _ _ _ _ "b-unchanged" RB4).
  pstep ltac:(apply on_mem_inl, load_list_some; get_lookup).
  pstep ltac:(apply on_mem_inl; eapply store_list_some; get_lookup).
  pstep ltac:(apply on_mem_inl, load_list_some; get_lookup).
  hstep (cpp_print_list_spec _ _ _ _ "c" R4).
  pstep ltac:(apply on_mem_inl, load_list_some; get_lookup).
  hstep (cpp_print_list_spec _ _ _ _ "a-moved-from" (Rep_init h4)).
  pstep ltac:(eapply update_at_inl; [get_lookup|exact E5]).
  match goal with
  | |- context [bind (on_mem (move_assign 4%positive 3%positive)) _ (mkProc ?m _ _)] =>
      destruct (move_assign_spec m 4%positive 3%positive lD (fst (transfer_from l4)) psD [7%Z] psA4 [0; 20; 30; 40]%Z
                  ltac:(done) ltac:(get_lookup) ltac:(get_lookup) RD R45
                  (fun q Hq Hin => D4D q Hin Hq)) as (h6 & Emv & _ & R46 & G6 & K6)
  end.
  pstep ltac:(apply on_mem_inl; exact Emv).
  assert (F6 : exact_frame h5 h6 psD []).
  { split; [|split].
    - intros q Hq _. by apply K6.
    - intros q Hq _. by apply G6.
    - intros q Hq. by apply elem_of_nil in Hq. }
  destruct (Rep_keep _ _ _ _ _ _ _ RB5 F6 DBD) as (RB6 & _).
  pose proof (exact_frame_trans _ _ _ _ _ _ T5 (exact_frame_app_r _ _ _ _ (psA4 ++ psB) F6)) as T6.
  cbn in T6.
  pstep ltac:(apply on_mem_inl, load_list_some; get_lookup).
  hstep (cpp_print_list_spec _ _ _ _ "d" R46).
  pstep ltac:(apply on_mem_inl, load_list_some; get_lookup).
  hstep (cpp_print_list_spec _ _ _ _ "c-moved-from" (Rep_init h6)).
  destruct (destroy_frame _ _ _ _ R46) as (h7 & E7 & F7).
  destruct (Rep_keep _ _ _ _ _ _ _ RB6 F7 DB4) as (RB7 & _).
  pose proof (exact_frame_trans _ _ _ _ _ _ T6 (exact_frame_app_r _ _ _ _ psB F7)) as T7.
  cbn in T7.
  pstep ltac:(apply on_mem_inl, load_list_some; get_lookup).
  hstep E7.
  pstep ltac:(apply on_mem_inl, load_list_some; get_lookup).
  hstep (destroy_restores h7 h7 _ [] [] (Rep_init h7) (exact_frame_refl h7 [])).
  pstep ltac:(apply on_mem_inl, load_list_some; get_lookup).
  hstep (destroy_restores _ _ _ _ _ RB7 T7).
  pstep ltac:(apply on_mem_inl, load_list_some; get_lookup).
  erewrite on_heap_inl by exact (destroy_restores h h _ [] [] R0 F0); go.
  rewrite !string_app_assoc. reflexivity.
  Unshelve. reflexivity.
Qed.

Lemma ll_move_from_some m p l :
  lists m !! p = Some l ->
  ll_move_from p m = inl (l, mkMem (nodes m) (ints m) (<[p := init]> (lists m))).
Proof.
  intros E. unfold ll_move_from, bind, ret.
  rewrite (load_list_some _ _ _ E), (store_list_some _ _ _ _ E). reflexivity.
Qed.

Lemma c_task3_output (h : heap) (is : gmap ptr Z) (ls : gmap ptr LL) (o : string) (al : bool) :
  exists m', c_task3_copy_move (mkProc (mkMem h is ls) o al) =
             inl (tt, mkProc m' (o ++ c_task3_text)%string al) /\ nodes m' = h.
Proof.
  pose proof (Rep_init h) as R0. pose proof (exact_frame_refl h []) as F0.
  destruct (push_back_each_exact h init [] [] (map (fun i => Z.of_nat i * 10)%Z (seq 0 4)) R0)
    as (h1 & l1 & psA1 & E1 & R1 & T1). cbn in R1.
  destruct (duplicate_exact _ _ _ _ R1) as (h2 & lB & psB & E2 & RB & F2).
  destruct (Rep_keep _ _ _ _ _ _ _ R1 F2 (fun q _ => not_elem_of_nil q)) as (R1b & D1).
  assert (T2 : exact_frame h h2 [] (psA1 ++ psB)).
  { apply (exact_frame_trans _ _ _ _ _ _ T1).
    apply (exact_frame_perm _ _ _ _ _ _ (exact_frame_app_r _ _ _ _ psA1 F2)); app_in. }
  destruct (push_back_exact _ _ _ _ 40 R1b) as (h3 & l3 & psA3 & E3 & R3 & F3). cbn in R3.
  destruct (Rep_keep _ _ _ _ _ _ _ RB F3 (fun q Hq Hin => D1 q Hin Hq)) as (RB3 & DB3).
  pose proof (exact_frame_trans _ _ _ _ _ _ T2 (exact_frame_app_r _ _ _ _ psB F3)) as T3.
  destruct (erase_exact _ _ _ _ 1 R3 ltac:(cbn; lia)) as (h4 & l4 & psA4 & E4 & R4 & F4).
  cbn in R4.
  destruct (Rep_keep _ _ _ _ _ _ _ RB3 F4 DB3) as (RB4 & DB4).
  pose proof (exact_frame_trans _ _ _ _ _ _ T3 (exact_frame_app_r _ _ _ _ psB F4)) as T4.
  destruct (clear_frame _ _ _ _ RB4) as (h6 & E6 & F6).
  destruct (Rep_keep _ _ _ _ _ _ _ R4 F6 (fun q Hq Hin => DB4 q Hin Hq)) as (R46 & _).
  assert (T6 : exact_frame h h6 [] psA4).
  { apply (exact_frame_trans _ _ _ _ _ _ T4).
    apply (exact_frame_perm _ _ _ _ _ _ (exact_frame_app_r _ _ _ _ psA4 F6)); app_in. }
  eexists. split; cycle 1. { shelve. }
  unfold c_task3_copy_move, c_emit_list_at, c_emit_list. go.
  pstep ltac:(eapply update_at_inl; [get_lookup|exact E1]).
  pstep ltac:(apply on_mem_inl, load_list_some; get_lookup).
  hstep (c_print_list_spec _ _ _ _ "a" R1).
  pstep ltac:(apply on_mem_inl, load_list_some; get_lookup).
  hstep E2.
  pstep ltac:(apply on_mem_inl, load_list_some; get_lookup).
  hstep (c_print_list_spec _ _ _ _ "b" RB).
  pstep ltac:(eapply update_at_inl; [get_lookup|exact E3]).
  pstep ltac:(eapply call_at_inl; [get_lookup|exact E4]).
  pstep ltac:(apply on_mem_inl, load_list_some; get_lookup).
  hstep (c_print_list_spec _ _ _ _ "a-after" R4).
  pstep ltac:(apply on_mem_inl, load_list_some; get_lookup).
  hstep (c_print_list_spec _ _ _ _ "b-unchanged" RB4).
  pstep ltac:(apply on_mem_inl, ll_move_from_some; get_lookup).
  pstep ltac:(apply on_mem_inl, load_list_some; get_lookup).
  hstep (c_print_list_spec _ _ _ _ "c" R4).
  pstep ltac:(apply on_mem_inl, load_list_some; get_lookup).
  hstep (c_print_list_spec _ _ _ _ "a-moved-from" (Rep_init h4)).
  match goal with
  | |- context [bind (on_mem (ll_move_assign_from 4%positive 3%positive)) _ (mkProc ?m _ _)] =>
      destruct (move_assign_spec m 4%positive 3%positive init l4 [] [] psA4 [0; 20; 30; 40]%Z
                  ltac:(done) ltac:(get_lookup) ltac:(get_lookup) (Rep_init _) R4
                  (fun q Hq => False_rect _ (not_elem_of_nil q Hq))) as (h5 & _ & Emv & _ & _ & K5)
  end.
  assert (H5 : h5 = h4).
  { apply map_eq. intros q. apply K5. apply not_elem_of_nil. }
  subst h5.
  pstep ltac:(apply on_mem_inl; exact Emv).
  pstep ltac:(apply on_mem_inl, load_list_some; get_lookup).
  hstep (c_print_list_spec _ _ _ _ "d" R4).
  pstep ltac:(apply on_mem_inl, load_list_some; get_lookup).
  hstep (c_print_list_spec _ _ _ _ "c-moved-from" (Rep_init h4)).
  pstep ltac:(eapply update_at_inl; [get_lookup|exact (clear_restores h4 h4 _ [] [] (Rep_init h4) (exact_frame_refl h4 []))]).
  pstep ltac:(eapply update_at_inl; [get_lookup|exact E6]).
  pstep ltac:(eapply update_at_inl; [get_lookup|exact (clear_restores h6 h6 _ [] [] (Rep_init h6) (exact_frame_refl h6 []))]).
  erewrite update_at_inl by (try get_lookup; exact (clear_restores _ _ _ _ _ R46 T6)); go.
  rewrite !string_app_assoc. reflexivity.
  Unshelve. reflexivity.
Qed.

Lemma c_task_body_output t h is ls o al :
  exists m', c_task_body t (mkProc (mkMem h is ls) o al) =
             inl (tt, mkProc m' (o ++ c_task_text t)%string al) /\ nodes m' = h.
Proof.
  destruct t; [apply c_task1_output|apply c_task2_output|apply c_task3_output].
Qed.

Lemma c_run_tasks_output ts h is ls o al :
  exists m', run_tasks c_task_body ts (mkProc (mkMem h is ls) o al) =
             inl (tt, mkProc m' (o ++ foldr String.append EmptyString (map c_task_text ts))%string al)
             /\ nodes m' = h.
Proof.
  revert is ls o. induction ts as [|t ts IH]; intros is ls o; cbn [run_tasks].
  - exists (mkMem h is ls). split; [|reflexivity]. cbn. by rewrite string_app_nil_r.
  - destruct (c_task_body_output t h is ls o al) as ([h1 is1 ls1] & E1 & N1). cbn in N1. subst h1.
    destruct (IH is1 ls1 (o ++ c_task_text t)%string) as (m2 & E2 & N2).
    exists m2. split; [|exact N2]. rewrite (bind_inl _ _ _ _ _ E1), E2. cbn [map foldr].
    by rewrite string_app_assoc.
Qed.

Lemma cpp_program_one argv t code s s1 :
  cpp_main argv = ([t], code) -> cpp_task_body t s = inl (tt, s1) ->
  cpp_program argv s = inl (code, s1).
Proof.
  intros Hm E. unfold cpp_program. rewrite Hm. cbn [fst snd run_tasks].
  rewrite bind_assoc_at, (bind_inl _ _ _ _ _ E). reflexivity.
Qed.

(* ------------------------------------------------------------------ *)
(** ** Further properties of the code *)

(** X1: on a well-formed list holding [xs], [push_front v] and [push_back v] succeed; the new list holds [v :: xs] (resp. [xs ++ [v]]), [front] (resp. [back]) returns [v], the size grows by one, the invariant holds, and only the fresh node (resp. the fresh node and the old nodes) may differ in the heap. *)
Theorem push_front_back_values (h : heap) (l : LL) (ps : list ptr) (xs : list Z) (v : Z) :
  Rep h l ps xs ->
  (exists h' l', push_front l v h = inl (l', h') /\ to_vector l' h' = inl (v :: xs, h') /\
     front l' h' = inl (v, h') /\ ll_size l' = S (ll_size l) /\ list_invariant h' l' /\
     untouched h h' [fresh (dom h)]) /\
  (exists h' l', push_back l v h = inl (l', h') /\ to_vector l' h' = inl (xs ++ [v], h') /\
     back l' h' = inl (v, h') /\ ll_size l' = S (ll_size l) /\ list_invariant h' l' /\
     untouched h h' (fresh (dom h) :: ps)).
Proof.
  intros HR. pose proof (Rep_length _ _ _ _ HR) as Hl. split.
  - destruct (push_front_values h l ps xs v HR) as (h' & l' & E & HR' & U).
    exists h', l'. split; [exact E|]. split; [exact (to_vector_spec _ _ _ _ HR')|].
    split.
    { pose proof HR' as (Hs' & _ & _ & _). inversion Hs' as [|q nd ps0 xs0 r Eq Hs0 Hh Hps Hxs]; subst.
      unfold front. rewrite <- Hh. step (deref_some _ _ _ Eq). reflexivity. }
    split; [|split; [exact (Rep_invariant _ _ _ _ HR')|exact U]].
    pose proof (Rep_length _ _ _ _ HR') as Hl'. unfold ll_size. simpl in Hl'. lia.
  - destruct (push_back_values h l ps xs v HR) as (h' & l' & E & HR' & U).
    exists h', l'. split; [exact E|]. split; [exact (to_vector_spec _ _ _ _ HR')|].
    split; [exact (back_spec _ _ _ _ v HR')|].
    split; [|split; [exact (Rep_invariant _ _ _ _ HR')|exact U]].
    pose proof (Rep_length _ _ _ _ HR') as Hl'. unfold ll_size. rewrite length_app in Hl'. simpl in Hl'. lia.
Qed.

(** X2: for an index [i <= size], [insert i v] returns true and the list then holds [take i xs ++ v :: drop i xs]; the size grows by one, the invariant holds, and nodes other than the fresh one and the list's own are unchanged. *)
Theorem insert_within_bounds (h : heap) (l : LL) (ps : list ptr) (xs : list Z) (i : nat) (v : Z) :
  Rep h l ps xs -> i <= ll_size l ->
  exists h' l', insert l i v h = inl ((true, l'), h') /\
    to_vector l' h' = inl (take i xs ++ v :: drop i xs, h') /\ ll_size l' = S (ll_size l) /\
    list_invariant h' l' /\ untouched h h' (fresh (dom h) :: ps).
Proof.
  intros HR Hi. pose proof (Rep_length _ _ _ _ HR) as Hl.
  destruct (insert_values h l ps xs i v HR Hi) as (h' & l' & E & HR' & U).
  exists h', l'. split; [exact E|]. split; [exact (to_vector_spec _ _ _ _ HR')|].
  split; [|split; [exact (Rep_invariant _ _ _ _ HR')|exact U]].
  pose proof (Rep_length _ _ _ _ HR') as Hl'. unfold ll_size in *.
  rewrite length_app in Hl'. simpl in Hl'. rewrite length_take, length_drop in Hl'. lia.
Qed.

(** X3: for an index [i < size], [erase i] returns true, the list then holds [xs] without its [i]-th element, the size drops by one, the invariant holds, the erased node (the [i]-th node) is freed, and no node outside the list changes. *)
Theorem erase_within_bounds (h : heap) (l : LL) (ps : list ptr) (xs : list Z) (i : nat) :
  Rep h l ps xs -> i < ll_size l ->
  exists h' l' q, erase l i h = inl ((true, l'), h') /\ ps !! i = Some q /\
    to_vector l' h' = inl (take i xs ++ drop (S i) xs, h') /\ ll_size l' = ll_size l - 1 /\
    list_invariant h' l' /\ h' !! q = None /\ untouched h h' ps.
Proof.
  intros HR Hi. pose proof (Rep_length _ _ _ _ HR) as Hl.
  destruct (erase_values h l ps xs i HR Hi) as (h' & l' & q & E & Eq & HR' & Hq & U).
  exists h', l', q. split; [exact E|]. split; [exact Eq|].
  split; [exact (to_vector_spec _ _ _ _ HR')|].
  split; [|split; [exact (Rep_invariant _ _ _ _ HR')|split; [exact Hq|exact U]]].
  pose proof (Rep_length _ _ _ _ HR') as Hl'. unfold ll_size in *.
  rewrite length_app in Hl'. rewrite length_take, length_drop in Hl'. lia.
Qed.

(** X4: on a well-formed list, [insert i v] at an index [i <= size] followed by [erase i] returns true both times and gives back the original list object and exactly the original heap. *)
Theorem insert_then_erase_restores (h : heap) (l : LL) (ps : list ptr) (xs : list Z) (i : nat) (v : Z) :
  Rep h l ps xs -> i <= ll_size l ->
  exists l' h', insert l i v h = inl ((true, l'), h') /\ erase l' i h' = inl ((true, l), h).
Proof. intros HR Hi. exact (insert_erase h l ps xs i v HR Hi). Qed.

(** X5: on a well-formed list, [push_front v] followed by [pop_front] pops [v] and gives back the original list object and exactly the original heap. *)
Theorem push_front_then_pop_front_restores (h : heap) (l : LL) (ps : list ptr) (xs : list Z) (v : Z) :
  Rep h l ps xs ->
  exists l' h', push_front l v h = inl (l', h') /\ pop_front l' h' = inl ((Some v, l), h).
Proof. intros HR. exact (push_front_pop_front h l ps xs v HR). Qed.

(** X6: on a well-formed list, [clear], [ll_clear] and the destructor free exactly the list's nodes, leave every other heap cell unchanged, and [clear] leaves the empty list. *)
Theorem clear_frees_exactly_the_list (h : heap) (l : LL) (ps : list ptr) (xs : list Z) :
  Rep h l ps xs ->
  exists h', clear l h = inl (init, h') /\ ll_clear l h = inl (init, h') /\
    destroy l h = inl (tt, h') /\
    (forall q, q ∈ ps -> h' !! q = None) /\ (forall q, q ∉ ps -> h' !! q = h !! q).
Proof.
  intros HR. destruct (clear_exact h l ps xs HR) as (h' & E & Hg & Hk).
  exists h'. split; [exact E|]. split; [exact E|].
  split; [unfold destroy; step E; reflexivity|]. auto.
Qed.

(** X7: any sequence of operations run on a well-formed list holding [xs] succeeds, and the list then holds the sequence computed by the value-level model of the operations, with [size] its length. *)
Theorem ops_refine_list_model (h : heap) (l : LL) (ps : list ptr) (xs : list Z) (ops : list op) :
  Rep h l ps xs ->
  exists h' l', run ops l h = inl (l', h') /\
    to_vector l' h' = inl (model_run ops xs, h') /\ ll_size l' = length (model_run ops xs).
Proof.
  intros HR. destruct (run_exact ops h l ps xs HR) as (h' & l' & ps' & E & HR' & _).
  exists h', l'. split; [exact E|]. split; [exact (to_vector_spec _ _ _ _ HR')|].
  exact (Rep_length _ _ _ _ HR').
Qed.

(** X8: a list object created empty, updated by any sequence of operations and then destroyed gives back exactly the heap it started from: no node is leaked and no foreign node is touched. *)
Theorem list_lifetime_leaves_heap_unchanged (h : heap) (ops : list op) :
  exists l h1, run ops init h = inl (l, h1) /\ destroy l h1 = inl (tt, h).
Proof.
  destruct (run_exact ops h init [] [] (Rep_init h)) as (h1 & l & ps & E & HR & F1).
  destruct (clear_exact h1 l ps _ HR) as (h2 & Ec & Hg & Hk).
  exists l, h1. split; [exact E|]. unfold destroy. step Ec. unfold ret. do 2 f_equal.
  destruct F1 as (A & _ & C). apply map_eq. intros q.
  destruct (decide (q ∈ ps)) as [Hq|Hq].
  - rewrite Hg by done. symmetry. apply C; [done|by intros ?%elem_of_nil].
  - rewrite Hk by done. apply A; [by intros ?%elem_of_nil|done].
Qed.

(** X9: running any sequence of operations on one list leaves the contents and the invariant of every other well-formed list with disjoint nodes unchanged. *)
Theorem ops_preserve_other_lists (h : heap) (l l2 : LL) (ps ps2 : list ptr) (xs xs2 : list Z)
    (ops : list op) :
  Rep h l ps xs -> Rep h l2 ps2 xs2 -> (forall q, q ∈ ps -> q ∉ ps2) ->
  exists h' l', run ops l h = inl (l', h') /\
    to_vector l2 h' = inl (xs2, h') /\ list_invariant h' l2.
Proof.
  intros HR HR2 Hd. destruct (run_exact ops h l ps xs HR) as (h' & l' & ps' & E & _ & (A & _ & C)).
  pose proof HR2 as (Hs2 & _ & _ & _).
  assert (HR2' : Rep h' l2 ps2 xs2).
  { eapply Rep_frame; [exact HR2|]. intros q Hq.
    assert (Hq1 : q ∉ ps) by (intros Hin; by apply (Hd q Hin)).
    destruct (seg_alloc _ _ _ _ _ Hs2 q Hq) as [nd Enq].
    apply A; [done|]. intros Hq'. pose proof (C q Hq' Hq1). congruence. }
  exists h', l'. split; [exact E|]. split; [exact (to_vector_spec _ _ _ _ HR2')|].
  exact (Rep_invariant _ _ _ _ HR2').
Qed.

(** X10: on a nonempty well-formed list, [front]/[back] return the first/last value without changing the heap, and [ll_front]/[ll_back] return 1 and store that value in [*out], changing nothing else. *)
Theorem accessors_nonempty (m : Mem) (l : LL) (ps : list ptr) (xs : list Z) (x y : Z) (o : ptr) :
  Rep (nodes m) l ps xs -> head xs = Some x -> last xs = Some y -> is_Some (ints m !! o) ->
  front l (nodes m) = inl (x, nodes m) /\ back l (nodes m) = inl (y, nodes m) /\
  ll_front l (Some o) m = inl (1%Z, mkMem (nodes m) (<[o := x]> (ints m)) (lists m)) /\
  ll_back l (Some o) m = inl (1%Z, mkMem (nodes m) (<[o := y]> (ints m)) (lists m)).
Proof.
  intros HR Hx Hy Ho. pose proof HR as (Hs & _ & _ & _).
  assert (Ef : front l (nodes m) = inl (x, nodes m)).
  { destruct xs as [|x0 xs0]; [done|]. simpl in Hx. injection Hx as ->.
    destruct ps as [|p ps0]; [apply seg_nil_inv in Hs as [? _]; done|].
    apply seg_cons_inv in Hs as (nd & xs' & Hh & E & Ex & _). injection Ex as -> _.
    unfold front. rewrite Hh. step (deref_some _ _ _ E). reflexivity. }
  assert (Eb : back l (nodes m) = inl (y, nodes m)).
  { apply last_Some in Hy as [xs0 ->]. exact (back_spec _ _ _ _ y HR). }
  split; [exact Ef|]. split; [exact Eb|]. split.
  - unfold front in Ef. unfold ll_front. destruct (head_ l) as [p|] eqn:Eh; [|done].
    unfold bind in Ef |- *. destruct (deref (Some p) (nodes m)) as [[nd h0]|] eqn:Ed; [|done].
    unfold on_nodes. rewrite Ed. injection Ef as <- ->.
    rewrite (write_int_some (mkMem (nodes m) (ints m) (lists m)) o (value nd) Ho). reflexivity.
  - unfold back in Eb. unfold ll_back. destruct (tail_ l) as [t|] eqn:Et; [|done].
    unfold bind in Eb |- *. destruct (deref (Some t) (nodes m)) as [[nd h0]|] eqn:Ed; [|done].
    unfold on_nodes. rewrite Ed. injection Eb as <- ->.
    rewrite (write_int_some (mkMem (nodes m) (ints m) (lists m)) o (value nd) Ho). reflexivity.
Qed.

(** X11: on a nonempty well-formed list, [ll_pop_front(l, out)] returns 1, writes the first value to [*out], frees exactly the head node, and leaves a well-formed list of the remaining values with the size decreased by one. *)
Theorem c_pop_front_nonempty (m : Mem) (l : LL) (p : ptr) (ps : list ptr) (x : Z) (xs : list Z) (o : ptr) :
  Rep (nodes m) l (p :: ps) (x :: xs) -> is_Some (ints m !! o) ->
  exists l', ll_pop_front l (Some o) m =
             inl ((1%Z, l'), mkMem (delete p (nodes m)) (<[o := x]> (ints m)) (lists m)) /\
    to_vector l' (delete p (nodes m)) = inl (xs, delete p (nodes m)) /\
    ll_size l' = ll_size l - 1 /\ list_invariant (delete p (nodes m)) l'.
Proof.
  intros HR Ho.
  destruct (pop_front_spec _ _ _ _ HR) as (nd & xs' & E & Ex & Hh & _ & HR' & _).
  injection Ex as -> ->.
  eexists. split.
  - unfold ll_pop_front. rewrite Hh.
    step (on_nodes_inl _ m _ _ (deref_some _ _ _ E)).
    destruct m as [h0 i0 l0]. simpl in *.
    step (write_int_some (mkMem h0 i0 l0) o (value nd) Ho).
    step (on_nodes_inl _ (mkMem h0 (<[o := value nd]> i0) l0) _ _ (free_some _ _ _ E)).
    reflexivity.
  - split; [exact (to_vector_spec _ _ _ _ HR')|]. split; [reflexivity|].
    exact (Rep_invariant _ _ _ _ HR').
Qed.

(** X12: the copy assignment [a = b] is a no-op when [a] and [b] are the same object; for distinct objects with disjoint nodes it gives [a] the values of [b], leaves [b] and every other object unchanged, and [a]'s new nodes are disjoint from [b]'s. *)
Theorem copy_assign_copies (m : Mem) (a b : ptr) (la lb : LL) (psa psb : list ptr) (xsa xsb : list Z) :
  a ≠ b -> lists m !! a = Some la -> lists m !! b = Some lb ->
  Rep (nodes m) la psa xsa -> Rep (nodes m) lb psb xsb -> (forall q, q ∈ psa -> q ∉ psb) ->
  copy_assign a a m = inl (tt, m) /\
  exists m', copy_assign a b m = inl (tt, m') /\
    values_at a m' = inl (xsb, m') /\ values_at b m' = inl (xsb, m') /\
    (forall c, c ≠ a -> lists m' !! c = lists m !! c) /\
    (exists la' psa', lists m' !! a = Some la' /\ Rep (nodes m') la' psa' xsb /\
                      forall q, q ∈ psa' -> q ∉ psb).
Proof.
  intros Hab Ea Eb HRa HRb Hd.
  split; [unfold copy_assign; by rewrite decide_True|].
  destruct (copy_assign_spec m a b la lb psa xsa psb xsb Hab Ea Eb HRa HRb Hd)
    as (h' & la' & psa' & E & HRa' & HRb' & Hd').
  eexists. split; [exact E|].
  split; [|split; [|split; [|exists la', psa'; split; [simpl; by rewrite lookup_insert_eq|]; auto]]].
  - unfold values_at.
    step (load_list_some (mkMem h' (ints m) (<[a := la']> (lists m))) a la'
            ltac:(cbn [lists]; by rewrite lookup_insert_eq)).
    apply on_nodes_read. exact (to_vector_spec _ _ _ _ HRa').
  - unfold values_at.
    step (load_list_some (mkMem h' (ints m) (<[a := la']> (lists m))) b lb
            ltac:(cbn [lists]; by rewrite lookup_insert_ne)).
    apply on_nodes_read. exact (to_vector_spec _ _ _ _ HRb').
  - intros c Hc. simpl. by rewrite lookup_insert_ne.
Qed.

(** X13: for distinct objects with disjoint nodes, the move assignment [a = std::move(b)] and [ll_move_assign_from(a, b)] do the same thing: [a] takes over [b]'s values, [b] becomes empty, the old nodes of [a] are freed, and nothing else changes. *)
Theorem move_assign_distinct (m : Mem) (a b : ptr) (la lb : LL) (psa psb : list ptr) (xsa xsb : list Z) :
  a ≠ b -> lists m !! a = Some la -> lists m !! b = Some lb ->
  Rep (nodes m) la psa xsa -> Rep (nodes m) lb psb xsb -> (forall q, q ∈ psa -> q ∉ psb) ->
  exists m', move_assign a b m = inl (tt, m') /\ ll_move_assign_from a b m = inl (tt, m') /\
    values_at a m' = inl (xsb, m') /\ lists m' !! b = Some init /\
    (forall c, c ≠ a -> c ≠ b -> lists m' !! c = lists m !! c) /\
    (forall q, q ∈ psa -> nodes m' !! q = None) /\
    (forall q, q ∉ psa -> nodes m' !! q = nodes m !! q).
Proof.
  intros Hab Ea Eb HRa HRb Hd.
  destruct (move_assign_spec m a b la lb psa xsa psb xsb Hab Ea Eb HRa HRb Hd)
    as (h' & E1 & E2 & HRb' & Hg & Hk).
  eexists. split; [exact E1|]. split; [exact E2|].
  split; [|split; [|split; [|split; [exact Hg|exact Hk]]]].
  - unfold values_at.
    step (load_list_some (mkMem h' (ints m) (<[b := init]> (<[a := lb]> (lists m)))) a lb
            ltac:(cbn [lists]; by rewrite lookup_insert_ne, lookup_insert_eq)).
    apply on_nodes_read. exact (to_vector_spec _ _ _ _ HRb').
  - simpl. by rewrite lookup_insert_eq.
  - intros c Hca Hcb. simpl. by rewrite !lookup_insert_ne.
Qed.

(** X14: for a well-formed list, [print_list] of main.cpp and of main.c write the same line, the optional label followed by the bracketed values and the size; a NULL label in C prints like the empty label in C++. *)
Theorem print_list_agree (h : heap) (l : LL) (ps : list ptr) (xs : list Z) (label : string) :
  Rep h l ps xs ->
  let line := ((if String.eqb label EmptyString then EmptyString else label ++ ": ") ++
               "[" ++ cpp_print_values true xs ++ "] size=" ++ show_nat (length xs) ++ nl)%string in
  cpp_print_list l label h = inl (line, h) /\ c_print_list l (Some label) h = inl (line, h) /\
  c_print_list l None h = cpp_print_list l EmptyString h.
Proof.
  intros HR line. pose proof HR as (Hs & _ & _ & _).
  pose proof (Rep_length _ _ _ _ HR) as Hl.
  assert (Ec : forall first, c_print_loop (S (size h)) (head_ l) first h = inl (cpp_print_values first xs, h)).
  { intros first. apply (c_print_loop_spec _ _ ps); [exact Hs|]. pose proof (Rep_fuel _ _ _ _ HR). lia. }
  assert (Ecpp : forall s, cpp_print_list l s h =
    inl (((if String.eqb s EmptyString then EmptyString else s ++ ": ") ++
          "[" ++ cpp_print_values true xs ++ "] size=" ++ show_nat (length xs) ++ nl)%string, h)).
  { intros s. unfold cpp_print_list. step (to_vector_spec _ _ _ _ HR). unfold ll_size. by rewrite Hl. }
  split; [apply Ecpp|]. split.
  - unfold c_print_list. step (eq_refl : get h = inl (h, h)). step (Ec true). by rewrite Hl.
  - rewrite Ecpp. unfold c_print_list. step (eq_refl : get h = inl (h, h)). step (Ec true).
    by rewrite Hl.
Qed.

(** X15: the C harness, for any command line, writes the concatenated texts of the tasks [main] selects, exits with [main]'s status, and leaves the node heap exactly as it found it. *)
Theorem c_program_output argv h is ls o al :
  exists m', c_program argv (mkProc (mkMem h is ls) o al) =
    inl (snd (c_main argv),
         mkProc m' (o ++ foldr String.append EmptyString (map c_task_text (fst (c_main argv))))%string al)
    /\ nodes m' = h.
Proof.
  destruct (c_run_tasks_output (fst (c_main argv)) h is ls o al) as (m' & E & N).
  exists m'. split; [|exact N]. unfold c_program. by rewrite (bind_inl _ _ _ _ _ E).
Qed.

(** X16: the C++ harness run without a task argument writes the texts of task1, task2 and task3 in order, with the [ok=] lines of task2 printed as [true] because task1 switched on [std::boolalpha]; it exits with 0 and leaves the node heap unchanged. *)
Theorem cpp_program_default argv h is ls o al :
  length argv < 2 ->
  exists m', cpp_program argv (mkProc (mkMem h is ls) o al) =
    inl (0%Z, mkProc m' (o ++ cpp_task1_text ++ cpp_task2_text true ++ cpp_task3_text)%string true)
    /\ nodes m' = h.
Proof.
  intros Hl. assert (Hm : cpp_main argv = ([Task1; Task2; Task3], 0%Z)).
  { destruct argv as [|a [|b argv]]; [reflexivity|reflexivity|cbn in Hl; lia]. }
  unfold cpp_program. rewrite Hm. cbn [fst snd run_tasks cpp_task_body].
  destruct (cpp_task1_output h is ls o al) as ([h1 is1 ls1] & E1 & N1). cbn in N1. subst h1.
  rewrite bind_assoc_at, (bind_inl _ _ _ _ _ E1). cbv beta.
  destruct (cpp_task2_output h is1 ls1 (o ++ cpp_task1_text)%string true)
    as ([h2 is2 ls2] & E2 & N2). cbn in N2. subst h2.
  rewrite bind_assoc_at, (bind_inl _ _ _ _ _ E2). cbv beta.
  destruct (cpp_task3_output h is2 ls2 ((o ++ cpp_task1_text) ++ cpp_task2_text true)%string true)
    as (m3 & E3 & N3).
  rewrite bind_assoc_at, (bind_inl _ _ _ _ _ E3). exists m3. split; [|exact N3].
  cbn. by rewrite !string_app_assoc.
Qed.

(** X17: the C++ harness run as [task1], [task2] or [task3] writes only that task's text and exits with 0, leaving the node heap unchanged; [task2] alone prints its [ok=] lines according to the stream's boolalpha flag, so as [ok=1] on a fresh stream. *)
Theorem cpp_program_single p rest h is ls o al :
  (exists m', cpp_program (p :: "task1" :: rest)%string (mkProc (mkMem h is ls) o al) =
     inl (0%Z, mkProc m' (o ++ cpp_task1_text)%string true) /\ nodes m' = h) /\
  (exists m', cpp_program (p :: "task2" :: rest)%string (mkProc (mkMem h is ls) o al) =
     inl (0%Z, mkProc m' (o ++ cpp_task2_text al)%string al) /\ nodes m' = h) /\
  (exists m', cpp_program (p :: "task3" :: rest)%string (mkProc (mkMem h is ls) o al) =
     inl (0%Z, mkProc m' (o ++ cpp_task3_text)%string al) /\ nodes m' = h).
Proof.
  split; [|split].
  - destruct (cpp_task1_output h is ls o al) as (m' & E & N).
    exists m'. split; [|exact N]. exact (cpp_program_one (p :: "task1" :: rest)%string Task1 0%Z _ _ eq_refl E).
  - destruct (cpp_task2_output h is ls o al) as (m' & E & N).
    exists m'. split; [|exact N]. exact (cpp_program_one (p :: "task2" :: rest)%string Task2 0%Z _ _ eq_refl E).
  - destruct (cpp_task3_output h is ls o al) as (m' & E & N).
    exists m'. split; [|exact N]. exact (cpp_program_one (p :: "task3" :: rest)%string Task3 0%Z _ _ eq_refl E).
Qed.

(* ------------------------------------------------------------------ *)
(** ** Witnesses of the further properties *)

Lemma push_front_back_values_witness :
  Rep one_heap one_list [1%positive] [5%Z] /\
  (exists h' l', push_front one_list 7 one_heap = inl (l', h') /\
     to_vector l' h' = inl ([7; 5]%Z, h') /\ front l' h' = inl (7%Z, h') /\
     ll_size l' = S (ll_size one_list) /\ list_invariant h' l' /\
     untouched one_heap h' [fresh (dom one_heap)]) /\
  (exists h' l', push_back one_list 7 one_heap = inl (l', h') /\
     to_vector l' h' = inl ([5; 7]%Z, h') /\ back l' h' = inl (7%Z, h') /\
     ll_size l' = S (ll_size one_list) /\ list_invariant h' l' /\
     untouched one_heap h' (fresh (dom one_heap) :: [1%positive])).
Proof.
  split; [apply Rep_single; reflexivity|].
  exact (push_front_back_values one_heap one_list [1%positive] [5%Z] 7 one_list_rep).
Defined.

Lemma insert_within_bounds_witness :
  Rep one_heap one_list [1%positive] [5%Z] /\ 1 <= ll_size one_list /\
  exists h' l', insert one_list 1 7 one_heap = inl ((true, l'), h') /\
    to_vector l' h' = inl ([5; 7]%Z, h') /\ ll_size l' = S (ll_size one_list) /\
    list_invariant h' l' /\ untouched one_heap h' (fresh (dom one_heap) :: [1%positive]).
Proof.
  split; [apply Rep_single; reflexivity|]. split; [vm_compute; lia|].
  exact (insert_within_bounds one_heap one_list [1%positive] [5%Z] 1 7 one_list_rep
           ltac:(vm_compute; lia)).
Defined.

Lemma erase_within_bounds_witness :
  Rep one_heap one_list [1%positive] [5%Z] /\ 0 < ll_size one_list /\
  exists h' l' q, erase one_list 0 one_heap = inl ((true, l'), h') /\
    [1%positive] !! 0 = Some q /\ to_vector l' h' = inl ([], h') /\
    ll_size l' = ll_size one_list - 1 /\ list_invariant h' l' /\ h' !! q = None /\
    untouched one_heap h' [1%positive].
Proof.
  split; [apply Rep_single; reflexivity|]. split; [vm_compute; lia|].
  exact (erase_within_bounds one_heap one_list [1%positive] [5%Z] 0 one_list_rep
           ltac:(vm_compute; lia)).
Defined.

Lemma insert_then_erase_restores_witness :
  Rep one_heap one_list [1%positive] [5%Z] /\ 0 <= ll_size one_list /\
  exists l' h', insert one_list 0 7 one_heap = inl ((true, l'), h') /\
    erase l' 0 h' = inl ((true, one_list), one_heap).
Proof.
  split; [apply Rep_single; reflexivity|]. split; [vm_compute; lia|].
  exact (insert_then_erase_restores one_heap one_list [1%positive] [5%Z] 0 7 one_list_rep
           ltac:(vm_compute; lia)).
Defined.

Lemma push_front_then_pop_front_restores_witness :
  Rep one_heap one_list [1%positive] [5%Z] /\
  exists l' h', push_front one_list 7 one_heap = inl (l', h') /\
    pop_front l' h' = inl ((Some 7%Z, one_list), one_heap).
Proof.
  split; [apply Rep_single; reflexivity|].
  exact (push_front_then_pop_front_restores one_heap one_list [1%positive] [5%Z] 7
           one_list_rep).
Defined.

Lemma clear_frees_exactly_the_list_witness :
  Rep one_heap one_list [1%positive] [5%Z] /\
  exists h', clear one_list one_heap = inl (init, h') /\ ll_clear one_list one_heap = inl (init, h') /\
    destroy one_list one_heap = inl (tt, h') /\
    (forall q, q ∈ [1%positive] -> h' !! q = None) /\
    (forall q, q ∉ [1%positive] -> h' !! q = one_heap !! q).
Proof.
  split; [apply Rep_single; reflexivity|].
  exact (clear_frees_exactly_the_list one_heap one_list [1%positive] [5%Z] one_list_rep).
Defined.

Lemma ops_refine_list_model_witness :
  Rep one_heap one_list [1%positive] [5%Z] /\
  exists h' l', run [OpPushBack 7; OpInsert 0 3; OpErase 1] one_list one_heap = inl (l', h') /\
    to_vector l' h' = inl (model_run [OpPushBack 7; OpInsert 0 3; OpErase 1] [5%Z], h') /\
    ll_size l' = length (model_run [OpPushBack 7; OpInsert 0 3; OpErase 1] [5%Z]).
Proof.
  split; [apply Rep_single; reflexivity|].
  exact (ops_refine_list_model one_heap one_list [1%positive] [5%Z]
           [OpPushBack 7; OpInsert 0 3; OpErase 1] one_list_rep).
Defined.

Lemma ops_preserve_other_lists_witness :
  Rep two_heap (mkLL (Some 1%positive) (Some 1%positive) 1) [1%positive] [5%Z] /\
  Rep two_heap (mkLL (Some 2%positive) (Some 2%positive) 1) [2%positive] [7%Z] /\
  (forall q, q ∈ [1%positive] -> q ∉ [2%positive]) /\
  exists h' l', run [OpPushFront 3; OpClear] (mkLL (Some 1%positive) (Some 1%positive) 1) two_heap
                  = inl (l', h') /\
    to_vector (mkLL (Some 2%positive) (Some 2%positive) 1) h' = inl ([7%Z], h') /\
    list_invariant h' (mkLL (Some 2%positive) (Some 2%positive) 1).
Proof.
  assert (R1 : Rep two_heap (mkLL (Some 1%positive) (Some 1%positive) 1) [1%positive] [5%Z])
    by (apply Rep_single; reflexivity).
  assert (R2 : Rep two_heap (mkLL (Some 2%positive) (Some 2%positive) 1) [2%positive] [7%Z])
    by (apply Rep_single; reflexivity).
  assert (D : forall q, q ∈ [1%positive] -> q ∉ [2%positive]).
  { intros q H1 H2. apply list_elem_of_singleton in H1, H2. congruence. }
  split; [exact R1|]. split; [exact R2|]. split; [exact D|].
  exact (ops_preserve_other_lists two_heap _ _ [1%positive] [2%positive] [5%Z] [7%Z]
           [OpPushFront 3; OpClear] R1 R2 D).
Defined.

Lemma accessors_nonempty_witness :
  Rep (nodes out_mem) one_list [1%positive] [5%Z] /\ head [5%Z] = Some 5%Z /\
  last [5%Z] = Some 5%Z /\ is_Some (ints out_mem !! 7%positive) /\
  front one_list (nodes out_mem) = inl (5%Z, nodes out_mem) /\
  back one_list (nodes out_mem) = inl (5%Z, nodes out_mem) /\
  ll_front one_list (Some 7%positive) out_mem =
    inl (1%Z, mkMem (nodes out_mem) (<[7%positive := 5%Z]> (ints out_mem)) (lists out_mem)) /\
  ll_back one_list (Some 7%positive) out_mem =
    inl (1%Z, mkMem (nodes out_mem) (<[7%positive := 5%Z]> (ints out_mem)) (lists out_mem)).
Proof.
  assert (HR : Rep (nodes out_mem) one_list [1%positive] [5%Z])
    by (apply Rep_single; reflexivity).
  assert (Ho : is_Some (ints out_mem !! 7%positive)) by (eexists; reflexivity).
  split; [exact HR|]. split; [reflexivity|]. split; [reflexivity|]. split; [exact Ho|].
  exact (accessors_nonempty out_mem one_list [1%positive] [5%Z] 5 5 7%positive HR
           eq_refl eq_refl Ho).
Defined.

Lemma c_pop_front_nonempty_witness :
  Rep (nodes out_mem) one_list [1%positive] [5%Z] /\ is_Some (ints out_mem !! 7%positive) /\
  exists l', ll_pop_front one_list (Some 7%positive) out_mem =
             inl ((1%Z, l'), mkMem (delete 1%positive (nodes out_mem))
                                   (<[7%positive := 5%Z]> (ints out_mem)) (lists out_mem)) /\
    to_vector l' (delete 1%positive (nodes out_mem)) = inl ([], delete 1%positive (nodes out_mem)) /\
    ll_size l' = ll_size one_list - 1 /\ list_invariant (delete 1%positive (nodes out_mem)) l'.
Proof.
  assert (HR : Rep (nodes out_mem) one_list [1%positive] [5%Z])
    by (apply Rep_single; reflexivity).
  assert (Ho : is_Some (ints out_mem !! 7%positive)) by (eexists; reflexivity).
  split; [exact HR|]. split; [exact Ho|].
  exact (c_pop_front_nonempty out_mem one_list 1%positive [] 5 [] 7%positive HR Ho).
Defined.

Lemma copy_assign_copies_witness :
  (1%positive ≠ 2%positive) /\
  lists two_list_mem !! 1%positive = Some (mkLL (Some 1%positive) (Some 1%positive) 1) /\
  lists two_list_mem !! 2%positive = Some (mkLL (Some 2%positive) (Some 2%positive) 1) /\
  Rep (nodes two_list_mem) (mkLL (Some 1%positive) (Some 1%positive) 1) [1%positive] [5%Z] /\
  Rep (nodes two_list_mem) (mkLL (Some 2%positive) (Some 2%positive) 1) [2%positive] [7%Z] /\
  (forall q, q ∈ [1%positive] -> q ∉ [2%positive]) /\
  copy_assign 1%positive 1%positive two_list_mem = inl (tt, two_list_mem) /\
  exists m', copy_assign 1%positive 2%positive two_list_mem = inl (tt, m') /\
    values_at 1%positive m' = inl ([7%Z], m') /\ values_at 2%positive m' = inl ([7%Z], m') /\
    (forall c, c ≠ 1%positive -> lists m' !! c = lists two_list_mem !! c) /\
    (exists la' psa', lists m' !! 1%positive = Some la' /\ Rep (nodes m') la' psa' [7%Z] /\
                      forall q, q ∈ psa' -> q ∉ [2%positive]).
Proof.
  assert (Hab : 1%positive ≠ 2%positive) by discriminate.
  assert (R1 : Rep (nodes two_list_mem) (mkLL (Some 1%positive) (Some 1%positive) 1) [1%positive] [5%Z])
    by (apply Rep_single; reflexivity).
  assert (R2 : Rep (nodes two_list_mem) (mkLL (Some 2%positive) (Some 2%positive) 1) [2%positive] [7%Z])
    by (apply Rep_single; reflexivity).
  assert (D : forall q, q ∈ [1%positive] -> q ∉ [2%positive]).
  { intros q H1 H2. apply list_elem_of_singleton in H1, H2. congruence. }
  do 3 (split; [first [exact Hab | reflexivity]|]).
  split; [exact R1|]. split; [exact R2|]. split; [exact D|].
  exact (copy_assign_copies two_list_mem 1%positive 2%positive _ _ [1%positive] [2%positive]
           [5%Z] [7%Z] Hab eq_refl eq_refl R1 R2 D).
Defined.

Lemma move_assign_distinct_witness :
  (1%positive ≠ 2%positive) /\
  lists two_list_mem !! 1%positive = Some (mkLL (Some 1%positive) (Some 1%positive) 1) /\
  lists two_list_mem !! 2%positive = Some (mkLL (Some 2%positive) (Some 2%positive) 1) /\
  Rep (nodes two_list_mem) (mkLL (Some 1%positive) (Some 1%positive) 1) [1%positive] [5%Z] /\
  Rep (nodes two_list_mem) (mkLL (Some 2%positive) (Some 2%positive) 1) [2%positive] [7%Z] /\
  (forall q, q ∈ [1%positive] -> q ∉ [2%positive]) /\
  exists m', move_assign 1%positive 2%positive two_list_mem = inl (tt, m') /\
    ll_move_assign_from 1%positive 2%positive two_list_mem = inl (tt, m') /\
    values_at 1%positive m' = inl ([7%Z], m') /\ lists m' !! 2%positive = Some init /\
    (forall c, c ≠ 1%positive -> c ≠ 2%positive -> lists m' !! c = lists two_list_mem !! c) /\
    (forall q, q ∈ [1%positive] -> nodes m' !! q = None) /\
    (forall q, q ∉ [1%positive] -> nodes m' !! q = nodes two_list_mem !! q).
Proof.
  assert (Hab : 1%positive ≠ 2%positive) by discriminate.
  assert (R1 : Rep (nodes two_list_mem) (mkLL (Some 1%positive) (Some 1%positive) 1) [1%positive] [5%Z])
    by (apply Rep_single; reflexivity).
  assert (R2 : Rep (nodes two_list_mem) (mkLL (Some 2%positive) (Some 2%positive) 1) [2%positive] [7%Z])
    by (apply Rep_single; reflexivity).
  assert (D : forall q, q ∈ [1%positive] -> q ∉ [2%positive]).
  { intros q H1 H2. apply list_elem_of_singleton in H1, H2. congruence. }
  do 3 (split; [first [exact Hab | reflexivity]|]).
  split; [exact R1|]. split; [exact R2|]. split; [exact D|].
  exact (move_assign_distinct two_list_mem 1%positive 2%positive _ _ [1%positive] [2%positive]
           [5%Z] [7%Z] Hab eq_refl eq_refl R1 R2 D).
Defined.

Lemma print_list_agree_witness :
  Rep one_heap one_list [1%positive] [5%Z] /\
  cpp_print_list one_list "one" one_heap = inl ("one: [5] size=1" ++ nl, one_heap)%string /\
  c_print_list one_list (Some "one"%string) one_heap = inl ("one: [5] size=1" ++ nl, one_heap)%string /\
  c_print_list one_list None one_heap = cpp_print_list one_list EmptyString one_heap.
Proof.
  split; [apply Rep_single; reflexivity|].
  exact (print_list_agree one_heap one_list [1%positive] [5%Z] "one" one_list_rep).
Defined.

Lemma cpp_program_default_witness :
  length ["main"%string] < 2 /\
  exists m', cpp_program ["main"%string] (mkProc (mkMem ∅ ∅ ∅) EmptyString false) =
    inl (0%Z, mkProc m' (EmptyString ++ cpp_task1_text ++ cpp_task2_text true ++ cpp_task3_text)%string true)
    /\ nodes m' = ∅.
Proof.
  split; [simpl; lia|].
  exact (cpp_program_default ["main"%string] ∅ ∅ ∅ EmptyString false ltac:(simpl; lia)).
Defined.
